(** * dexter-js: the tool-call orchestration engine (ToolExecutor)

    A shallow embedding of [ToolExecutor] (tool selection and the bounded
    worker pool of [executeTools]) together with the properties its
    specification states about it.

    The executor is JavaScript: one thread, run-to-completion between
    [await]s.  A worker is therefore modelled by the [await] it is suspended
    at, and one transition resumes one worker and runs it up to its next
    [await] (or to its end).  Which worker is resumed next is decided by a
    schedule, what a capability answers by an oracle; every theorem
    quantifies over both.

    The entries of a call list are taken to be distinct objects, as
    [selectTools] creates them, and the numbers inside values to be
    integers; the configured maximum is a number in full. *)

From stdpp Require Import gmap strings list pretty.
From Stdlib Require Import QArith Qround.

Set Warnings "-register-all".
Close Scope Q_scope.
Open Scope string_scope.

(** ** JavaScript values *)

(** The values the executor handles without looking inside: arguments,
    results, thrown values, the reasoning backend's response.  Numbers are
    restricted to integers; objects carry data properties only. *)
Inductive JsValue :=
| JUndefined
| JNull
| JBool (b : bool)
| JNum (n : Z)
| JStr (s : string)
| JArr (items : list JsValue)
| JObj (fields : list (string * JsValue))
| JError (name message : string).

(** A computation that returns or throws; a promise that fulfils or
    rejects. *)
Inductive Outcome (A : Type) :=
| Fulfilled (a : A)
| Rejected (e : JsValue).
Arguments Fulfilled {A} a.
Arguments Rejected {A} e.

Inductive Promise (A : Type) :=
| Pending
| Settled (o : Outcome A).
Arguments Pending {A}.
Arguments Settled {A} o.

Definition bind {A B} (o : Outcome A) (k : A → Outcome B) : Outcome B :=
  match o with
  | Fulfilled a => k a
  | Rejected e => Rejected e
  end.

Fixpoint mapM {A B} (f : A → Outcome B) (l : list A) : Outcome (list B) :=
  match l with
  | [] => Fulfilled []
  | x :: l' => bind (f x) (λ y, bind (mapM f l') (λ ys, Fulfilled (y :: ys)))
  end.

(** [!v] is [negb (truthy v)]. *)
Definition truthy (v : JsValue) : bool :=
  match v with
  | JUndefined | JNull | JBool false | JNum 0 | JStr "" => false
  | _ => true
  end.

Definition typeof (v : JsValue) : string :=
  match v with
  | JUndefined => "undefined"
  | JBool _ => "boolean"
  | JNum _ => "number"
  | JStr _ => "string"
  | JNull | JArr _ | JObj _ | JError _ _ => "object"
  end.

Definition Array_isArray (v : JsValue) : bool :=
  match v with JArr _ => true | _ => false end.

Definition instanceof_Error (v : JsValue) : bool :=
  match v with JError _ _ => true | _ => false end.

Fixpoint assoc (k : string) (fields : list (string * JsValue)) : option JsValue :=
  match fields with
  | [] => None
  | (k', v) :: rest => if String.eqb k k' then Some v else assoc k rest
  end.

(** [String(v)], also the conversion of a template literal. *)
Fixpoint js_String (v : JsValue) : string :=
  match v with
  | JUndefined => "undefined"
  | JNull => "null"
  | JBool true => "true"
  | JBool false => "false"
  | JNum n => pretty n
  | JStr s => s
  | JArr items =>
      (fix join (l : list JsValue) : string :=
         match l with
         | [] => ""
         | x :: l' =>
             let sx := match x with JUndefined | JNull => "" | _ => js_String x end in
             match l' with [] => sx | _ => sx ++ "," ++ join l' end
         end) items
  | JObj _ => "[object Object]"
  | JError n m =>
      if String.eqb n "" then m
      else if String.eqb m "" then n
      else n ++ ": " ++ m
  end.

(** [s.includes(needle)]. *)
Fixpoint includes (needle s : string) : bool :=
  String.prefix needle s ||
  match s with
  | EmptyString => false
  | String _ s' => includes needle s'
  end.

(** Property read [v.k]; throws a [TypeError] on [undefined] and [null]. *)
Definition get (v : JsValue) (k : string) : Outcome JsValue :=
  match v with
  | JUndefined | JNull =>
      Rejected (JError "TypeError"
                  ("Cannot read properties of " ++ js_String v ++ " (reading '" ++ k ++ "')"))
  | JObj fields => Fulfilled (default JUndefined (assoc k fields))
  | JError n m =>
      Fulfilled (if String.eqb k "name" then JStr n
                 else if String.eqb k "message" then JStr m else JUndefined)
  | JArr items =>
      Fulfilled (if String.eqb k "length" then JNum (Z.of_nat (length items)) else JUndefined)
  | JStr s =>
      Fulfilled (if String.eqb k "length" then JNum (Z.of_nat (String.length s)) else JUndefined)
  | JBool _ | JNum _ => Fulfilled JUndefined
  end.

(** ** Data model *)

Inductive Status := pending | running | completed | failed.

Global Instance Status_eq_dec : EqDecision Status.
Proof. solve_decision. Defined.

(** [ToolCallStatus]: [{ tool, args, status }]. *)
Record ToolCallStatus := {
  tool : JsValue;
  args : JsValue;
  status : Status;
}.

Definition set_status (s : Status) (tc : ToolCallStatus) : ToolCallStatus :=
  {| tool := tool tc; args := args tc; status := s |}.

(** [Task]: the executor reads [task.id], [task.description] and the
    optional [task.toolCalls]. *)
Record Task := {
  task_id : string;
  task_description : string;
  toolCalls : option (list ToolCallStatus);
}.

Record Entity := { type : string; value : string }.
Record Understanding := { entities : list Entity }.

(** A capability as the executor sees it: its name, its description and,
    when its schema is an object with a [shape], the shape's entries with
    their optional descriptions.  What [invoke] answers is the oracle's
    business (see [Env]). *)
Record Tool := {
  name : string;
  description : string;
  schema : option (list (string * option string));
}.

(** A number, as the option [maxConcurrentToolCalls] can be one: [NaN], an
    infinity, or a finite number with its exact value.  Every double is a
    rational, and comparing and truncating, all that is done with the
    number here, are exact; the two zeros are not told apart. *)
Inductive JsNumber :=
| NaN
| Infinity (negative : bool)
| Finite (q : Q).

(** The number a length is. *)
Definition of_length (n : nat) : JsNumber := Finite (inject_Z (Z.of_nat n)).

(** [x <= y], false if one of the two is [NaN]. *)
Definition Number_le (x y : JsNumber) : bool :=
  match x, y with
  | NaN, _ | _, NaN => false
  | Infinity true, _ => true
  | _, Infinity false => true
  | Infinity false, _ => false
  | _, Infinity true => false
  | Finite p, Finite q => Qle_bool p q
  end.

(** [Math.min(x, y)] and [Math.max(x, y)]: [NaN] if one of the two is. *)
Definition Math_min (x y : JsNumber) : JsNumber :=
  match x, y with
  | NaN, _ | _, NaN => NaN
  | _, _ => if Number_le x y then x else y
  end.

Definition Math_max (x y : JsNumber) : JsNumber :=
  match x, y with
  | NaN, _ | _, NaN => NaN
  | _, _ => if Number_le x y then y else x
  end.

(** [ToLength(x)], the length [Array.from({ length: x }, ...)] works with:
    [x] truncated towards zero, 0 for [NaN] and for what is negative, at
    most [2^53 - 1]. *)
Definition ToLength (x : JsNumber) : nat :=
  match x with
  | NaN | Infinity true => 0
  | Infinity false => Z.to_nat (2 ^ 53 - 1)
  | Finite q => Z.to_nat (Z.min (Z.quot (Qnum q) (Z.pos (Qden q))) (2 ^ 53 - 1))
  end.

(** [ToolExecutor]: the fields the constructor sets.  The option
    [maxConcurrentToolCalls?: number] is a number or absent. *)
Record ToolExecutor := {
  tools : list Tool;
  toolMap : gmap string Tool;
  maxConcurrentToolCalls : option JsNumber;
}.

(** [new Map(options.tools.map(t => [t.name, t]))]: a later tool with the
    same name replaces an earlier one. *)
Definition new_Map (ts : list Tool) : gmap string Tool :=
  foldl (λ m t, <[name t := t]> m) ∅ ts.

Definition new_ToolExecutor (ts : list Tool) (maxConcurrent : option JsNumber)
  : ToolExecutor :=
  {| tools := ts; toolMap := new_Map ts; maxConcurrentToolCalls := maxConcurrent |}.

(** [this.toolMap.get(key)]: the keys are strings, so only a string can be
    found. *)
Definition toolMap_get (ex : ToolExecutor) (key : JsValue) : option Tool :=
  match key with
  | JStr n => toolMap ex !! n
  | _ => None
  end.

(** ** Tool selection *)

Definition SMALL_MODEL : string := "gpt-5-mini".

Definition newline : string := String (Ascii.ascii_of_nat 10) "".

(** [formatToolDescriptions]. *)
Definition formatToolDescriptions (ex : ToolExecutor) : string :=
  String.concat (newline ++ newline)
    (map (λ t,
       let argsDescription :=
         match schema t with
         | Some shape =>
             let args :=
               String.concat newline
                 (map (λ '(key, d),
                    "  - " ++ key ++ ": " ++
                    match d with
                    | Some "" | None => "No description"
                    | Some s => s
                    end) shape) in
             if String.eqb args "" then "" else newline ++ "  Arguments:" ++ newline ++ args
         | None => ""
         end in
       "- " ++ name t ++ ": " ++ description t ++ argsDescription) (tools ex)).

(** [extractToolCalls]: the calls a response proposes, as [{ tool, args }]
    pairs; it throws where reading [tc.name] throws. *)
Definition extractToolCalls (response : JsValue) : Outcome (list (JsValue * JsValue)) :=
  if negb (truthy response) || negb (String.eqb (typeof response) "object") then Fulfilled []
  else
    bind (get response "tool_calls") (λ tool_calls,
      if negb (truthy tool_calls) || negb (Array_isArray tool_calls) then Fulfilled []
      else
        match tool_calls with
        | JArr items =>
            mapM (λ tc, bind (get tc "name") (λ n,
                        bind (get tc "args") (λ a, Fulfilled (n, a)))) items
        | _ => Fulfilled []
        end).

(** The reasoning backend and the two prompt builders are imported by the
    executor; they are parameters of [selectTools]. *)
Record Backend := {
  callLlm : string → string → string → list Tool → Outcome JsValue;
  buildToolSelectionPrompt : string → list string → list string → string;
  getToolSelectionSystemPrompt : string → string;
}.

(** [selectTools]. *)
Definition selectTools (llm : Backend) (ex : ToolExecutor)
    (task : Task) (understanding : Understanding) : Outcome (list ToolCallStatus) :=
  let tickers :=
    map value (filter (λ e, type e = "ticker") (entities understanding)) in
  let periods :=
    map value (filter (λ e, type e = "period") (entities understanding)) in
  let prompt := buildToolSelectionPrompt llm (task_description task) tickers periods in
  let systemPrompt := getToolSelectionSystemPrompt llm (formatToolDescriptions ex) in
  bind (callLlm llm prompt SMALL_MODEL systemPrompt (tools ex)) (λ response,
    bind (extractToolCalls response) (λ toolCalls,
      Fulfilled (map (λ tc, {| tool := tc.1; args := tc.2; status := pending |}) toolCalls))).

(** What [selectTools] is answered by the backend, and the calls a response
    proposes: the elements of its [tool_calls] array. *)
Definition backend_response (llm : Backend) (ex : ToolExecutor)
    (task : Task) (understanding : Understanding) : Outcome JsValue :=
  callLlm llm
    (buildToolSelectionPrompt llm (task_description task)
       (map value (filter (λ e, type e = "ticker") (entities understanding)))
       (map value (filter (λ e, type e = "period") (entities understanding))))
    SMALL_MODEL
    (getToolSelectionSystemPrompt llm (formatToolDescriptions ex))
    (tools ex).

Definition proposed_calls (response : JsValue) : list JsValue :=
  match get response "tool_calls" with
  | Fulfilled (JArr items) => items
  | _ => []
  end.

Definition is_object (v : JsValue) : bool :=
  match v with
  | JArr _ | JObj _ | JError _ _ => true
  | _ => false
  end.

(** The names of the capability set. *)
Definition capability (ex : ToolExecutor) (v : JsValue) : Prop :=
  ∃ n, v = JStr n ∧ n ∈ name <$> tools ex.

(** ** Tool execution: the state *)

(** A call of an observer: [onToolCallUpdate(taskId, toolIndex, status)] or
    [onToolCallError(taskId, toolIndex, toolName, args, error)]. *)
Inductive Event :=
| ToolCallUpdate (taskId : string) (toolIndex : nat) (s : Status)
| ToolCallError (taskId : string) (toolIndex : nat) (toolName args error : JsValue).

(** [ToolExecutorCallbacks]: both observers are optional.  An observer may
    keep state of its own, so its answer depends on the calls made so far;
    it returns normally ([None]) or throws ([Some e]). *)
Record ToolExecutorCallbacks := {
  onToolCallUpdate :
    option (list Event → string → nat → Status → option JsValue);
  onToolCallError :
    option (list Event → string → nat → JsValue → JsValue → JsValue → option JsValue);
}.

(** What the outside world answers: [invoke idx attempt] is how the promise
    of the [attempt]-th [tool.invoke(args)] for call [idx] settles, and
    [entropy idx attempt] the random bits behind the [Math.random()] drawn
    after that attempt. *)
Record Env := {
  invoke : nat → nat → Outcome JsValue;
  entropy : nat → nat → Z;
}.

(** What one [executeTools(task, queryId, callbacks)] closes over. *)
Record Ctx := {
  this : ToolExecutor;
  taskId : string;
  queryId : string;
  callbacks : option ToolExecutorCallbacks;
  env : Env;
}.

(** One [contextManager.saveContext(toolName, args, result, undefined, queryId)]. *)
Record Saved := {
  saved_tool : JsValue;
  saved_args : JsValue;
  saved_result : JsValue;
  saved_error : JsValue;
  saved_queryId : string;
}.

(** The state the workers share: the claim counter, the flag, the task's
    call list and the context store, and, as a record of what was done, the
    observer calls, the [tool.invoke] calls [(idx, attempt)], the retry
    timers [(idx, attempt, delay)] and the counter values each worker read
    [(worker, idx)]; all oldest first. *)
Record Store := {
  nextIndex : nat;
  allSucceeded : bool;
  calls : list ToolCallStatus;
  saved : list Saved;
  events : list Event;
  invocations : list (nat * nat);
  timers : list (nat * nat * Z);
  claims : list (nat * nat);
}.

(** Where a worker is: about to run [const idx = nextIndex++], suspended at
    one of the three [await]s, returned, or rejected with what an observer
    threw while the worker handled call [idx]. *)
Inductive Worker :=
| LoopHead
| AwaitInvoke (idx attempt : nat)
| AwaitDelay (idx attempt : nat)
| AwaitRetries (idx : nat) (o : Outcome JsValue)
| Returned
| Threw (idx : nat) (e : JsValue).

(** [workers] are the promises [Promise.all] waits for; [rejection] is the
    first rejection among them. *)
Record Pool := {
  store : Store;
  workers : list Worker;
  rejection : option JsValue;
}.

Definition claim (w idx : nat) (st : Store) : Store :=
  {| nextIndex := idx + 1; allSucceeded := allSucceeded st; calls := calls st;
     saved := saved st; events := events st; invocations := invocations st;
     timers := timers st; claims := claims st ++ [(w, idx)] |}.

Definition clear_flag (st : Store) : Store :=
  {| nextIndex := nextIndex st; allSucceeded := false; calls := calls st;
     saved := saved st; events := events st; invocations := invocations st;
     timers := timers st; claims := claims st |}.

Definition write_status (idx : nat) (s : Status) (st : Store) : Store :=
  {| nextIndex := nextIndex st; allSucceeded := allSucceeded st;
     calls := alter (set_status s) idx (calls st);
     saved := saved st; events := events st; invocations := invocations st;
     timers := timers st; claims := claims st |}.

Definition saveContext (e : Saved) (st : Store) : Store :=
  {| nextIndex := nextIndex st; allSucceeded := allSucceeded st; calls := calls st;
     saved := saved st ++ [e]; events := events st; invocations := invocations st;
     timers := timers st; claims := claims st |}.

Definition add_event (ev : Event) (st : Store) : Store :=
  {| nextIndex := nextIndex st; allSucceeded := allSucceeded st; calls := calls st;
     saved := saved st; events := events st ++ [ev]; invocations := invocations st;
     timers := timers st; claims := claims st |}.

Definition log_invoke (idx attempt : nat) (st : Store) : Store :=
  {| nextIndex := nextIndex st; allSucceeded := allSucceeded st; calls := calls st;
     saved := saved st; events := events st;
     invocations := invocations st ++ [(idx, attempt)];
     timers := timers st; claims := claims st |}.

Definition setTimeout (idx attempt : nat) (delay : Z) (st : Store) : Store :=
  {| nextIndex := nextIndex st; allSucceeded := allSucceeded st; calls := calls st;
     saved := saved st; events := events st; invocations := invocations st;
     timers := timers st ++ [(idx, attempt, delay)]; claims := claims st |}.

(** ** Tool execution: the workers *)

(** The answer of the observer an event is for, if it is supplied. *)
Definition observe (cbs : option ToolExecutorCallbacks) (seen : list Event) (ev : Event)
  : option JsValue :=
  match ev with
  | ToolCallUpdate tid i s =>
      cb ← cbs; h ← onToolCallUpdate cb; h seen tid i s
  | ToolCallError tid i n a e =>
      cb ← cbs; h ← onToolCallError cb; h seen tid i n a e
  end.

(** [callbacks?.onToolCallUpdate?.(...)] and [callbacks?.onToolCallError?.(...)]. *)
Definition emit (c : Ctx) (ev : Event) (st : Store) : Store * option JsValue :=
  (add_event ev st, observe (callbacks c) (events st) ev).

(** The [catch (error)] block of the worker, up to the end of the loop body. *)
Definition catch_block (c : Ctx) (idx : nat) (toolCall : ToolCallStatus) (error : JsValue)
    (st : Store) : Store * Worker :=
  let st := clear_flag st in
  let st := write_status idx failed st in
  let '(st, thrown) := emit c (ToolCallUpdate (taskId c) idx failed) st in
  match thrown with
  | Some e => (st, Threw idx e)
  | None =>
      let '(st, thrown) :=
        emit c (ToolCallError (taskId c) idx (tool toolCall) (args toolCall)
                  (if instanceof_Error error then error
                   else JError "Error" (js_String error))) st in
      match thrown with
      | Some e => (st, Threw idx e)
      | None => (st, LoopHead)
      end
  end.

(** The loop body from its top to the first [await]: claim, the [running]
    event, the lookup, and the first [tool.invoke(args)] of
    [invokeWithRetries].  [idx >= task.toolCalls.length] is the case where
    the list has no entry at [idx]. *)
Definition loop_body (c : Ctx) (w : nat) (st : Store) : Store * Worker :=
  let idx := nextIndex st in
  let st := claim w idx st in
  match calls st !! idx with
  | None => (st, Returned)
  | Some toolCall =>
      let '(st, thrown) := emit c (ToolCallUpdate (taskId c) idx running) st in
      match thrown with
      | Some e => (st, Threw idx e)
      | None =>
          match toolMap_get (this c) (tool toolCall) with
          | None =>
              catch_block c idx toolCall
                (JError "Error" ("Tool not found: " ++ js_String (tool toolCall))) st
          | Some _ => (log_invoke idx 1 st, AwaitInvoke idx 1)
          end
      end
  end.

Definition maxAttempts : nat := 3.

(** [isTooMany], from [String(err || '')]. *)
Definition isTooMany (err : JsValue) : bool :=
  let msg := js_String (if truthy err then err else JStr "") in
  includes "429" msg || includes "Too Many Requests" msg
  || includes "Failed to get crumb" msg.

(** [Math.floor(Math.random() * 500)], with [Math.random()] the fraction
    [k / 2^53] of 53 random bits [k]. *)
Definition jitter (bits : Z) : Z := ((bits mod 2 ^ 53) * 500) `div` 2 ^ 53.

(** [Math.pow(2, attempt) * 1000 + Math.floor(Math.random() * 500)]. *)
Definition retry_delay (attempt : nat) (bits : Z) : Z :=
  (2 ^ Z.of_nat attempt * 1000 + jitter bits)%Z.

(** [invokeWithRetries], resumed at one of its two [await]s: at
    [await tool.invoke(args)] with the way the promise settles, or at the
    [await] of the retry timer.  It suspends again or settles, and then its
    caller is resumed at [await invokeWithRetries(...)].  ([tool.invoke] is
    taken to hand back a promise, never to throw at the call.) *)
Definition invokeWithRetries (c : Ctx) (pc : Worker) (st : Store)
  : option (Store * Worker) :=
  match pc with
  | AwaitInvoke idx attempt =>
      match invoke (env c) idx attempt with
      | Fulfilled result => Some (st, AwaitRetries idx (Fulfilled result))
      | Rejected err =>
          if negb (isTooMany err) || (attempt =? maxAttempts)%nat
          then Some (st, AwaitRetries idx (Rejected err))
          else
            let delay := retry_delay attempt (entropy (env c) idx attempt) in
            Some (setTimeout idx attempt delay st, AwaitDelay idx attempt)
      end
  | AwaitDelay idx attempt =>
      let attempt := attempt + 1 in
      if (attempt <=? maxAttempts)%nat
      then Some (log_invoke idx attempt st, AwaitInvoke idx attempt)
      else Some (st, AwaitRetries idx (Fulfilled JUndefined))
  | _ => None
  end.
Arguments invokeWithRetries _ !_ _ /.

(** [worker], resumed where it is suspended and run to the end of the loop
    body or to its next [await].  ([saveContext] is taken to append and
    return.) *)
Definition worker (c : Ctx) (w : nat) (pc : Worker) (st : Store) : option (Store * Worker) :=
  match pc with
  | LoopHead => Some (loop_body c w st)
  | AwaitInvoke _ _ | AwaitDelay _ _ => invokeWithRetries c pc st
  | AwaitRetries idx o =>
      toolCall ← calls st !! idx;
      match o with
      | Fulfilled result =>
          let st :=
            saveContext {| saved_tool := tool toolCall; saved_args := args toolCall;
                           saved_result := result; saved_error := JUndefined;
                           saved_queryId := queryId c |} st in
          let st := write_status idx completed st in
          let '(st, thrown) := emit c (ToolCallUpdate (taskId c) idx completed) st in
          match thrown with
          | Some error => Some (catch_block c idx toolCall error st)
          | None => Some (st, LoopHead)
          end
      | Rejected err => Some (catch_block c idx toolCall err st)
      end
  | Returned | Threw _ _ => None
  end.

(** [while (true)]: a worker at the top of the loop goes on without
    yielding. *)
Fixpoint run_loop (c : Ctx) (gas : nat) (w : nat) (r : Store * Worker) : Store * Worker :=
  match r with
  | (st, LoopHead) =>
      match gas with
      | 0 => r
      | S gas' => run_loop c gas' w (loop_body c w st)
      end
  | _ => r
  end.

(** One turn of the event loop: worker [w] is resumed and runs until it
    awaits again, returns or throws. *)
Definition step (c : Ctx) (w : nat) (p : Pool) : option Pool :=
  pc ← workers p !! w;
  r ← worker c w pc (store p);
  let '(st, pc') := run_loop c (S (length (calls (store p)))) w r in
  Some {| store := st;
          workers := <[w := pc']> (workers p);
          rejection :=
            match rejection p, pc' with
            | None, Threw _ e => Some e
            | old, _ => old
            end |}.

(** The turns of a schedule, in order; a turn given to a worker that has
    finished changes nothing. *)
Definition exec (c : Ctx) (sched : list nat) (p : Pool) : Pool :=
  foldl (λ p w, default p (step c w p)) p sched.

(** ** Tool execution: [executeTools] *)

(** The length of
    [Array.from({ length: Math.max(1, Math.min(maxConcurrent, task.toolCalls.length)) }, ...)]
    with [maxConcurrent = this.maxConcurrentToolCalls ?? 3]. *)
Definition pool_size (ex : ToolExecutor) (n : nat) : nat :=
  let maxConcurrent := default (Finite 3%Q) (maxConcurrentToolCalls ex) in
  ToLength (Math_max (Finite 1%Q) (Math_min maxConcurrent (of_length n))).

(** The state [executeTools] sets up, with [C] workers not yet started. *)
Definition fresh (toolCalls : list ToolCallStatus) (C : nat) : Pool :=
  {| store := {| nextIndex := 0; allSucceeded := true; calls := toolCalls;
                 saved := []; events := []; invocations := []; timers := [];
                 claims := [] |};
     workers := replicate C LoopHead;
     rejection := None |}.

(** [Array.from({ length: C }, () => worker())]: the workers are started one
    after the other, each running up to its first [await]. *)
Definition launch (c : Ctx) (toolCalls : list ToolCallStatus) (C : nat) : Pool :=
  exec c (seq 0 C) (fresh toolCalls C).

(** [await Promise.all(workers); return allSucceeded]. *)
Definition outcome (p : Pool) : Promise bool :=
  match rejection p with
  | Some e => Settled (Rejected e)
  | None =>
      if forallb (λ pc, match pc with Returned => true | _ => false end) (workers p)
      then Settled (Fulfilled (allSucceeded (store p)))
      else Pending
  end.

(** [executeTools] observed after the turns of [sched]: the state of its
    promise and the shared state. *)
Definition executeTools (ex : ToolExecutor) (e : Env) (task : Task) (qid : string)
    (cbs : option ToolExecutorCallbacks) (sched : list nat) : Promise bool * Pool :=
  match toolCalls task with
  | None => (Settled (Fulfilled true), fresh [] 0)
  | Some tcs =>
      let c := {| this := ex; taskId := task_id task; queryId := qid;
                  callbacks := cbs; env := e |} in
      let p := exec c sched (launch c tcs (pool_size ex (length tcs))) in
      (outcome p, p)
  end.

(** ** Vocabulary of the properties *)

Close Scope string_scope.

Inductive Kind := KUpdate (s : Status) | KError.

Global Instance Kind_eq_dec : EqDecision Kind.
Proof. solve_decision. Defined.

Definition event_index (ev : Event) : nat :=
  match ev with
  | ToolCallUpdate _ i _ => i
  | ToolCallError _ i _ _ _ => i
  end.

Definition event_task (ev : Event) : string :=
  match ev with
  | ToolCallUpdate tid _ _ => tid
  | ToolCallError tid _ _ _ _ => tid
  end.

Definition event_kind (ev : Event) : Kind :=
  match ev with
  | ToolCallUpdate _ _ s => KUpdate s
  | ToolCallError _ _ _ _ _ => KError
  end.

(** What the observers were told about call [i], in order. *)
Definition trace_of (i : nat) (evs : list Event) : list Kind :=
  event_kind <$> filter (λ ev, event_index ev = i) evs.

(** The attempts at which the capability of call [i] was invoked, in order. *)
Definition attempts_of (i : nat) (invs : list (nat * nat)) : list nat :=
  snd <$> filter (λ x, x.1 = i) invs.

(** The status an observer last heard of, [pending] before it heard any. *)
Definition shown (k : list Kind) : Status :=
  foldl (λ s kd, match kd with KUpdate s' => s' | KError => s end) pending k.

Definition reported (i : nat) (evs : list Event) : Status := shown (trace_of i evs).

(** The calls that are running, as the observers see it. *)
Definition running_now (p : Pool) : list nat :=
  filter (λ i, reported i (events (store p)) = running)
         (seq 0 (length (calls (store p)))).

(** The entries whose status field is [running]. *)
Definition marked_running (p : Pool) : list ToolCallStatus :=
  filter (λ tc, status tc = running) (calls (store p)).

Definition key (tc : ToolCallStatus) : JsValue * JsValue := (tool tc, args tc).

Definition status_at (st : Store) (i : nat) : option Status :=
  status <$> calls st !! i.

(** The call a worker is busy with. *)
Definition awaits (pc : Worker) : option nat :=
  match pc with
  | AwaitInvoke i _ | AwaitDelay i _ | AwaitRetries i _ => Some i
  | _ => None
  end.

Definition holds (pc : Worker) : option nat :=
  match pc with
  | Threw i _ => Some i
  | _ => awaits pc
  end.

Definition finished (pc : Worker) : bool :=
  match pc with
  | Returned | Threw _ _ => true
  | _ => false
  end.

(** Observers that never throw, and the values an observer can throw. *)
Definition quiet (cbs : option ToolExecutorCallbacks) : Prop :=
  ∀ seen ev, observe cbs seen ev = None.

Definition thrown_by_observer (cbs : option ToolExecutorCallbacks) (e : JsValue) : Prop :=
  ∃ seen ev, observe cbs seen ev = Some e.

(** The capability of call [i] is registered, or is not. *)
Definition found (c : Ctx) (calls0 : list ToolCallStatus) (i : nat) : Prop :=
  ∃ tc, calls0 !! i = Some tc ∧ is_Some (toolMap_get (this c) (tool tc)).

Definition missing (c : Ctx) (calls0 : list ToolCallStatus) (i : nat) : Prop :=
  ∃ tc, calls0 !! i = Some tc ∧ toolMap_get (this c) (tool tc) = None.

(** Attempt [a] of call [i] fails with a throttle-signature error. *)
Definition throttled (c : Ctx) (i a : nat) : Prop :=
  ∃ err, invoke (env c) i a = Rejected err ∧ isTooMany err = true.

(** The retry loop of call [i] has made exactly the attempts [1..a], each
    but the last one throttled. *)
Definition retried (c : Ctx) (calls0 : list ToolCallStatus) (st : Store) (i a : nat) : Prop :=
  found c calls0 i ∧ 1 ≤ a ≤ maxAttempts ∧
  attempts_of i (invocations st) = seq 1 a ∧
  ∀ a', 1 ≤ a' < a → throttled c i a'.

(** The retry loop ends at attempt [a] with [o]: a result, or an error that
    is not retried. *)
Definition ends_with (c : Ctx) (i a : nat) (o : Outcome JsValue) : Prop :=
  invoke (env c) i a = o ∧
  match o with
  | Fulfilled _ => True
  | Rejected err => isTooMany err = false ∨ a = maxAttempts
  end.

(** Call [i] is claimed and nothing else has happened to it. *)
Definition pristine (calls0 : list ToolCallStatus) (st : Store) (i : nat) : Prop :=
  trace_of i (events st) = [KUpdate running] ∧ calls st !! i = calls0 !! i.

Definition failure_cause (c : Ctx) (calls0 : list ToolCallStatus) (st : Store) (i : nat) : Prop :=
  (missing c calls0 i ∧ attempts_of i (invocations st) = []) ∨
  (∃ a err, retried c calls0 st i a ∧ ends_with c i a (Rejected err)).

(** What holds of a worker at each of its points. *)
Definition worker_inv (c : Ctx) (calls0 : list ToolCallStatus) (st : Store)
    (w : nat) (pc : Worker) : Prop :=
  match pc with
  | LoopHead => True
  | AwaitInvoke i a =>
      (w, i) ∈ claims st ∧ pristine calls0 st i ∧ retried c calls0 st i a
  | AwaitDelay i a =>
      (w, i) ∈ claims st ∧ pristine calls0 st i ∧ retried c calls0 st i a ∧
      throttled c i a ∧ a < maxAttempts ∧
      (i, a, retry_delay a (entropy (env c) i a)) ∈ timers st
  | AwaitRetries i o =>
      (w, i) ∈ claims st ∧ pristine calls0 st i ∧
      ∃ a, retried c calls0 st i a ∧ ends_with c i a o
  | Returned => ∃ i, length calls0 ≤ i ∧ (w, i) ∈ claims st
  | Threw i e =>
      (w, i) ∈ claims st ∧ i < length calls0 ∧ thrown_by_observer (callbacks c) e
  end.

(** The observer threw when it was told that call [i] has completed. *)
Definition overruled (c : Ctx) (i : nat) : Prop :=
  ∃ seen e, observe (callbacks c) seen (ToolCallUpdate (taskId c) i completed) = Some e.

(** The traces a call can be left with by a worker an observer killed. *)
Definition dead_trace (k : list Kind) : Prop :=
  k = [KUpdate running] ∨
  k = [KUpdate running; KUpdate failed] ∨
  k = [KUpdate running; KUpdate failed; KError] ∨
  k = [KUpdate running; KUpdate completed; KUpdate failed] ∨
  k = [KUpdate running; KUpdate completed; KUpdate failed; KError].

(** What holds of a call: not yet claimed, in the hands of a worker,
    completed, failed, failed because the [completed] observer threw, or
    abandoned by a worker an observer killed. *)
Inductive call_ok (c : Ctx) (calls0 : list ToolCallStatus) (st : Store)
    (ws : list Worker) (i : nat) : Prop :=
| call_unclaimed :
    nextIndex st ≤ i →
    trace_of i (events st) = [] →
    calls st !! i = calls0 !! i →
    attempts_of i (invocations st) = [] →
    call_ok c calls0 st ws i
| call_held w pc :
    ws !! w = Some pc → awaits pc = Some i →
    call_ok c calls0 st ws i
| call_completed a r :
    i < nextIndex st →
    trace_of i (events st) = [KUpdate running; KUpdate completed] →
    status_at st i = Some completed →
    retried c calls0 st i a → invoke (env c) i a = Fulfilled r →
    call_ok c calls0 st ws i
| call_failed :
    i < nextIndex st →
    trace_of i (events st) = [KUpdate running; KUpdate failed; KError] →
    status_at st i = Some failed → allSucceeded st = false →
    failure_cause c calls0 st i →
    call_ok c calls0 st ws i
| call_overruled a r :
    i < nextIndex st →
    trace_of i (events st) =
      [KUpdate running; KUpdate completed; KUpdate failed; KError] →
    status_at st i = Some failed → allSucceeded st = false →
    overruled c i →
    retried c calls0 st i a → invoke (env c) i a = Fulfilled r →
    call_ok c calls0 st ws i
| call_dead w e :
    ws !! w = Some (Threw i e) →
    dead_trace (trace_of i (events st)) →
    (KUpdate failed ∈ trace_of i (events st) →
     status_at st i = Some failed ∧ allSucceeded st = false) →
    (KUpdate failed ∉ trace_of i (events st) → calls st !! i = calls0 !! i) →
    call_ok c calls0 st ws i.

(** What holds of the logs alone; [n] is the number of workers. *)
Record Globals (c : Ctx) (calls0 : list ToolCallStatus) (st : Store) (n : nat)
  : Prop := {
  g_claims : (claims st).*2 = seq 0 (nextIndex st);
  g_claimants : ∀ w i, (w, i) ∈ claims st → w < n;
  g_keys : key <$> calls st = key <$> calls0;
  g_invocations : NoDup (invocations st);
  g_attempt : ∀ i a, (i, a) ∈ invocations st →
    found c calls0 i ∧ 1 ≤ a ≤ maxAttempts ∧
    (2 ≤ a → throttled c i (a - 1) ∧
             (i, a - 1, retry_delay (a - 1) (entropy (env c) i (a - 1))) ∈ timers st);
  g_timers : ∀ i a d, (i, a, d) ∈ timers st →
    d = retry_delay a (entropy (env c) i a) ∧ throttled c i a ∧
    1 ≤ a < maxAttempts ∧ (i, a) ∈ invocations st;
  g_flag : allSucceeded st = false →
    ∃ ev, ev ∈ events st ∧ event_kind ev = KUpdate failed ∧
          event_index ev < length calls0;
  g_task : ∀ ev, ev ∈ events st → event_task ev = taskId c;
}.

(** The invariant of the shared state and the workers. *)
Record Inv (c : Ctx) (calls0 : list ToolCallStatus) (st : Store) (ws : list Worker)
  : Prop := {
  inv_globals : Globals c calls0 st (length ws);
  inv_worker : ∀ w pc, ws !! w = Some pc → worker_inv c calls0 st w pc;
  inv_call : ∀ i, i < length calls0 → call_ok c calls0 st ws i;
  inv_exit : ∀ w i, (w, i) ∈ claims st → length calls0 ≤ i → ws !! w = Some Returned;
}.

(** The invariant of a pool adds that [Promise.all] has rejected exactly
    when a worker has, with a value an observer threw. *)
Definition PoolInv (c : Ctx) (calls0 : list ToolCallStatus) (p : Pool) : Prop :=
  Inv c calls0 (store p) (workers p) ∧
  match rejection p with
  | None => ∀ w i e, workers p !! w ≠ Some (Threw i e)
  | Some e => thrown_by_observer (callbacks c) e
  end.

(** What one schedule step changes is confined to one call [i]. *)
Record frame (i : nat) (st st' : Store) : Prop := {
  fr_next : nextIndex st ≤ nextIndex st';
  fr_unclaimed : ∀ j, j ≠ i → nextIndex st ≤ j → nextIndex st' ≤ j;
  fr_claims : ∀ x, x ∈ claims st → x ∈ claims st';
  fr_claimed : ∀ x, x ∈ claims st' → x ∈ claims st ∨ x.2 = i;
  fr_timers : ∀ x, x ∈ timers st → x ∈ timers st';
  fr_trace : ∀ j, j ≠ i → trace_of j (events st') = trace_of j (events st);
  fr_attempts : ∀ j, j ≠ i →
    attempts_of j (invocations st') = attempts_of j (invocations st);
  fr_calls : ∀ j, j ≠ i → calls st' !! j = calls st !! j;
  fr_flag : allSucceeded st = false → allSucceeded st' = false;
}.

(** The state [st1] in the middle of a turn of worker [w], which started
    at [pc] in [st] and works on call [i]. *)
Record Mid (c : Ctx) (calls0 : list ToolCallStatus) (st : Store) (ws : list Worker)
    (w : nat) (pc : Worker) (i : nat) (st1 : Store) : Prop := {
  mid_inv : Inv c calls0 st ws;
  mid_worker : ws !! w = Some pc;
  mid_live : finished pc = false;
  mid_holds : ∀ j, holds pc = Some j → j = i;
  mid_unique : ∀ w' pc0, w' ≠ w → ws !! w' = Some pc0 → holds pc0 ≠ Some i;
  mid_frame : frame i st st1;
  mid_globals : Globals c calls0 st1 (length ws);
}.

(** The state machine of call [i]: pending, running in the hands of one
    worker, completed, or failed; told to the observers in this order. *)
Definition lifecycle (c : Ctx) (calls0 : list ToolCallStatus) (p : Pool) (i : nat)
  : Prop :=
  (trace_of i (events (store p)) = [] ∧
   calls (store p) !! i = calls0 !! i ∧ nextIndex (store p) ≤ i) ∨
  (trace_of i (events (store p)) = [KUpdate running] ∧
   calls (store p) !! i = calls0 !! i ∧
   ∃ w pc, workers p !! w = Some pc ∧ awaits pc = Some i ∧
           ∀ w', (∃ pc', workers p !! w' = Some pc' ∧ holds pc' = Some i) → w' = w) ∨
  (trace_of i (events (store p)) = [KUpdate running; KUpdate completed] ∧
   status_at (store p) i = Some completed ∧
   ∃ a r, retried c calls0 (store p) i a ∧ invoke (env c) i a = Fulfilled r) ∨
  (trace_of i (events (store p)) = [KUpdate running; KUpdate failed; KError] ∧
   status_at (store p) i = Some failed ∧ failure_cause c calls0 (store p) i).

(** What only grows: the counter and the event log; and the flag, once
    cleared, stays cleared. *)
Definition grows (st st' : Store) : Prop :=
  nextIndex st ≤ nextIndex st' ∧ events st `prefix_of` events st' ∧
  (allSucceeded st = false → allSucceeded st' = false).

(** The work left: a worker's remaining steps within its call, and the
    calls not yet claimed. *)
Definition weight (pc : Worker) : nat :=
  match pc with
  | LoopHead => 1
  | AwaitInvoke _ a => 2 * (maxAttempts - a) + 4
  | AwaitDelay _ a => 2 * (maxAttempts - a) + 3
  | AwaitRetries _ _ => 2
  | Returned | Threw _ _ => 0
  end.

Definition measure (st : Store) (ws : list Worker) : nat :=
  10 * (length (calls st) - nextIndex st) + sum_list (weight <$> ws).

(** ** Vocabulary of the properties of the logs *)

(** The indices the observers were told [s] about, in the order told. *)
Definition told (s : Status) (evs : list Event) : list nat :=
  event_index <$> filter (λ ev, event_kind ev = KUpdate s) evs.

(** [error instanceof Error ? error : new Error(String(error))]: what the
    [catch] block hands to [onToolCallError]. *)
Definition as_Error (error : JsValue) : JsValue :=
  if instanceof_Error error then error else JError "Error" (js_String error).

(** Where the error told about call [i] comes from: the capability [n] is
    not registered, an attempt failed for good, or the observer threw when
    it was told that the call has completed. *)
Definition error_cause (c : Ctx) (calls0 : list ToolCallStatus) (i : nat)
    (n e : JsValue) : Prop :=
  (missing c calls0 i ∧
   e = JError "Error" ("Tool not found: " ++ js_String n)%string) ∨
  (found c calls0 i ∧
   ∃ a err, 1 ≤ a ≤ maxAttempts ∧ invoke (env c) i a = Rejected err ∧
            (isTooMany err = false ∨ a = maxAttempts) ∧ e = as_Error err) ∨
  (found c calls0 i ∧
   ∃ seen x,
     observe (callbacks c) seen (ToolCallUpdate (taskId c) i completed) = Some x ∧
     e = as_Error x).

(** What an observer can be told. *)
Definition event_ok (c : Ctx) (calls0 : list ToolCallStatus) (ev : Event) : Prop :=
  event_task ev = taskId c ∧ event_index ev < length calls0 ∧
  match ev with
  | ToolCallUpdate _ i s => s ≠ pending ∧ (s = completed → found c calls0 i)
  | ToolCallError _ i n a e =>
      instanceof_Error e = true ∧
      (∃ tc, calls0 !! i = Some tc ∧ n = tool tc ∧ a = args tc) ∧
      error_cause c calls0 i n e
  end.

(** The entry [saveContext] is given for call [i]: the call's name and
    arguments, the result of one of its attempts, no error, the query. *)
Definition saved_for (c : Ctx) (calls0 : list ToolCallStatus) (s : Saved) (i : nat)
  : Prop :=
  ∃ tc a r, calls0 !! i = Some tc ∧ 1 ≤ a ≤ maxAttempts ∧
            invoke (env c) i a = Fulfilled r ∧
            s = {| saved_tool := tool tc; saved_args := args tc; saved_result := r;
                   saved_error := JUndefined; saved_queryId := queryId c |}.

(** The attempt at which the retry loop of call [i] ends, read off the
    answers of the capability: attempt [a] is followed by another one, as
    long as [more] are allowed, exactly if it fails with a throttle
    signature. *)
Fixpoint last_attempt (e : Env) (i : nat) (more : nat) (a : nat) : nat :=
  match more with
  | 0 => a
  | S more' =>
      match invoke e i a with
      | Fulfilled _ => a
      | Rejected err => if isTooMany err then last_attempt e i more' (S a) else a
      end
  end.

(** The status the answers of the capability determine for call [i]. *)
Definition verdict (c : Ctx) (i : nat) (tc : ToolCallStatus) : Status :=
  match toolMap_get (this c) (tool tc) with
  | None => failed
  | Some _ =>
      match invoke (env c) i (last_attempt (env c) i (maxAttempts - 1) 1) with
      | Fulfilled _ => completed
      | Rejected _ => failed
      end
  end.

(** The turns of a schedule that resume a worker. *)
Fixpoint turns (c : Ctx) (sched : list nat) (p : Pool) : nat :=
  match sched with
  | [] => 0
  | w :: sched' =>
      match step c w p with
      | Some p' => S (turns c sched' p')
      | None => turns c sched' p
      end
  end.

(** The logs of a pool with one worker: the reports come call by call, and
    the worker is busy with the call claimed last. *)
Definition sequential (st : Store) (ws : list Worker) : Prop :=
  length ws = 1 →
  (∀ j k ej ek, j ≤ k → events st !! j = Some ej → events st !! k = Some ek →
                event_index ej ≤ event_index ek) ∧
  Forall (λ ev, event_index ev < nextIndex st) (events st) ∧
  ∀ pc i, ws !! 0 = Some pc → holds pc = Some i → nextIndex st = S i.

(** ** Sample inputs *)

Open Scope string_scope.

Definition demo_tool : Tool :=
  {| name := "get_income_statements";
     description := "Income statements of a company";
     schema := Some [("ticker", Some "The stock ticker symbol"); ("limit", None)] |}.

Definition demo_executor : ToolExecutor := new_ToolExecutor [demo_tool] None.

Definition demo_call (n : string) : ToolCallStatus :=
  {| tool := JStr n; args := JObj [("ticker", JStr "AAPL")]; status := pending |}.

(** Three calls, the last one of a capability that is not registered. *)
Definition demo_calls : list ToolCallStatus :=
  [demo_call "get_income_statements"; demo_call "get_income_statements";
   demo_call "get_news"].

Definition demo_task : Task :=
  {| task_id := "task-1"; task_description := "get income statement";
     toolCalls := Some demo_calls |}.

(** Every invocation succeeds. *)
Definition demo_env : Env :=
  {| invoke := λ _ _, Fulfilled (JStr "ok"); entropy := λ _ _, 0%Z |}.

(** Call 0 is throttled twice and then succeeds, call 1 is throttled every
    time. *)
Definition demo_env_throttled : Env :=
  {| invoke := λ i a,
       match i, a with
       | 0, 3 => Fulfilled (JStr "ok")
       | _, _ => Rejected (JError "Error" "HTTP 429: Too Many Requests")
       end;
     entropy := λ _ _, (2 ^ 53 - 1)%Z |}.

(** Observers that only watch. *)
Definition demo_callbacks : ToolExecutorCallbacks :=
  {| onToolCallUpdate := Some (λ _ _ _ _, None);
     onToolCallError := Some (λ _ _ _ _ _ _, None) |}.

(** An observer that throws when it is told that a call has completed. *)
Definition demo_callbacks_completed_throws : ToolExecutorCallbacks :=
  {| onToolCallUpdate :=
       Some (λ _ _ _ s,
         match s with
         | completed => Some (JError "Error" "render failed")
         | _ => None
         end);
     onToolCallError := None |}.

(** An observer that throws when it is told that a call is running. *)
Definition demo_callbacks_running_throws : ToolExecutorCallbacks :=
  {| onToolCallUpdate :=
       Some (λ _ _ _ s,
         match s with
         | running => Some (JError "Error" "render failed")
         | _ => None
         end);
     onToolCallError := None |}.

(** One call of the registered capability. *)
Definition demo_single : list ToolCallStatus := [demo_call "get_income_statements"].

Definition demo_task_single : Task :=
  {| task_id := "task-1"; task_description := "get income statement";
     toolCalls := Some demo_single |}.

Definition demo_ctx (e : Env) (cbs : option ToolExecutorCallbacks) : Ctx :=
  {| this := demo_executor; taskId := "task-1"; queryId := "query-1";
     callbacks := cbs; env := e |}.

(** A backend that proposes one call of a capability nobody registered. *)
Definition demo_backend (response : JsValue) : Backend :=
  {| callLlm := λ _ _ _ _, Fulfilled response;
     buildToolSelectionPrompt := λ d _ _, d;
     getToolSelectionSystemPrompt := λ d, d |}.

Definition demo_response_ghost : JsValue :=
  JObj [("content", JStr "");
        ("tool_calls", JArr [JObj [("name", JStr "get_weather");
                                   ("args", JObj [("city", JStr "Paris")])]])].

Definition demo_understanding : Understanding :=
  {| entities := [{| type := "ticker"; value := "AAPL" |}] |}.

(** Two calls of the registered capability, one call of a capability
    nobody registered, and five calls. *)
Definition demo_two : list ToolCallStatus :=
  [demo_call "get_income_statements"; demo_call "get_income_statements"].

Definition demo_task_two : Task :=
  {| task_id := "task-1"; task_description := "get income statement";
     toolCalls := Some demo_two |}.

Definition demo_task_missing : Task :=
  {| task_id := "task-1"; task_description := "get the news";
     toolCalls := Some [demo_call "get_news"] |}.

Definition demo_five : list ToolCallStatus :=
  replicate 5 (demo_call "get_income_statements").

Definition demo_task_five : Task :=
  {| task_id := "task-1"; task_description := "get income statement";
     toolCalls := Some demo_five |}.

(** Every invocation fails, with an error that is not retried. *)
Definition demo_env_boom : Env :=
  {| invoke := λ _ _, Rejected (JError "Error" "boom"); entropy := λ _ _, 0%Z |}.

(** An observer that throws when it is told that a call has failed. *)
Definition demo_callbacks_failed_throws : ToolExecutorCallbacks :=
  {| onToolCallUpdate :=
       Some (λ _ _ _ s,
         match s with
         | failed => Some (JError "Error" "render failed")
         | _ => None
         end);
     onToolCallError := None |}.

(** An error observer that throws the error it is given. *)
Definition demo_callbacks_rethrow : ToolExecutorCallbacks :=
  {| onToolCallUpdate := None;
     onToolCallError := Some (λ _ _ _ _ _ error, Some error) |}.

(** Executors configured with a maximum of 1, and with [NaN]. *)
Definition demo_executor_one : ToolExecutor :=
  new_ToolExecutor [demo_tool] (Some (Finite 1%Q)).

Definition demo_executor_NaN : ToolExecutor :=
  new_ToolExecutor [demo_tool] (Some NaN).

(** The runs on which the claims about observers are tried. *)
Definition demo_run_overruled : Promise bool * Pool :=
  executeTools demo_executor demo_env_throttled demo_task_single "query-1"
    (Some demo_callbacks_completed_throws) [0; 0; 0; 0; 0; 0].

Definition demo_pool_overruled : Pool :=
  exec (demo_ctx demo_env (Some demo_callbacks_completed_throws)) [0; 0]
    (launch (demo_ctx demo_env (Some demo_callbacks_completed_throws)) demo_single 1).

Definition demo_run_rejected : Promise bool * Pool :=
  executeTools demo_executor demo_env demo_task_single "query-1"
    (Some demo_callbacks_running_throws) [].

Close Scope string_scope.

(** * Properties *)

(** ** Logs and frames *)

Lemma trace_of_snoc i evs ev :
  trace_of i (evs ++ [ev]) =
  trace_of i evs ++ (if decide (event_index ev = i) then [event_kind ev] else []).
Proof.
  unfold trace_of. rewrite filter_app, fmap_app. f_equal.
  rewrite filter_cons, filter_nil. by case_decide.
Qed.

Lemma trace_of_snoc_eq i evs ev :
  event_index ev = i → trace_of i (evs ++ [ev]) = trace_of i evs ++ [event_kind ev].
Proof. intros. rewrite trace_of_snoc. by rewrite decide_True. Qed.

Lemma trace_of_snoc_ne i evs ev :
  event_index ev ≠ i → trace_of i (evs ++ [ev]) = trace_of i evs.
Proof. intros. rewrite trace_of_snoc. rewrite decide_False by done. apply app_nil_r. Qed.

Lemma attempts_of_snoc i invs j a :
  attempts_of i (invs ++ [(j, a)]) =
  attempts_of i invs ++ (if decide (j = i) then [a] else []).
Proof.
  unfold attempts_of. rewrite filter_app, fmap_app. f_equal.
  rewrite filter_cons, filter_nil. simpl. by case_decide.
Qed.

Lemma attempts_of_snoc_ne i invs j a :
  j ≠ i → attempts_of i (invs ++ [(j, a)]) = attempts_of i invs.
Proof. intros. rewrite attempts_of_snoc. rewrite decide_False by done. apply app_nil_r. Qed.

Lemma attempts_of_snoc_eq i invs a :
  attempts_of i (invs ++ [(i, a)]) = attempts_of i invs ++ [a].
Proof. rewrite attempts_of_snoc. by rewrite decide_True. Qed.

Lemma elem_of_attempts_of i a invs : a ∈ attempts_of i invs ↔ (i, a) ∈ invs.
Proof.
  unfold attempts_of. rewrite list_elem_of_fmap. split.
  - intros ([j b] & -> & Hin). apply list_elem_of_filter in Hin as [Hj Hin].
    simpl in *. by subst.
  - intros Hin. exists (i, a). split; [done|]. by apply list_elem_of_filter.
Qed.

Lemma elem_of_trace_of i k evs :
  k ∈ trace_of i evs ↔ ∃ ev, ev ∈ evs ∧ event_index ev = i ∧ event_kind ev = k.
Proof.
  unfold trace_of. rewrite list_elem_of_fmap. split.
  - intros (ev & -> & Hin). apply list_elem_of_filter in Hin as [? ?]. eauto.
  - intros (ev & Hin & Hi & <-). exists ev. split; [done|]. by apply list_elem_of_filter.
Qed.

Lemma frame_refl i st : frame i st st.
Proof. split; try done. by left. Qed.

Lemma frame_trans i st1 st2 st3 : frame i st1 st2 → frame i st2 st3 → frame i st1 st3.
Proof.
  intros [Hn1 Hu1 Hc1 Hd1 Ht1 Htr1 Ha1 Hl1 Hf1] [Hn2 Hu2 Hc2 Hd2 Ht2 Htr2 Ha2 Hl2 Hf2].
  split; try by eauto.
  - lia.
  - intros x Hx. destruct (Hd2 x Hx) as [?|?]; [by apply Hd1|by right].
  - intros j ?. by rewrite Htr2, Htr1.
  - intros j ?. by rewrite Ha2, Ha1.
  - intros j ?. by rewrite Hl2, Hl1.
Qed.

Ltac store_simpl :=
  unfold emit, claim, clear_flag, write_status, saveContext, add_event, log_invoke,
    setTimeout; simpl.

Lemma frame_claim w st : frame (nextIndex st) st (claim w (nextIndex st) st).
Proof.
  split; store_simpl; try done; try lia.
  - intros. apply elem_of_app. by left.
  - intros x [?|Hx%list_elem_of_singleton]%elem_of_app; [by left|subst; by right].
Qed.

Lemma frame_clear_flag i st : frame i st (clear_flag st).
Proof. split; try done. by left. Qed.

Lemma frame_write_status i s st : frame i st (write_status i s st).
Proof.
  split; store_simpl; try done; [by left|].
  intros j Hj. by rewrite list_lookup_alter_ne.
Qed.

Lemma frame_saveContext i e st : frame i st (saveContext e st).
Proof. split; try done. by left. Qed.

Lemma frame_add_event ev st : frame (event_index ev) st (add_event ev st).
Proof.
  split; store_simpl; try done; [by left|].
  intros j Hj. by rewrite trace_of_snoc_ne.
Qed.

Lemma frame_log_invoke i a st : frame i st (log_invoke i a st).
Proof.
  split; store_simpl; try done; [by left|].
  intros j Hj. by rewrite attempts_of_snoc_ne.
Qed.

Lemma frame_setTimeout i j a d st : frame i st (setTimeout j a d st).
Proof.
  split; store_simpl; try done; [by left|].
  intros. apply elem_of_app. by left.
Qed.

(** ** What a frame preserves *)

Section Preservation.
Context (c : Ctx) (calls0 : list ToolCallStatus).

Lemma retried_frame i j a st st' :
  frame i st st' → j ≠ i → retried c calls0 st j a → retried c calls0 st' j a.
Proof.
  intros Hf Hj. unfold retried. by rewrite (fr_attempts _ _ _ Hf).
Qed.

Lemma pristine_frame i j st st' :
  frame i st st' → j ≠ i → pristine calls0 st j → pristine calls0 st' j.
Proof.
  intros Hf Hj [Ht Hc]. split.
  - by rewrite (fr_trace _ _ _ Hf).
  - by rewrite (fr_calls _ _ _ Hf).
Qed.

Lemma worker_inv_frame i st st' w pc :
  frame i st st' → holds pc ≠ Some i →
  worker_inv c calls0 st w pc → worker_inv c calls0 st' w pc.
Proof.
  intros Hf Hh. destruct pc as [|j a|j a|j o| |j e]; simpl in *; try done.
  - intros (Hcl & Hp & Hr). split_and!.
    + by apply (fr_claims _ _ _ Hf).
    + eapply pristine_frame; eauto; congruence.
    + eapply retried_frame; eauto; congruence.
  - intros (Hcl & Hp & Hr & Ht & Ha & Htm). split_and!; try done.
    + by apply (fr_claims _ _ _ Hf).
    + eapply pristine_frame; eauto; congruence.
    + eapply retried_frame; eauto; congruence.
    + by apply (fr_timers _ _ _ Hf).
  - intros (Hcl & Hp & a & Hr & He). split_and!.
    + by apply (fr_claims _ _ _ Hf).
    + eapply pristine_frame; eauto; congruence.
    + exists a. split; [|done]. eapply retried_frame; eauto; congruence.
  - intros (j & Hj & Hcl). exists j. split; [done|]. by apply (fr_claims _ _ _ Hf).
  - intros (Hcl & Hj & He). split_and!; try done. by apply (fr_claims _ _ _ Hf).
Qed.

Lemma call_ok_frame i j st st' ws ws' :
  frame i st st' → j ≠ i →
  (∀ w pc, ws !! w = Some pc → holds pc = Some j → ws' !! w = Some pc) →
  call_ok c calls0 st ws j → call_ok c calls0 st' ws' j.
Proof.
  intros Hf Hj Hws Hok.
  pose proof (fr_trace _ _ _ Hf j Hj) as Ht.
  pose proof (fr_attempts _ _ _ Hf j Hj) as Ha.
  pose proof (fr_calls _ _ _ Hf j Hj) as Hc.
  assert (status_at st' j = status_at st j) as Hs by (unfold status_at; by rewrite Hc).
  pose proof (fr_next _ _ _ Hf) as Hn'.
  destruct Hok as [Hn Ht0 Hc0 Ha0|w pc Hw Hpc|a r Hn Ht0 Hs0 Hr Hi|Hn Ht0 Hs0 Hfl Hcause
                  |a r Hn Ht0 Hs0 Hfl Hq Hr Hi|w e Hw Hd Hfa Hnf].
  - apply call_unclaimed; try congruence. by apply (fr_unclaimed _ _ _ Hf).
  - eapply call_held; [|done]. apply Hws; [done|].
    destruct pc; simpl in *; congruence.
  - eapply call_completed; try congruence; eauto using retried_frame. lia.
  - apply call_failed; try congruence; [lia|by apply (fr_flag _ _ _ Hf)|].
    destruct Hcause as [[Hm Hat]|(a & err & Hr & He)]; [left|right].
    + split; [done|congruence].
    + exists a, err. eauto using retried_frame.
  - eapply call_overruled; try congruence; eauto using retried_frame; [lia|].
    by apply (fr_flag _ _ _ Hf).
  - eapply call_dead.
    + by apply Hws.
    + by rewrite Ht.
    + rewrite Ht, Hs. intros Hin. destruct (Hfa Hin) as [? ?].
      split; [done|]. by apply (fr_flag _ _ _ Hf).
    + rewrite Ht, Hc. done.
Qed.

(** Two workers never hold the same call. *)
Lemma claims_index_lt st n w i :
  Globals c calls0 st n → (w, i) ∈ claims st → i < nextIndex st.
Proof.
  intros HG Hin.
  assert (i ∈ (claims st).*2) as Hi.
  { apply list_elem_of_fmap. by exists (w, i). }
  rewrite (g_claims _ _ _ _ HG) in Hi. apply elem_of_seq in Hi. lia.
Qed.

Lemma claims_unique st ws w w' i :
  Inv c calls0 st ws → (w, i) ∈ claims st → (w', i) ∈ claims st → w = w'.
Proof.
  intros HI H1 H2.
  assert (NoDup (claims st).*2) as Hnd.
  { rewrite (g_claims _ _ _ _ (inv_globals _ _ _ _ HI)). apply NoDup_seq. }
  pose proof (NoDup_fmap_2_strong snd (claims st)) as _.
  apply list_elem_of_lookup in H1 as [n1 H1], H2 as [n2 H2].
  assert (n1 = n2).
  { eapply NoDup_lookup; [exact Hnd| |].
    - rewrite list_lookup_fmap, H1. done.
    - rewrite list_lookup_fmap, H2. done. }
  subst. congruence.
Qed.

Lemma holds_claimed st ws w pc i :
  Inv c calls0 st ws → ws !! w = Some pc → holds pc = Some i → (w, i) ∈ claims st.
Proof.
  intros HI Hw Hh. pose proof (inv_worker _ _ _ _ HI _ _ Hw) as Hwi.
  destruct pc; simpl in *; simplify_eq; tauto.
Qed.
End Preservation.

(** ** The logs along a turn *)

Section Turn.
Context (c : Ctx) (calls0 : list ToolCallStatus).

Lemma key_alter_status s i (l : list ToolCallStatus) :
  key <$> alter (set_status s) i l = key <$> l.
Proof.
  apply list_eq. intros j. rewrite !list_lookup_fmap.
  destruct (decide (i = j)) as [->|Hne].
  - rewrite list_lookup_alter_eq. by destruct (l !! j).
  - by rewrite list_lookup_alter_ne.
Qed.

Lemma Globals_add_event st n ev :
  event_task ev = taskId c →
  Globals c calls0 st n → Globals c calls0 (add_event ev st) n.
Proof.
  intros Hev [Gc Gw Gk Gn Ga Gt Gf Ge]. split; store_simpl; try done.
  - intros Hfl. destruct (Gf Hfl) as (ev' & ? & ? & ?).
    exists ev'. split_and!; try done. apply elem_of_app. by left.
  - intros ev' [?|Hx%list_elem_of_singleton]%elem_of_app; [by apply Ge|by subst].
Qed.

Lemma Globals_write_status st n i s :
  Globals c calls0 st n → Globals c calls0 (write_status i s st) n.
Proof.
  intros [Gc Gw Gk Gn Ga Gt Gf Ge]. split; store_simpl; try done. by rewrite key_alter_status.
Qed.

Lemma Globals_saveContext st n e :
  Globals c calls0 st n → Globals c calls0 (saveContext e st) n.
Proof. intros [Gc Gw Gk Gn Ga Gt Gf Ge]. by split. Qed.

Lemma Globals_failed st n i :
  i < length calls0 → Globals c calls0 st n →
  Globals c calls0
    (add_event (ToolCallUpdate (taskId c) i failed)
       (write_status i failed (clear_flag st))) n.
Proof.
  intros Hi [Gc Gw Gk Gn Ga Gt Gf Ge]. split; store_simpl; try done.
  - by rewrite key_alter_status.
  - intros _. exists (ToolCallUpdate (taskId c) i failed). split_and!; try done.
    apply elem_of_app. right. by apply list_elem_of_singleton.
  - intros ev' [?|Hx%list_elem_of_singleton]%elem_of_app; [by apply Ge|by subst].
Qed.

Lemma Globals_log_invoke st n i a :
  Globals c calls0 st n →
  a ∉ attempts_of i (invocations st) →
  found c calls0 i → 1 ≤ a ≤ maxAttempts →
  (2 ≤ a → throttled c i (a - 1) ∧
     (i, a - 1, retry_delay (a - 1) (entropy (env c) i (a - 1))) ∈ timers st) →
  Globals c calls0 (log_invoke i a st) n.
Proof.
  intros [Gc Gw Gk Gn Ga Gt Gf Ge] Hnew Hfound Ha Hprev. split; store_simpl; try done.
  - apply NoDup_app. split_and!; [done| |apply NoDup_singleton].
    intros x Hx ->%list_elem_of_singleton. apply Hnew. by apply elem_of_attempts_of.
  - intros j b [Hin|Hin%list_elem_of_singleton]%elem_of_app; [by apply Ga|].
    simplify_eq. done.
  - intros j b d Hin. destruct (Gt _ _ _ Hin) as (? & ? & ? & ?).
    split_and!; try done; try lia. apply elem_of_app. by left.
Qed.

Lemma Globals_setTimeout st n i a :
  Globals c calls0 st n →
  throttled c i a → 1 ≤ a < maxAttempts → (i, a) ∈ invocations st →
  Globals c calls0 (setTimeout i a (retry_delay a (entropy (env c) i a)) st) n.
Proof.
  intros [Gc Gw Gk Gn Ga Gt Gf Ge] Hthr Ha Hin. split; store_simpl; try done.
  - intros j b Hj. destruct (Ga _ _ Hj) as (? & ? & Hp).
    split_and!; try done; try lia. intros Hb. destruct (Hp Hb). split; [done|].
    apply elem_of_app. by left.
  - intros j b d [Hj|Hj%list_elem_of_singleton]%elem_of_app; [by apply Gt|].
    simplify_eq. done.
Qed.

Lemma Mid_start st ws w pc i :
  Inv c calls0 st ws → ws !! w = Some pc → awaits pc = Some i →
  Mid c calls0 st ws w pc i st.
Proof.
  intros HI Hw Hpc. split; [done|done| | | |apply frame_refl|apply HI].
  - by destruct pc.
  - intros j Hj. by destruct pc; simplify_eq/=.
  - intros w' pc0 Hne Hw' Hh. apply Hne. symmetry.
    eapply claims_unique; [exact HI| |].
    + eapply holds_claimed; [exact HI|exact Hw|].
      by destruct pc; simplify_eq/=.
    + eapply holds_claimed; [exact HI|exact Hw'|done].
Qed.

Lemma Mid_claim st ws w :
  Inv c calls0 st ws → ws !! w = Some LoopHead →
  Mid c calls0 st ws w LoopHead (nextIndex st) (claim w (nextIndex st) st).
Proof.
  intros HI Hw. split; [done|done|done|done| |apply frame_claim|].
  - intros w' pc0 Hne Hw' Hh.
    pose proof (holds_claimed _ _ _ _ _ _ _ HI Hw' Hh) as Hcl.
    apply (claims_index_lt _ _ _ _ _ _ (inv_globals _ _ _ _ HI)) in Hcl. lia.
  - destruct (inv_globals _ _ _ _ HI) as [Gc Gw Gk Gn Ga Gt Gf Ge].
    split; store_simpl; try done.
    + rewrite fmap_app, Gc. simpl. by rewrite Nat.add_1_r, seq_S.
    + intros w0 i0 [Hin|Hin%list_elem_of_singleton]%elem_of_app; [by eauto|].
      simplify_eq. by eapply lookup_lt_Some.
Qed.

Lemma Mid_step st ws w pc i st1 st2 :
  Mid c calls0 st ws w pc i st1 → frame i st1 st2 →
  Globals c calls0 st2 (length ws) →
  Mid c calls0 st ws w pc i st2.
Proof.
  intros [HI Hw Hl Hh Hu Hf1 _] Hf HG. split; try done. by eapply frame_trans.
Qed.

(** The end of a turn: what is left to show is what holds of the worker
    and of its call. *)
Lemma Mid_finish st ws w pc i st' pc' :
  Mid c calls0 st ws w pc i st' →
  worker_inv c calls0 st' w pc' →
  (i < length calls0 → call_ok c calls0 st' (<[w := pc']> ws) i) →
  (length calls0 ≤ i → pc' = Returned ∧ ∀ w0, (w0, i) ∈ claims st' → w0 = w) →
  Inv c calls0 st' (<[w := pc']> ws).
Proof.
  intros [HI Hw Hl Hh Hu Hf HG] Hwi Hci Hex. split.
  - by rewrite length_insert.
  - intros w0 pc0 Hw0. destruct (decide (w0 = w)) as [->|Hne].
    + rewrite list_lookup_insert_eq in Hw0 by (by eapply lookup_lt_Some).
      by simplify_eq.
    + rewrite list_lookup_insert_ne in Hw0 by done.
      eapply worker_inv_frame; [exact Hf|by eapply Hu|].
      by apply (inv_worker _ _ _ _ HI).
  - intros j Hj. destruct (decide (j = i)) as [->|Hne]; [by apply Hci|].
    eapply call_ok_frame; [exact Hf|done| |by apply (inv_call _ _ _ _ HI)].
    intros w0 pc0 Hw0 Hh0. destruct (decide (w0 = w)) as [->|Hnw].
    + simplify_eq. by apply Hh in Hh0.
    + by rewrite list_lookup_insert_ne.
  - intros w0 i0 Hin Hi0. destruct (fr_claimed _ _ _ Hf _ Hin) as [Hold|Hnew].
    + pose proof (inv_exit _ _ _ _ HI _ _ Hold Hi0) as Hw0.
      destruct (decide (w0 = w)) as [->|Hne].
      * rewrite Hw in Hw0. by simplify_eq.
      * by rewrite list_lookup_insert_ne.
    + simpl in Hnew. subst i0. destruct (Hex Hi0) as [-> Hw0].
      rewrite (Hw0 _ Hin). apply list_lookup_insert_eq. by eapply lookup_lt_Some.
Qed.
End Turn.

(** ** One turn preserves the invariant *)

Section Turns.
Context (c : Ctx) (calls0 : list ToolCallStatus).

Lemma Globals_length st n : Globals c calls0 st n → length (calls st) = length calls0.
Proof.
  intros HG. rewrite <-(length_fmap key (calls st)), (g_keys _ _ _ _ HG).
  apply length_fmap.
Qed.

Lemma status_at_write st i s :
  i < length (calls st) → status_at (write_status i s st) i = Some s.
Proof.
  intros Hi. unfold status_at, write_status. simpl.
  rewrite list_lookup_alter_eq.
  destruct (lookup_lt_is_Some_2 (calls st) i Hi) as [tc ->]. done.
Qed.

Lemma observe_thrown seen ev e :
  observe (callbacks c) seen ev = Some e → thrown_by_observer (callbacks c) e.
Proof. intros H. by exists seen, ev. Qed.

(** The [catch] block, entered when the call's trace is [k0]: after the
    [running] event alone, or after a [completed] event whose observer
    threw. *)
Lemma catch_block_inv st ws w pc i st1 tc err st' pc' :
  Mid c calls0 st ws w pc i st1 →
  i < length calls0 → (w, i) ∈ claims st1 →
  (trace_of i (events st1) = [KUpdate running] ∧ failure_cause c calls0 st1 i) ∨
  (trace_of i (events st1) = [KUpdate running; KUpdate completed] ∧
   overruled c i ∧
   ∃ a r, retried c calls0 st1 i a ∧ invoke (env c) i a = Fulfilled r) →
  catch_block c i tc err st1 = (st', pc') →
  Inv c calls0 st' (<[w := pc']> ws).
Proof.
  intros HM Hi Hcl Hk Hcb.
  pose proof (mid_worker _ _ _ _ _ _ _ _ HM) as Hw.
  pose proof (lookup_lt_Some _ _ _ Hw) as Hlt.
  pose proof (Globals_length _ _ (mid_globals _ _ _ _ _ _ _ _ HM)) as Hlen.
  set (evF := ToolCallUpdate (taskId c) i failed) in *.
  set (stF := add_event evF (write_status i failed (clear_flag st1))).
  assert (Mid c calls0 st ws w pc i stF) as HMF.
  { eapply Mid_step; [exact HM| |].
    - eapply frame_trans; [apply frame_clear_flag|].
      eapply frame_trans; [apply frame_write_status|]. apply (frame_add_event evF).
    - apply Globals_failed; [done|]. apply HM. }
  assert (status_at stF i = Some failed) as HsF.
  { apply (status_at_write st1 i failed). lia. }
  assert (trace_of i (events stF) = trace_of i (events st1) ++ [KUpdate failed]) as HtF.
  { unfold stF. store_simpl. by rewrite trace_of_snoc_eq. }
  unfold catch_block, emit in Hcb. fold evF in Hcb. fold stF in Hcb.
  destruct (observe (callbacks c) (events (write_status i failed (clear_flag st1))) evF)
    as [e|] eqn:HoF.
  { (* the [failed] observer threw *)
    injection Hcb as <- <-. eapply Mid_finish; [exact HMF| |intros _|intros; lia].
    - simpl. eauto using observe_thrown.
    - eapply call_dead.
      + by apply list_lookup_insert_eq.
      + rewrite HtF. unfold dead_trace.
        destruct Hk as [[-> _]|[-> _]]; simpl; tauto.
      + done.
      + intros Hn. exfalso. apply Hn. rewrite HtF.
        apply elem_of_app. right. by apply list_elem_of_singleton. }
  match type of Hcb with
  | context [add_event ?ev stF] => set (evE := ev) in *
  end.
  set (stE := add_event evE stF) in *.
  assert (Mid c calls0 st ws w pc i stE) as HME.
  { eapply Mid_step; [exact HMF|apply (frame_add_event evE)|].
    apply Globals_add_event; [done|]. apply HMF. }
  assert (status_at stE i = Some failed) as HsE by done.
  assert (trace_of i (events stE) =
          trace_of i (events st1) ++ [KUpdate failed; KError]) as HtE.
  { unfold stE, stF. store_simpl. rewrite !trace_of_snoc_eq by done.
    by rewrite <-app_assoc. }
  destruct (observe (callbacks c) (events stF) evE) as [e|] eqn:HoE.
  { (* the error observer threw *)
    injection Hcb as <- <-. eapply Mid_finish; [exact HME| |intros _|intros; lia].
    - simpl. eauto using observe_thrown.
    - eapply call_dead.
      + by apply list_lookup_insert_eq.
      + rewrite HtE. unfold dead_trace.
        destruct Hk as [[-> _]|[-> _]]; simpl; tauto.
      + done.
      + intros Hn. exfalso. apply Hn. rewrite HtE.
        apply elem_of_app. right. apply list_elem_of_here. }
  injection Hcb as <- <-. eapply Mid_finish; [exact HME|done|intros _|intros; lia].
  assert (i < nextIndex stE) as Hnx.
  { eapply claims_index_lt; [apply HME|]. exact Hcl. }
  destruct Hk as [[Hk Hcause]|(Hk & Hq & a & r & Hr & Hinv)].
  - apply call_failed; try done. by rewrite HtE, Hk.
  - eapply call_overruled; try done. by rewrite HtE, Hk.
Qed.

(** A claimed index that is not in anybody's hands has never been
    touched. *)
Lemma unclaimed_untouched st ws i :
  Inv c calls0 st ws → nextIndex st ≤ i → i < length calls0 →
  trace_of i (events st) = [] ∧ calls st !! i = calls0 !! i ∧
  attempts_of i (invocations st) = [].
Proof.
  intros HI Hn Hi.
  destruct (inv_call _ _ _ _ HI i Hi)
    as [?|w pc Hw Hpc|a r ?|?|a r ?|w e Hw]; try done; try lia.
  - assert (holds pc = Some i) as Hh by (by destruct pc; simplify_eq/=).
    pose proof (holds_claimed _ _ _ _ _ _ _ HI Hw Hh) as Hcl.
    apply (claims_index_lt _ _ _ _ _ _ (inv_globals _ _ _ _ HI)) in Hcl. lia.
  - pose proof (holds_claimed _ _ _ _ _ (Threw i e) _ HI Hw eq_refl) as Hcl.
    apply (claims_index_lt _ _ _ _ _ _ (inv_globals _ _ _ _ HI)) in Hcl. lia.
Qed.

Lemma loop_body_inv st ws w st' pc' :
  Inv c calls0 st ws → ws !! w = Some LoopHead →
  loop_body c w st = (st', pc') →
  Inv c calls0 st' (<[w := pc']> ws).
Proof.
  intros HI Hw Hit.
  pose proof (Mid_claim _ _ _ _ _ HI Hw) as HM1.
  pose proof (Globals_length _ _ (inv_globals _ _ _ _ HI)) as Hlen.
  set (i := nextIndex st) in *. set (st1 := claim w i st) in *.
  assert ((w, i) ∈ claims st1) as Hcl.
  { unfold st1. store_simpl. apply elem_of_app. right. by apply list_elem_of_singleton. }
  unfold loop_body in Hit. fold i in Hit. fold st1 in Hit.
  change (calls st1) with (calls st) in Hit.
  destruct (calls st !! i) as [tc|] eqn:Htc.
  2:{ (* the counter has passed the end of the list *)
    injection Hit as <- <-. apply lookup_ge_None in Htc.
    eapply Mid_finish; [exact HM1| |intros; lia|intros _].
    - exists i. split; [lia|done].
    - split; [done|]. unfold st1. store_simpl.
      intros w0 [Hin|Hin%list_elem_of_singleton]%elem_of_app; [|by simplify_eq].
      apply (claims_index_lt _ _ _ _ _ _ (inv_globals _ _ _ _ HI)) in Hin.
      unfold i in Hin. lia. }
  assert (i < length calls0) as Hi.
  { apply lookup_lt_Some in Htc. lia. }
  destruct (unclaimed_untouched st ws i HI (Nat.le_refl _) Hi) as (Ht0 & Hc0 & Ha0).
  set (evR := ToolCallUpdate (taskId c) i running) in *.
  set (st2 := add_event evR st1) in *.
  assert (Mid c calls0 st ws w LoopHead i st2) as HM2.
  { eapply Mid_step; [exact HM1|apply (frame_add_event evR)|].
    apply Globals_add_event; [done|]. apply HM1. }
  assert (trace_of i (events st2) = [KUpdate running]) as Ht2.
  { unfold st2, st1. store_simpl. rewrite trace_of_snoc_eq by done. by rewrite Ht0. }
  unfold emit in Hit. fold st2 in Hit.
  destruct (observe (callbacks c) (events st1) evR) as [e|] eqn:HoR.
  { (* the [running] observer threw *)
    injection Hit as <- <-. eapply Mid_finish; [exact HM2| |intros _|intros; lia].
    - simpl. eauto using observe_thrown.
    - eapply call_dead.
      + by apply list_lookup_insert_eq, lookup_lt_Some with LoopHead.
      + rewrite Ht2. by left.
      + rewrite Ht2. intros Hin. by apply list_elem_of_singleton in Hin.
      + done. }
  destruct (toolMap_get (this c) (tool tc)) as [t|] eqn:Hget.
  - (* the capability is registered: first attempt *)
    injection Hit as <- <-.
    assert (found c calls0 i) as Hfound.
    { exists tc. split; [congruence|]. rewrite Hget. by eexists. }
    assert (Mid c calls0 st ws w LoopHead i (log_invoke i 1 st2)) as HM3.
    { eapply Mid_step; [exact HM2|apply frame_log_invoke|].
      apply Globals_log_invoke; [apply HM2| |done|unfold maxAttempts; lia|lia].
      unfold st2, st1. store_simpl. rewrite Ha0. apply not_elem_of_nil. }
    assert (worker_inv c calls0 (log_invoke i 1 st2) w (AwaitInvoke i 1)) as Hwi.
    { simpl. split_and!; try done.
      split_and!; try done; [unfold maxAttempts; lia| |intros; lia].
      unfold st2, st1. store_simpl. rewrite attempts_of_snoc_eq, Ha0. done. }
    eapply Mid_finish; [exact HM3|exact Hwi|intros _|intros; lia].
    eapply call_held; [by apply list_lookup_insert_eq, lookup_lt_Some with LoopHead|done].
  - (* the capability is missing *)
    eapply catch_block_inv; [exact HM2|done|done| |exact Hit].
    left. split; [done|]. left. split.
    + exists tc. split; [congruence|done].
    + unfold st2, st1. by store_simpl.
Qed.

Lemma invoke_inv st ws w i a st' pc' :
  Inv c calls0 st ws → ws !! w = Some (AwaitInvoke i a) →
  worker c w (AwaitInvoke i a) st = Some (st', pc') →
  Inv c calls0 st' (<[w := pc']> ws).
Proof.
  intros HI Hw Hm.
  pose proof (Mid_start _ _ _ _ _ _ _ HI Hw eq_refl) as HM.
  destruct (inv_worker _ _ _ _ HI _ _ Hw) as (Hcl & Hp & Hr).
  pose proof (lookup_lt_Some _ _ _ Hw) as Hlt.
  assert (i < length calls0) as Hi.
  { destruct Hr as ((tc & Htc & _) & _). by apply lookup_lt_Some in Htc. }
  simpl in Hm. destruct (invoke (env c) i a) as [r|err] eqn:Hinv.
  { injection Hm as <- <-. eapply Mid_finish; [exact HM| |intros _|intros; lia].
    - simpl. split_and!; try done. exists a. by split.
    - eapply call_held; [by apply list_lookup_insert_eq|done]. }
  destruct (negb (isTooMany err) || (a =? maxAttempts)%nat) eqn:Hstop.
  { injection Hm as <- <-. eapply Mid_finish; [exact HM| |intros _|intros; lia].
    - simpl. split_and!; try done. exists a. split; [done|]. split; [done|].
      apply orb_true_iff in Hstop as [Hs|Hs].
      + left. by apply negb_true_iff.
      + right. by apply Nat.eqb_eq.
    - eapply call_held; [by apply list_lookup_insert_eq|done]. }
  apply orb_false_iff in Hstop as [Htm Hne].
  apply negb_false_iff in Htm. apply Nat.eqb_neq in Hne.
  injection Hm as <- <-.
  assert (throttled c i a) as Hthr by (by exists err).
  assert (a < maxAttempts) as Ha by (destruct Hr as (_ & ? & _); lia).
  set (d := retry_delay a (entropy (env c) i a)) in *.
  assert (Mid c calls0 st ws w (AwaitInvoke i a) i (setTimeout i a d st)) as HM'.
  { eapply Mid_step; [exact HM|apply frame_setTimeout|].
    apply Globals_setTimeout; [apply HI|done| |].
    - destruct Hr as (_ & ? & _). lia.
    - apply elem_of_attempts_of. destruct Hr as (_ & ? & -> & _).
      apply elem_of_seq. lia. }
  eapply Mid_finish; [exact HM'| |intros _|intros; lia].
  - simpl. split_and!; try done.
    store_simpl. apply elem_of_app. right. by apply list_elem_of_singleton.
  - eapply call_held; [by apply list_lookup_insert_eq|done].
Qed.

Lemma delay_inv st ws w i a st' pc' :
  Inv c calls0 st ws → ws !! w = Some (AwaitDelay i a) →
  worker c w (AwaitDelay i a) st = Some (st', pc') →
  Inv c calls0 st' (<[w := pc']> ws).
Proof.
  intros HI Hw Hm.
  pose proof (Mid_start _ _ _ _ _ _ _ HI Hw eq_refl) as HM.
  destruct (inv_worker _ _ _ _ HI _ _ Hw) as (Hcl & Hp & Hr & Hthr & Ha & Htm).
  pose proof (lookup_lt_Some _ _ _ Hw) as Hlt.
  destruct Hr as (Hfound & Hrange & Hatt & Hprev).
  assert (i < length calls0) as Hi.
  { destruct Hfound as (tc & Htc & _). by apply lookup_lt_Some in Htc. }
  simpl in Hm. destruct (a + 1 <=? maxAttempts)%nat eqn:Hle.
  2:{ apply Nat.leb_gt in Hle. lia. }
  injection Hm as <- <-.
  assert (Mid c calls0 st ws w (AwaitDelay i a) i (log_invoke i (a + 1) st)) as HM'.
  { eapply Mid_step; [exact HM|apply frame_log_invoke|].
    apply Globals_log_invoke; [apply HI| |done|lia|].
    - rewrite Hatt. rewrite elem_of_seq. lia.
    - intros _. replace (a + 1 - 1) with a by lia. done. }
  eapply Mid_finish; [exact HM'| |intros _|intros; lia].
  - simpl. split_and!; try done. split_and!; try done; try lia.
    + store_simpl. rewrite attempts_of_snoc_eq, Hatt.
      replace (a + 1) with (S a) by lia. rewrite seq_S. done.
    + intros a' Ha'. destruct (decide (a' = a)) as [->|]; [done|].
      apply Hprev. lia.
  - eapply call_held; [by apply list_lookup_insert_eq|done].
Qed.

Lemma retries_inv st ws w i o st' pc' :
  Inv c calls0 st ws → ws !! w = Some (AwaitRetries i o) →
  worker c w (AwaitRetries i o) st = Some (st', pc') →
  Inv c calls0 st' (<[w := pc']> ws).
Proof.
  intros HI Hw Hm.
  pose proof (Mid_start _ _ _ _ _ _ _ HI Hw eq_refl) as HM.
  destruct (inv_worker _ _ _ _ HI _ _ Hw) as (Hcl & [Ht Hc] & a & Hr & [Hinv Hend]).
  pose proof (lookup_lt_Some _ _ _ Hw) as Hlt.
  pose proof (Globals_length _ _ (inv_globals _ _ _ _ HI)) as Hlen.
  assert (i < length calls0) as Hi.
  { destruct Hr as ((tc & Htc & _) & _). by apply lookup_lt_Some in Htc. }
  unfold worker in Hm. destruct (calls st !! i) as [tc|] eqn:Htc; [|done].
  change (Some tc ≫= ?f) with (f tc) in Hm. cbv beta in Hm.
  destruct o as [r|err].
  2:{ (* the capability failed for good *)
    injection Hm as Hm.
    eapply catch_block_inv; [exact HM|done|done| |exact Hm].
    left. split; [done|]. right. exists a, err. by split. }
  match type of Hm with
  | context [saveContext ?e st] => set (entry := e)
  end.
  set (evC := ToolCallUpdate (taskId c) i completed).
  set (stC := add_event evC (write_status i completed (saveContext entry st))).
  assert (Mid c calls0 st ws w (AwaitRetries i (Fulfilled r)) i stC) as HMC.
  { eapply Mid_step; [exact HM| |].
    - eapply frame_trans; [apply frame_saveContext|].
      eapply frame_trans; [apply frame_write_status|]. apply (frame_add_event evC).
    - apply Globals_add_event; [done|].
      apply Globals_write_status, Globals_saveContext. apply HI. }
  assert (status_at stC i = Some completed) as HsC.
  { apply (status_at_write (saveContext entry st) i completed). simpl. lia. }
  assert (trace_of i (events stC) = [KUpdate running; KUpdate completed]) as HtC.
  { unfold stC. store_simpl. rewrite trace_of_snoc_eq by done. by rewrite Ht. }
  unfold emit in Hm. cbv beta iota zeta in Hm. fold entry evC in Hm. fold stC in Hm.
  destruct (observe (callbacks c)
              (events (write_status i completed (saveContext entry st))) evC)
    as [e|] eqn:HoC.
  - (* the [completed] observer threw: the [catch] block takes over *)
    injection Hm as Hm.
    eapply catch_block_inv; [exact HMC|done|done| |exact Hm].
    right. split; [done|]. split; [by eexists _, _|]. by exists a, r.
  - injection Hm as <- <-.
    eapply Mid_finish; [exact HMC|done|intros _|intros; lia].
    eapply call_completed; try done.
    eapply claims_index_lt; [apply HMC|done].
Qed.

Lemma worker_preserves st ws w pc st' pc' :
  Inv c calls0 st ws → ws !! w = Some pc →
  worker c w pc st = Some (st', pc') →
  Inv c calls0 st' (<[w := pc']> ws).
Proof.
  intros HI Hw Hm. destruct pc as [|i a|i a|i o| |i e]; try done.
  - injection Hm as Hm. by eapply loop_body_inv.
  - by eapply invoke_inv.
  - by eapply delay_inv.
  - by eapply retries_inv.
Qed.

Lemma run_loop_inv gas st ws w pc st' pc' :
  Inv c calls0 st ws → ws !! w = Some pc →
  run_loop c gas w (st, pc) = (st', pc') →
  Inv c calls0 st' (<[w := pc']> ws).
Proof.
  revert st ws pc. induction gas as [|gas IH]; intros st ws pc HI Hw Hrun.
  - assert (st' = st ∧ pc' = pc) as [-> ->].
    { by destruct pc; simplify_eq/=. }
    by rewrite list_insert_id.
  - destruct pc; simpl in Hrun;
      try (injection Hrun as <- <-; by rewrite list_insert_id).
    destruct (loop_body c w st) as [st1 pc1] eqn:Hit.
    pose proof (loop_body_inv _ _ _ _ _ HI Hw Hit) as HI1.
    pose proof (lookup_lt_Some _ _ _ Hw) as Hlt.
    specialize (IH st1 (<[w := pc1]> ws) pc1 HI1).
    rewrite list_insert_insert_eq in IH. apply IH; [|done].
    by apply list_lookup_insert_eq.
Qed.

Lemma step_unfold w p p' :
  step c w p = Some p' →
  ∃ pc st1 pc1 st2 pc2,
    workers p !! w = Some pc ∧
    worker c w pc (store p) = Some (st1, pc1) ∧
    run_loop c (S (length (calls (store p)))) w (st1, pc1) = (st2, pc2) ∧
    p' = {| store := st2; workers := <[w := pc2]> (workers p);
            rejection := match rejection p, pc2 with
                         | None, Threw _ e => Some e
                         | old, _ => old
                         end |}.
Proof.
  unfold step. intros Hstep.
  destruct (workers p !! w) as [pc|] eqn:Hw; [|done].
  change (Some pc ≫= ?f) with (f pc) in Hstep. cbv beta in Hstep.
  destruct (worker c w pc (store p)) as [[st1 pc1]|] eqn:Hm; [|done].
  change (Some (st1, pc1) ≫= ?f) with (f (st1, pc1)) in Hstep. cbv beta in Hstep.
  destruct (run_loop c (S (length (calls (store p)))) w (st1, pc1))
    as [st2 pc2] eqn:Hrun.
  injection Hstep as <-. by exists pc, st1, pc1, st2, pc2.
Qed.

Lemma step_inv w p p' :
  PoolInv c calls0 p → step c w p = Some p' → PoolInv c calls0 p'.
Proof.
  intros [HI Hrej] Hstep.
  apply step_unfold in Hstep as (pc & st1 & pc1 & st2 & pc2 & Hw & Hm & Hrun & ->).
  pose proof (lookup_lt_Some _ _ _ Hw) as Hlt.
  pose proof (worker_preserves _ _ _ _ _ _ HI Hw Hm) as HI1.
  assert (Inv c calls0 st2 (<[w := pc2]> (workers p))) as HI2.
  { rewrite <-(list_insert_insert_eq (workers p) w pc2 pc1).
    eapply run_loop_inv; [exact HI1| |exact Hrun]. by apply list_lookup_insert_eq. }
  split; simpl; [done|].
  assert (worker_inv c calls0 st2 w pc2) as Hwi.
  { apply (inv_worker _ _ _ _ HI2). by apply list_lookup_insert_eq. }
  destruct (rejection p) as [e0|] eqn:Hr; [by destruct pc2|].
  destruct pc2 as [|i a|i a|i o| |i e]; try (by apply Hwi);
    intros w0 i0 e0 Hw0;
    (destruct (decide (w0 = w)) as [->|Hne];
     [by rewrite list_lookup_insert_eq in Hw0
     |rewrite list_lookup_insert_ne in Hw0 by done; by eapply Hrej]).
Qed.

Lemma exec_inv sched p :
  PoolInv c calls0 p → PoolInv c calls0 (exec c sched p).
Proof.
  revert p. induction sched as [|w sched IH]; intros p HP; [done|].
  simpl. apply IH. destruct (step c w p) as [p'|] eqn:Hs; [|done].
  by eapply step_inv.
Qed.

Lemma fresh_inv C : PoolInv c calls0 (fresh calls0 C).
Proof.
  split; simpl.
  - split.
    + split; simpl; try done.
      * intros w i Hin. by apply elem_of_nil in Hin.
      * apply NoDup_nil_2.
      * intros i a Hin. by apply elem_of_nil in Hin.
      * intros i a d Hin. by apply elem_of_nil in Hin.
      * intros ev Hin. by apply elem_of_nil in Hin.
    + intros w pc Hw. apply lookup_replicate in Hw as [-> _]. done.
    + intros i Hi. apply call_unclaimed; simpl; try done. lia.
    + intros w i Hin. by apply elem_of_nil in Hin.
  - intros w i e Hw. apply lookup_replicate in Hw as [? _]. done.
Qed.
End Turns.

(** ** Every run ends *)

Section Liveness.
Context (c : Ctx) (calls0 : list ToolCallStatus).

Lemma exec_app s1 s2 p : exec c (s1 ++ s2) p = exec c s2 (exec c s1 p).
Proof. apply foldl_app. Qed.

Lemma catch_block_shape i tc err st st' pc' :
  catch_block c i tc err st = (st', pc') →
  nextIndex st' = nextIndex st ∧ length (calls st') = length (calls st) ∧
  weight pc' ≤ 1.
Proof.
  unfold catch_block, emit. intros H.
  repeat match type of H with
  | context [match ?o with Some _ => _ | None => _ end] => destruct o
  end; injection H as <- <-; store_simpl; rewrite ?length_alter; lia.
Qed.

Lemma loop_body_measure w st st' pc' :
  loop_body c w st = (st', pc') →
  length (calls st') = length (calls st) ∧
  10 * (length (calls st) - nextIndex st') + weight pc'
  < 10 * (length (calls st) - nextIndex st) + 1.
Proof.
  unfold loop_body, emit. intros H.
  change (calls (claim w (nextIndex st) st)) with (calls st) in H.
  destruct (calls st !! nextIndex st) as [tc|] eqn:Htc.
  2:{ injection H as <- <-. store_simpl. lia. }
  apply lookup_lt_Some in Htc.
  cbv beta iota zeta in H.
  destruct (observe _ _ _).
  { injection H as <- <-. store_simpl. lia. }
  destruct (toolMap_get _ _).
  { injection H as <- <-. store_simpl. unfold maxAttempts. lia. }
  apply catch_block_shape in H as (Hn & Hl & Hw). revert Hn Hl. store_simpl.
  intros -> ->. lia.
Qed.

Lemma worker_measure w pc st st' pc' :
  worker c w pc st = Some (st', pc') →
  length (calls st') = length (calls st) ∧
  10 * (length (calls st) - nextIndex st') + weight pc'
  < 10 * (length (calls st) - nextIndex st) + weight pc.
Proof.
  destruct pc as [|i a|i a|i o| |i e]; intros H; try done.
  - injection H as H. by apply (loop_body_measure w).
  - simpl in H. destruct (invoke _ _ _); [injection H as <- <-; simpl; lia|].
    destruct (_ || _); injection H as <- <-; simpl; lia.
  - simpl in H. destruct (a + 1 <=? maxAttempts)%nat eqn:Hle;
      injection H as <- <-; simpl; [|lia].
    apply Nat.leb_le in Hle. unfold maxAttempts in *. lia.
  - unfold worker in H. destruct (calls st !! i) as [tc|]; [|done].
    change (Some tc ≫= ?f) with (f tc) in H. cbv beta in H.
    destruct o as [r|err].
    + unfold emit in H. cbv beta iota zeta in H.
      destruct (observe _ _ _).
      * injection H as H. apply catch_block_shape in H as (Hn & Hl & Hw).
        revert Hn Hl. store_simpl. rewrite length_alter. intros -> ->. lia.
      * injection H as <- <-. store_simpl. rewrite length_alter. lia.
    + injection H as H. apply catch_block_shape in H as (-> & -> & Hw).
      simpl. lia.
Qed.

Lemma run_loop_measure gas w st pc st' pc' :
  run_loop c gas w (st, pc) = (st', pc') →
  length (calls st') = length (calls st) ∧
  10 * (length (calls st) - nextIndex st') + weight pc'
  ≤ 10 * (length (calls st) - nextIndex st) + weight pc.
Proof.
  revert st pc. induction gas as [|gas IH]; intros st pc H.
  - assert (st' = st ∧ pc' = pc) as [-> ->] by (by destruct pc; simplify_eq/=).
    done.
  - destruct pc; simpl in H; try (by injection H as <- <-).
    destruct (loop_body c w st) as [st1 pc1] eqn:Hit.
    apply loop_body_measure in Hit as [Hl1 Hm1].
    apply IH in H as [Hl2 Hm2]. rewrite Hl1 in *. simpl. split; [done|lia].
Qed.

Lemma sum_list_insert (ws : list Worker) w pc pc' :
  ws !! w = Some pc →
  sum_list (weight <$> <[w := pc']> ws) + weight pc
  = sum_list (weight <$> ws) + weight pc'.
Proof.
  revert w. induction ws as [|x ws IH]; intros [|w] Hw; simplify_eq/=; [lia|].
  specialize (IH _ Hw). lia.
Qed.

Lemma step_measure w p p' :
  step c w p = Some p' →
  measure (store p') (workers p') < measure (store p) (workers p).
Proof.
  intros (pc & st1 & pc1 & st2 & pc2 & Hw & Hm & Hrun & ->)%step_unfold.
  apply worker_measure in Hm as [Hl1 Hm1].
  apply run_loop_measure in Hrun as [Hl2 Hm2].
  pose proof (sum_list_insert _ _ _ pc2 Hw) as Hsum.
  unfold measure. simpl. rewrite Hl2, Hl1 in *. lia.
Qed.

(** A worker that has not finished can always take its turn. *)
Lemma step_progress w p pc :
  PoolInv c calls0 p → workers p !! w = Some pc → finished pc = false →
  is_Some (step c w p).
Proof.
  intros [HI _] Hw Hfin. unfold step. rewrite Hw.
  change (Some pc ≫= ?f) with (f pc). cbv beta.
  assert (is_Some (worker c w pc (store p))) as [[st1 pc1] ->].
  { destruct pc as [|i a|i a|i o| |i e]; try done.
    - simpl. destruct (invoke _ _ _); [by eexists|]. by destruct (_ || _); eexists.
    - simpl. by destruct (_ <=? _)%nat; eexists.
    - destruct (inv_worker _ _ _ _ HI _ _ Hw) as (_ & [_ Hc] & a & Hr & _).
      destruct Hr as ((tc & Htc & _) & _). unfold worker. rewrite Hc, Htc.
      change (Some tc ≫= ?f) with (f tc). cbv beta.
      destruct o; [|by eexists].
      unfold emit. cbv beta iota zeta. by destruct (observe _ _ _); eexists. }
  change (Some (st1, pc1) ≫= ?f) with (f (st1, pc1)). cbv beta.
  by destruct (run_loop _ _ _ _); eexists.
Qed.

Lemma grows_refl st : grows st st.
Proof. by split_and!. Qed.

Lemma grows_trans st1 st2 st3 : grows st1 st2 → grows st2 st3 → grows st1 st3.
Proof.
  intros (? & ? & ?) (? & ? & ?). split_and!; [lia|by etrans|by auto].
Qed.

Lemma catch_block_grows i tc err st st' pc' :
  catch_block c i tc err st = (st', pc') → grows st st'.
Proof.
  unfold catch_block, emit. intros H.
  repeat match type of H with
  | context [match ?o with Some _ => _ | None => _ end] => destruct o
  end; injection H as <- <-; split_and!; store_simpl; try done;
    rewrite <-?app_assoc; by apply prefix_app_r.
Qed.

Lemma loop_body_grows w st st' pc' : loop_body c w st = (st', pc') → grows st st'.
Proof.
  unfold loop_body, emit. intros H.
  change (calls (claim w (nextIndex st) st)) with (calls st) in H.
  destruct (calls st !! nextIndex st) as [tc|].
  2:{ injection H as <- <-. split_and!; store_simpl; [lia|done|done]. }
  cbv beta iota zeta in H.
  destruct (observe _ _ _).
  { injection H as <- <-. split_and!; store_simpl; [lia|by apply prefix_app_r|done]. }
  destruct (toolMap_get _ _).
  { injection H as <- <-. split_and!; store_simpl; [lia|by apply prefix_app_r|done]. }
  apply catch_block_grows in H. eapply grows_trans; [|exact H].
  split_and!; store_simpl; [lia|by apply prefix_app_r|done].
Qed.

Lemma worker_grows w pc st st' pc' : worker c w pc st = Some (st', pc') → grows st st'.
Proof.
  destruct pc as [|i a|i a|i o| |i e]; intros H; try done.
  - injection H as H. by eapply loop_body_grows.
  - simpl in H. destruct (invoke _ _ _); [injection H as <- <-; apply grows_refl|].
    destruct (_ || _); injection H as <- <-; by split_and!.
  - simpl in H. destruct (a + 1 <=? maxAttempts)%nat;
      injection H as <- <-; by split_and!.
  - unfold worker in H. destruct (calls st !! i) as [tc|]; [|done].
    change (Some tc ≫= ?f) with (f tc) in H. cbv beta in H.
    destruct o as [r|err].
    + unfold emit in H. cbv beta iota zeta in H.
      destruct (observe _ _ _).
      * injection H as H. apply catch_block_grows in H.
        eapply grows_trans; [|exact H].
        split_and!; store_simpl; [lia|by apply prefix_app_r|done].
      * injection H as <- <-.
        split_and!; store_simpl; [lia|by apply prefix_app_r|done].
    + injection H as H. by eapply catch_block_grows.
Qed.

Lemma run_loop_grows gas w st pc st' pc' :
  run_loop c gas w (st, pc) = (st', pc') → grows st st'.
Proof.
  revert st pc. induction gas as [|gas IH]; intros st pc H.
  - assert (st' = st) as -> by (by destruct pc; simplify_eq/=). apply grows_refl.
  - destruct pc; simpl in H; try (injection H as <- <-; apply grows_refl).
    destruct (loop_body c w st) as [st1 pc1] eqn:Hit.
    apply loop_body_grows in Hit. apply IH in H. by eapply grows_trans.
Qed.

Lemma step_grows w p p' : step c w p = Some p' → grows (store p) (store p').
Proof.
  intros (pc & st1 & pc1 & st2 & pc2 & Hw & Hm & Hrun & ->)%step_unfold.
  apply worker_grows in Hm. apply run_loop_grows in Hrun. simpl.
  by eapply grows_trans.
Qed.

Lemma exec_grows sched p : grows (store p) (store (exec c sched p)).
Proof.
  revert p. induction sched as [|w sched IH]; intros p; [apply grows_refl|].
  simpl. destruct (step c w p) as [p'|] eqn:Hs; simpl; [|apply IH].
  eapply grows_trans; [by eapply step_grows|apply IH].
Qed.

(** The loop never parks a worker at its top: a turn ends at an [await],
    at the [return] or with an observer's exception. *)
Lemma loop_body_again w st st' :
  loop_body c w st = (st', LoopHead) →
  nextIndex st < length (calls st) ∧ nextIndex st' = S (nextIndex st) ∧
  length (calls st') = length (calls st).
Proof.
  unfold loop_body, emit. intros H.
  change (calls (claim w (nextIndex st) st)) with (calls st) in H.
  destruct (calls st !! nextIndex st) as [tc|] eqn:Htc; [|done].
  apply lookup_lt_Some in Htc. cbv beta iota zeta in H.
  destruct (observe _ _ _); [done|].
  destruct (toolMap_get _ _); [done|].
  apply catch_block_shape in H as (Hn & Hl & _). revert Hn Hl. store_simpl.
  intros -> ->. lia.
Qed.

Lemma run_loop_leaves_loop_head gas w st pc st' :
  run_loop c gas w (st, pc) = (st', LoopHead) →
  gas ≤ length (calls st) - nextIndex st.
Proof.
  revert st pc. induction gas as [|gas IH]; intros st pc H; [lia|].
  destruct pc; simpl in H; try done.
  destruct (loop_body c w st) as [st1 pc1] eqn:Hit.
  destruct pc1;
    try (destruct gas; simpl in H; congruence).
  apply loop_body_again in Hit as (Hlt & Hn & Hl). apply IH in H. lia.
Qed.

Lemma step_leaves_loop_head w p p' :
  step c w p = Some p' → workers p' !! w ≠ Some LoopHead.
Proof.
  intros (pc & st1 & pc1 & st2 & pc2 & Hw & Hm & Hrun & ->)%step_unfold.
  simpl. rewrite list_lookup_insert_eq by (by eapply lookup_lt_Some).
  intros [= ->]. apply run_loop_leaves_loop_head in Hrun.
  apply worker_measure in Hm as [Hl _]. lia.
Qed.

Lemma drain n p :
  PoolInv c calls0 p → measure (store p) (workers p) ≤ n →
  ∃ sched, Forall (λ pc, finished pc = true) (workers (exec c sched p)).
Proof.
  revert p. induction n as [|n IH]; intros p HP Hn.
  - destruct (decide (Forall (λ pc, finished pc = true) (workers p))) as [Hall|Hex].
    { by exists []. }
    apply not_Forall_Exists in Hex; [|apply _].
    apply Exists_exists in Hex as (pc & Hin & Hpc).
    apply list_elem_of_lookup in Hin as [w Hw].
    apply not_true_is_false in Hpc.
    destruct (step_progress _ _ _ HP Hw Hpc) as [p' Hs].
    apply step_measure in Hs. lia.
  - destruct (decide (Forall (λ pc, finished pc = true) (workers p))) as [Hall|Hex].
    { by exists []. }
    apply not_Forall_Exists in Hex; [|apply _].
    apply Exists_exists in Hex as (pc & Hin & Hpc).
    apply list_elem_of_lookup in Hin as [w Hw].
    apply not_true_is_false in Hpc.
    destruct (step_progress _ _ _ HP Hw Hpc) as [p' Hs].
    destruct (IH p') as [sched Hsched].
    + by eapply step_inv.
    + apply step_measure in Hs. lia.
    + exists (w :: sched). simpl. by rewrite Hs.
Qed.

Lemma all_finished_outcome p :
  PoolInv c calls0 p →
  Forall (λ pc, finished pc = true) (workers p) →
  match rejection p with
  | Some e => outcome p = Settled (Rejected e)
  | None => outcome p = Settled (Fulfilled (allSucceeded (store p)))
  end.
Proof.
  intros [HI Hrej] Hall. unfold outcome. destruct (rejection p) as [e|]; [done|].
  rewrite (proj2 (forallb_forall _ _)); [done|].
  intros pc Hin%list_elem_of_In.
  pose proof (proj1 (Forall_forall _ _) Hall pc Hin) as Hf.
  apply list_elem_of_lookup in Hin as [w Hw].
  destruct pc; try done. by apply Hrej in Hw.
Qed.

Lemma quiet_no_rejection p :
  PoolInv c calls0 p → quiet (callbacks c) → rejection p = None.
Proof.
  intros [_ Hrej] Hq. destruct (rejection p) as [e|]; [|done].
  destruct Hrej as (seen & ev & He). by rewrite Hq in He.
Qed.
End Liveness.

(** ** Runs of [executeTools] *)

Section Runs.
Context (c : Ctx) (calls0 : list ToolCallStatus).

Lemma launch_inv C sched : PoolInv c calls0 (exec c sched (launch c calls0 C)).
Proof. apply exec_inv, exec_inv, fresh_inv. Qed.

Lemma step_workers_length w p p' :
  step c w p = Some p' → length (workers p') = length (workers p).
Proof.
  intros (pc & st1 & pc1 & st2 & pc2 & Hw & Hm & Hrun & ->)%step_unfold.
  simpl. apply length_insert.
Qed.

Lemma exec_workers_length sched p :
  length (workers (exec c sched p)) = length (workers p).
Proof.
  revert p. induction sched as [|w sched IH]; intros p; [done|].
  simpl. destruct (step c w p) as [p'|] eqn:Hs; simpl; [|apply IH].
  rewrite IH. by eapply step_workers_length.
Qed.

Lemma launch_workers_length C sched :
  length (workers (exec c sched (launch c calls0 C))) = C.
Proof.
  unfold launch. rewrite !exec_workers_length. simpl. apply length_replicate.
Qed.

(** Once started, a worker is never found at the top of the loop: the
    states of a run are those between the turns of the event loop. *)
Lemma step_started w0 w p p' :
  step c w p = Some p' → workers p !! w0 ≠ Some LoopHead →
  workers p' !! w0 ≠ Some LoopHead.
Proof.
  intros Hstep Hw0. destruct (decide (w0 = w)) as [->|Hne].
  - by eapply step_leaves_loop_head.
  - apply step_unfold in Hstep
      as (pc & st1 & pc1 & st2 & pc2 & Hw & Hm & Hrun & ->).
    simpl. by rewrite list_lookup_insert_ne.
Qed.

Lemma exec_started w0 sched p :
  workers p !! w0 ≠ Some LoopHead →
  workers (exec c sched p) !! w0 ≠ Some LoopHead.
Proof.
  revert p. induction sched as [|w sched IH]; intros p Hw0; [done|].
  simpl. apply IH. destruct (step c w p) as [p'|] eqn:Hs; [|done].
  by eapply step_started.
Qed.

Lemma launch_started C sched w0 :
  workers (exec c sched (launch c calls0 C)) !! w0 ≠ Some LoopHead.
Proof.
  apply exec_started. unfold launch.
  destruct (decide (w0 < C)) as [Hlt|Hge].
  2:{ intros Hw0%lookup_lt_Some. rewrite exec_workers_length in Hw0.
      simpl in Hw0. rewrite length_replicate in Hw0. lia. }
  replace (seq 0 C) with (seq 0 w0 ++ [w0] ++ seq (S w0) (C - S w0)).
  2:{ replace (seq 0 C) with (seq 0 (w0 + (1 + (C - S w0))))
        by (f_equal; lia).
      rewrite !seq_app. simpl. repeat f_equal; lia. }
  rewrite !exec_app. apply exec_started.
  set (p1 := exec c (seq 0 w0) (fresh calls0 C)).
  pose proof (exec_inv c calls0 (seq 0 w0) _ (fresh_inv c calls0 C)) as HP.
  fold p1 in HP. simpl.
  destruct (step c w0 p1) as [p'|] eqn:Hs; simpl.
  - by eapply step_leaves_loop_head.
  - intros Hw0. destruct (step_progress c calls0 w0 p1 LoopHead HP Hw0 eq_refl)
      as [p' Hp']. congruence.
Qed.

(** Once every worker has finished, no turn changes anything. *)
Lemma exec_finished sched p :
  Forall (λ pc, finished pc = true) (workers p) → exec c sched p = p.
Proof.
  intros Hall. induction sched as [|w sched IH]; [done|]. simpl.
  replace (step c w p) with (@None Pool); [done|].
  unfold step. destruct (workers p !! w) as [pc|] eqn:Hw; [|done].
  rewrite Forall_forall in Hall.
  pose proof (Hall pc (list_elem_of_lookup_2 _ _ _ Hw)) as Hf.
  by destruct pc.
Qed.

(** [executeTools] has resolved: nothing was rejected, every worker has
    returned, and the value is the flag. *)
Lemma resolved p b :
  outcome p = Settled (Fulfilled b) →
  rejection p = None ∧ b = allSucceeded (store p) ∧
  ∀ w pc, workers p !! w = Some pc → pc = Returned.
Proof.
  unfold outcome. destruct (rejection p); [done|].
  destruct (forallb _ _) eqn:Hall; [|done]. intros [= <-]. split_and!; try done.
  intros w pc Hw. rewrite forallb_forall in Hall.
  specialize (Hall pc). destruct pc; try done;
    (discriminate Hall; apply list_elem_of_In, list_elem_of_lookup; eauto).
Qed.

Lemma returned_past_end p w :
  PoolInv c calls0 p → workers p !! w = Some Returned →
  length calls0 ≤ nextIndex (store p).
Proof.
  intros [HI _] Hw. destruct (inv_worker _ _ _ _ HI _ _ Hw) as (i & Hi & Hcl).
  apply (claims_index_lt _ _ _ _ _ _ (inv_globals _ _ _ _ HI)) in Hcl. lia.
Qed.

(** Once [executeTools] has resolved, every call is completed, failed, or
    failed because the [completed] observer threw. *)
Lemma resolved_call p b i :
  PoolInv c calls0 p → 1 ≤ length (workers p) →
  outcome p = Settled (Fulfilled b) → i < length calls0 →
  (trace_of i (events (store p)) = [KUpdate running; KUpdate completed] ∧
   status_at (store p) i = Some completed ∧
   ∃ a r, retried c calls0 (store p) i a ∧ invoke (env c) i a = Fulfilled r) ∨
  (trace_of i (events (store p)) = [KUpdate running; KUpdate failed; KError] ∧
   status_at (store p) i = Some failed ∧ allSucceeded (store p) = false ∧
   failure_cause c calls0 (store p) i) ∨
  (trace_of i (events (store p)) =
     [KUpdate running; KUpdate completed; KUpdate failed; KError] ∧
   status_at (store p) i = Some failed ∧ allSucceeded (store p) = false ∧
   overruled c i ∧
   ∃ a r, retried c calls0 (store p) i a ∧ invoke (env c) i a = Fulfilled r).
Proof.
  intros HP Hlen (Hrej & -> & Hall)%resolved Hi.
  destruct (lookup_lt_is_Some_2 (workers p) 0) as [pc0 Hw0]; [lia|].
  pose proof (Hall _ _ Hw0) as ->.
  pose proof (returned_past_end _ _ HP Hw0) as Hnext.
  destruct HP as [HI _].
  destruct (inv_call _ _ _ _ HI i Hi)
    as [Hn|w pc Hw Hpc|a r Hn Ht Hs Hr Hinv|Hn Ht Hs Hfl Hcause
       |a r Hn Ht Hs Hfl Hov Hr Hinv|w e Hw].
  - lia.
  - apply Hall in Hw as ->. done.
  - left. split_and!; [done|done|by exists a, r].
  - right. left. by split_and!.
  - right. right. split_and!; [done|done|done|done|by exists a, r].
  - by apply Hall in Hw.
Qed.
End Runs.

(** The turns after all workers have finished change nothing. *)
Lemma executeTools_finished ex e task qid cbs tcs sched :
  toolCalls task = Some tcs →
  Forall (λ pc, finished pc = true)
    (workers (launch {| this := ex; taskId := task_id task; queryId := qid;
                        callbacks := cbs; env := e |}
                     tcs (pool_size ex (length tcs)))) →
  executeTools ex e task qid cbs sched
  = executeTools ex e task qid cbs [].
Proof.
  intros Htcs Hfin. unfold executeTools. rewrite Htcs.
  by rewrite !exec_finished.
Qed.


Section Consequences.
Context (c : Ctx) (calls0 : list ToolCallStatus).

Lemma Finite_le_of_length (q : Q) n :
  Number_le (Finite q) (of_length n) = true → (Qfloor q ≤ Z.of_nat n)%Z.
Proof.
  simpl. intros H%Qle_bool_iff. apply Qfloor_resp_le in H.
  by rewrite Qfloor_Z in H.
Qed.

Lemma of_length_le_Finite (q : Q) n :
  Number_le (Finite q) (of_length n) = false → (Z.of_nat n ≤ Qfloor q)%Z.
Proof.
  simpl. intros H.
  assert (inject_Z (Z.of_nat n) <= q)%Q as Hle.
  { apply Qlt_le_weak, Qnot_le_lt. intros Hq%Qle_bool_iff. congruence. }
  apply Qfloor_resp_le in Hle. by rewrite Qfloor_Z in Hle.
Qed.

Lemma truncate_floor (q : Q) :
  (1 <= q)%Q → Z.quot (Qnum q) (Z.pos (Qden q)) = Qfloor q ∧ (1 ≤ Qfloor q)%Z.
Proof.
  intros H. pose proof (Qfloor_resp_le _ _ H) as Hfl.
  change (Qfloor 1) with 1%Z in Hfl. split; [|done].
  destruct q as [num den]. unfold Qle in H. simpl in *.
  apply Z.quot_div_nonneg; lia.
Qed.

Lemma floor_lt_1 (q : Q) : Qle_bool 1 q = false → (Qfloor q ≤ 0)%Z.
Proof.
  intros H.
  assert (q < 1)%Q as Hlt.
  { apply Qnot_le_lt. intros Hq%Qle_bool_iff. congruence. }
  pose proof (Qfloor_le q) as Hfl.
  assert (inject_Z (Qfloor q) < inject_Z 1)%Q as Hz by (by eapply Qle_lt_trans).
  rewrite <-Zlt_Qlt in Hz. lia.
Qed.

Lemma Math_min_Finite p q :
  Math_min (Finite p) (Finite q) = if Qle_bool p q then Finite p else Finite q.
Proof. reflexivity. Qed.

Lemma Math_max_Finite p q :
  Math_max (Finite p) (Finite q) = if Qle_bool p q then Finite q else Finite p.
Proof. reflexivity. Qed.

Lemma ToLength_Finite q :
  ToLength (Finite q)
  = Z.to_nat (Z.min (Z.quot (Qnum q) (Z.pos (Qden q))) (2 ^ 53 - 1)).
Proof. reflexivity. Qed.

Lemma pool_of_length n :
  ToLength (Math_max (Finite 1%Q) (of_length n))
  = Z.to_nat (Z.min (Z.max 1 (Z.of_nat n)) (2 ^ 53 - 1)).
Proof.
  unfold of_length. rewrite Math_max_Finite.
  destruct (Qle_bool 1 (inject_Z (Z.of_nat n))) eqn:Hn; rewrite ToLength_Finite.
  - apply Qle_bool_iff in Hn. change 1%Q with (inject_Z 1) in Hn.
    rewrite <-Zle_Qle in Hn. simpl. rewrite Z.quot_1_r. f_equal. lia.
  - apply floor_lt_1 in Hn. rewrite Qfloor_Z in Hn. simpl.
    rewrite Z.quot_1_r. f_equal. lia.
Qed.

(** The size of the pool, by what [maxConcurrentToolCalls] is. *)
Lemma pool_size_cases ex n :
  pool_size ex n =
  match default (Finite 3%Q) (maxConcurrentToolCalls ex) with
  | NaN => 0
  | Infinity true => 1
  | Infinity false => Z.to_nat (Z.min (Z.max 1 (Z.of_nat n)) (2 ^ 53 - 1))
  | Finite q =>
      Z.to_nat (Z.min (Z.max 1 (Z.min (Qfloor q) (Z.of_nat n))) (2 ^ 53 - 1))
  end.
Proof.
  unfold pool_size.
  destruct (default (Finite 3%Q) (maxConcurrentToolCalls ex)) as [|[]|q]; try done.
  - change (Math_min (Infinity false) (of_length n)) with (of_length n).
    apply pool_of_length.
  - destruct (Number_le (Finite q) (of_length n)) eqn:Hqn.
    + pose proof (Finite_le_of_length _ _ Hqn) as Hle.
      unfold of_length in *. rewrite Math_min_Finite.
      change (Qle_bool q (inject_Z (Z.of_nat n)))
        with (Number_le (Finite q) (Finite (inject_Z (Z.of_nat n)))).
      rewrite Hqn, Math_max_Finite.
      destruct (Qle_bool 1 q) eqn:H1; rewrite ToLength_Finite.
      * apply Qle_bool_iff, truncate_floor in H1 as [Htr Hfl].
        rewrite Htr. f_equal. lia.
      * apply floor_lt_1 in H1. simpl. rewrite Z.quot_1_r. f_equal. lia.
    + pose proof (of_length_le_Finite _ _ Hqn) as Hle.
      replace (Math_min (Finite q) (of_length n)) with (of_length n).
      2:{ unfold of_length in *. rewrite Math_min_Finite.
          change (Qle_bool q (inject_Z (Z.of_nat n)))
            with (Number_le (Finite q) (Finite (inject_Z (Z.of_nat n)))).
          by rewrite Hqn. }
      rewrite pool_of_length. f_equal. lia.
Qed.

(** Unless [maxConcurrentToolCalls] is [NaN], the pool has a worker. *)
Lemma pool_size_pos ex n :
  maxConcurrentToolCalls ex ≠ Some NaN → 1 ≤ pool_size ex n.
Proof.
  intros Hnan. rewrite pool_size_cases.
  destruct (maxConcurrentToolCalls ex) as [[|[]|q]|]; simpl; try done; lia.
Qed.

Lemma pool_size_NaN ex n :
  maxConcurrentToolCalls ex = Some NaN → pool_size ex n = 0.
Proof. intros H. unfold pool_size. by rewrite H. Qed.

Lemma trace_of_app i evs1 evs2 :
  trace_of i (evs1 ++ evs2) = trace_of i evs1 ++ trace_of i evs2.
Proof. unfold trace_of. by rewrite filter_app, fmap_app. Qed.

Lemma trace_of_prefix i evs1 evs2 :
  evs1 `prefix_of` evs2 → trace_of i evs1 `prefix_of` trace_of i evs2.
Proof. intros [k ->]. rewrite trace_of_app. by apply prefix_app_r. Qed.

Lemma status_at_lookup st i s :
  status_at st i = Some s ↔ ∃ tc, calls st !! i = Some tc ∧ status tc = s.
Proof.
  unfold status_at. destruct (calls st !! i) as [tc|]; simpl; split.
  - intros [= <-]. eauto.
  - intros (tc' & [= <-] & <-). done.
  - done.
  - intros (tc' & ? & _). done.
Qed.

(** The value [executeTools] resolves to. *)
Lemma resolved_flag p b :
  PoolInv c calls0 p → 1 ≤ length (workers p) →
  outcome p = Settled (Fulfilled b) →
  (b = true ↔ ∀ tc, tc ∈ calls (store p) → status tc ≠ failed).
Proof.
  intros HP Hlen Hb.
  pose proof (Globals_length c calls0 _ _ (inv_globals _ _ _ _ (proj1 HP))) as HN.
  pose proof (resolved _ _ Hb) as (_ & Hflag & _). split.
  - intros -> tc [i Hi]%list_elem_of_lookup Hst.
    assert (i < length calls0) as Hlt by (apply lookup_lt_Some in Hi; lia).
    destruct (resolved_call c calls0 p true i HP Hlen Hb Hlt)
      as [(_ & Hs & _)|[(_ & _ & Hf & _)|(_ & _ & Hf & _)]]; try congruence.
    apply status_at_lookup in Hs as (tc' & Htc' & Hs). congruence.
  - intros Hnone. destruct b; [done|]. exfalso.
    destruct (g_flag _ _ _ _ (inv_globals _ _ _ _ (proj1 HP))) as (ev & Hin & Hk & Hi);
      [done|].
    assert (KUpdate failed ∈ trace_of (event_index ev) (events (store p))) as Hf.
    { apply elem_of_trace_of. eauto. }
    destruct (resolved_call c calls0 p false _ HP Hlen Hb Hi)
      as [(Ht & _)|[(_ & Hs & _)|(_ & Hs & _)]].
    + rewrite Ht in Hf. repeat (apply elem_of_cons in Hf as [Hf|Hf]; [done|]).
      by apply elem_of_nil in Hf.
    + apply status_at_lookup in Hs as (tc & Htc & Hs).
      eapply Hnone; [|exact Hs]. by eapply list_elem_of_lookup_2.
    + apply status_at_lookup in Hs as (tc & Htc & Hs).
      eapply Hnone; [|exact Hs]. by eapply list_elem_of_lookup_2.
Qed.

(** A call the observers see running is in the hands of a worker. *)
Lemma running_is_held st ws i :
  Inv c calls0 st ws → i < length calls0 → reported i (events st) = running →
  ∃ w pc, ws !! w = Some pc ∧ holds pc = Some i.
Proof.
  intros HI Hi Hrep. unfold reported in Hrep.
  destruct (inv_call _ _ _ _ HI i Hi)
    as [Hn Ht|w pc Hw Hpc|a r Hn Ht|Hn Ht|a r Hn Ht|w e Hw Hd];
    try (rewrite Ht in Hrep; done).
  - exists w, pc. split; [done|]. by destruct pc; simplify_eq/=.
  - by exists w, (Threw i e).
Qed.

Lemma length_omap_le {A B} (f : A → option B) (l : list A) :
  length (omap f l) ≤ length l.
Proof.
  induction l as [|x l IH]; [done|].
  change (omap f (x :: l)) with (from_option (λ y, y :: omap f l) (omap f l) (f x)).
  destruct (f x); simpl; lia.
Qed.

Lemma running_now_bounded p :
  PoolInv c calls0 p → length (running_now p) ≤ length (workers p).
Proof.
  intros [HI _].
  pose proof (Globals_length c calls0 _ _ (inv_globals _ _ _ _ HI)) as HN.
  etrans; [|apply (length_omap_le holds)].
  apply submseteq_length, NoDup_submseteq.
  - apply NoDup_filter, NoDup_seq.
  - intros i [Hrep Hi%elem_of_seq]%list_elem_of_filter.
    destruct (running_is_held _ _ i HI) as (w & pc & Hw & Hpc); [lia|done|].
    apply list_elem_of_omap. exists pc. split; [|done].
    by eapply list_elem_of_lookup_2.
Qed.

(** The status field is only ever written [completed] or [failed]. *)
Lemma status_written st ws i tc :
  Inv c calls0 st ws → calls st !! i = Some tc →
  calls0 !! i = Some tc ∨ status tc = completed ∨ status tc = failed.
Proof.
  intros HI Htc.
  pose proof (Globals_length c calls0 _ _ (inv_globals _ _ _ _ HI)) as HN.
  assert (i < length calls0) as Hi by (apply lookup_lt_Some in Htc; lia).
  destruct (inv_call _ _ _ _ HI i Hi)
    as [Hn Ht Hc|w pc Hw Hpc|a r Hn Ht Hs|Hn Ht Hs|a r Hn Ht Hs|w e Hw Hd Hf Hnf].
  - left. congruence.
  - left. pose proof (inv_worker _ _ _ _ HI _ _ Hw) as Hwi.
    destruct pc; simplify_eq/=; destruct Hwi as (_ & [_ Hc] & _); congruence.
  - right. left. apply status_at_lookup in Hs as (tc' & ? & ?). congruence.
  - right. right. apply status_at_lookup in Hs as (tc' & ? & ?). congruence.
  - right. right. apply status_at_lookup in Hs as (tc' & ? & ?). congruence.
  - destruct (decide (KUpdate failed ∈ trace_of i (events st))) as [Hin|Hin].
    + right. right. destruct (Hf Hin) as [Hs _].
      apply status_at_lookup in Hs as (tc' & ? & ?). congruence.
    + left. rewrite <-(Hnf Hin). done.
Qed.

Lemma attempts_of_NoDup i invs : NoDup invs → NoDup (attempts_of i invs).
Proof.
  intros Hnd. unfold attempts_of. apply NoDup_fmap_2_strong.
  - intros [j a] [j' a'] [Hj _]%list_elem_of_filter [Hj' _]%list_elem_of_filter Heq.
    simpl in *. by subst.
  - by apply NoDup_filter.
Qed.

Lemma attempts_at_most_three st n i :
  Globals c calls0 st n → length (attempts_of i (invocations st)) ≤ maxAttempts.
Proof.
  intros HG. change maxAttempts with (length (seq 1 maxAttempts)).
  apply submseteq_length, NoDup_submseteq.
  - apply attempts_of_NoDup, HG.
  - intros a Ha%elem_of_attempts_of.
    destruct (g_attempt _ _ _ _ HG _ _ Ha) as (_ & ? & _).
    apply elem_of_seq. lia.
Qed.

Lemma jitter_range bits : (0 ≤ jitter bits < 500)%Z.
Proof.
  unfold jitter.
  pose proof (Z.mod_pos_bound bits (2 ^ 53)) as Hm.
  split.
  - apply Z.div_pos; lia.
  - apply Z.div_lt_upper_bound; lia.
Qed.
End Consequences.

(** ** What a turn writes to the logs *)

Section Effects.
Context (c : Ctx) (calls0 : list ToolCallStatus).

(** A property of the shared state and the workers that every resumed
    worker keeps, in a state of the invariant, holds throughout a run. *)
Lemma exec_ind (P : Store → list Worker → Prop) :
  (∀ st ws w pc st' pc',
     Inv c calls0 st ws → ws !! w = Some pc → P st ws →
     worker c w pc st = Some (st', pc') → P st' (<[w := pc']> ws)) →
  ∀ sched p, PoolInv c calls0 p → P (store p) (workers p) →
             P (store (exec c sched p)) (workers (exec c sched p)).
Proof.
  intros Hturn.
  assert (∀ gas st ws w pc st' pc',
            Inv c calls0 st ws → ws !! w = Some pc → P st ws →
            run_loop c gas w (st, pc) = (st', pc') → P st' (<[w := pc']> ws))
    as Hloop.
  { induction gas as [|gas IH]; intros st ws w pc st' pc' HI Hw HP Hrun.
    - assert (st' = st ∧ pc' = pc) as [-> ->] by (by destruct pc; simplify_eq/=).
      by rewrite list_insert_id.
    - destruct pc; simpl in Hrun;
        try (injection Hrun as <- <-; by rewrite list_insert_id).
      destruct (loop_body c w st) as [st1 pc1] eqn:Hit.
      pose proof (loop_body_inv c calls0 _ _ _ _ _ HI Hw Hit) as HI1.
      assert (P st1 (<[w := pc1]> ws)) as HP1.
      { eapply Hturn; [exact HI|exact Hw|exact HP|]. simpl. by rewrite Hit. }
      pose proof (lookup_lt_Some _ _ _ Hw) as Hlt.
      specialize (IH st1 (<[w := pc1]> ws) w pc1 st' pc' HI1).
      rewrite list_insert_insert_eq in IH. apply IH; [|done|done].
      by apply list_lookup_insert_eq. }
  induction sched as [|w sched IH]; intros p HPI HP; [done|].
  simpl. destruct (step c w p) as [p'|] eqn:Hs; simpl; [|by apply IH].
  apply IH; [by eapply step_inv|].
  apply step_unfold in Hs as (pc & st1 & pc1 & st2 & pc2 & Hw & Hm & Hrun & ->).
  simpl. destruct HPI as [HI _].
  pose proof (lookup_lt_Some _ _ _ Hw) as Hlt.
  pose proof (worker_preserves c calls0 _ _ _ _ _ _ HI Hw Hm) as HI1.
  rewrite <-(list_insert_insert_eq (workers p) w pc2 pc1).
  eapply Hloop; [exact HI1| | |exact Hrun].
  - by apply list_lookup_insert_eq.
  - by eapply Hturn.
Qed.

(** The [catch] block reports the failure and the error, and writes the
    status. *)
Lemma catch_block_effect i tc err st st' pc' :
  catch_block c i tc err st = (st', pc') →
  nextIndex st' = nextIndex st ∧ saved st' = saved st ∧
  calls st' = alter (set_status failed) i (calls st) ∧
  (events st' = events st ++ [ToolCallUpdate (taskId c) i failed] ∨
   events st' = events st ++
     [ToolCallUpdate (taskId c) i failed;
      ToolCallError (taskId c) i (tool tc) (args tc) (as_Error err)]) ∧
  (pc' = LoopHead ∨ ∃ e, pc' = Threw i e).
Proof.
  unfold catch_block, emit. intros H.
  repeat match type of H with
  | context [match ?o with Some _ => _ | None => _ end] => destruct o
  end; injection H as <- <-; store_simpl; split_and!; eauto.
  all: right; by rewrite <-app_assoc.
Qed.

(** The loop body claims the next index and, if the list has an entry
    there, reports it running; a capability that is missing is reported
    at once. *)
Lemma loop_body_effect w st st' pc' :
  loop_body c w st = (st', pc') →
  nextIndex st' = S (nextIndex st) ∧ saved st' = saved st ∧
  match calls st !! nextIndex st with
  | None => events st' = events st ∧ calls st' = calls st ∧ pc' = Returned
  | Some tc =>
      (events st' = events st ++ [ToolCallUpdate (taskId c) (nextIndex st) running] ∧
       calls st' = calls st ∧
       (pc' = AwaitInvoke (nextIndex st) 1 ∧ is_Some (toolMap_get (this c) (tool tc)) ∨
        ∃ e, pc' = Threw (nextIndex st) e)) ∨
      (toolMap_get (this c) (tool tc) = None ∧
       calls st' = alter (set_status failed) (nextIndex st) (calls st) ∧
       (pc' = LoopHead ∨ ∃ e, pc' = Threw (nextIndex st) e) ∧
       (events st' = events st ++
          [ToolCallUpdate (taskId c) (nextIndex st) running;
           ToolCallUpdate (taskId c) (nextIndex st) failed] ∨
        events st' = events st ++
          [ToolCallUpdate (taskId c) (nextIndex st) running;
           ToolCallUpdate (taskId c) (nextIndex st) failed;
           ToolCallError (taskId c) (nextIndex st) (tool tc) (args tc)
             (JError "Error" ("Tool not found: " ++ js_String (tool tc))%string)]))
  end.
Proof.
  unfold loop_body, emit. intros H.
  change (calls (claim w (nextIndex st) st)) with (calls st) in H.
  destruct (calls st !! nextIndex st) as [tc|] eqn:Htc.
  2:{ injection H as <- <-. store_simpl. split_and!; try done; lia. }
  cbv beta iota zeta in H.
  destruct (observe _ _ _).
  { injection H as <- <-. store_simpl. split_and!; try lia; try done.
    left. split_and!; eauto. }
  destruct (toolMap_get _ _) eqn:Hget.
  { injection H as <- <-. store_simpl. split_and!; try lia; try done.
    left. split_and!; eauto. }
  apply catch_block_effect in H as (Hn & Hs & Hc & Hev & Hpc).
  revert Hn Hs Hc Hev. store_simpl. intros -> -> -> Hev.
  split_and!; try lia; try done. right. split_and!; try done.
  destruct Hev as [-> | ->]; rewrite <-app_assoc; [by left|by right].
Qed.

(** A worker resumed after [invokeWithRetries] has settled saves the
    result and reports the call completed, or reports the failure. *)
Lemma retries_effect w i o tc st st' pc' :
  calls st !! i = Some tc →
  worker c w (AwaitRetries i o) st = Some (st', pc') →
  nextIndex st' = nextIndex st ∧ (pc' = LoopHead ∨ ∃ e, pc' = Threw i e) ∧
  match o with
  | Fulfilled r =>
      saved st' = saved st ++
        [{| saved_tool := tool tc; saved_args := args tc; saved_result := r;
            saved_error := JUndefined; saved_queryId := queryId c |}] ∧
      ((events st' = events st ++ [ToolCallUpdate (taskId c) i completed] ∧
        calls st' = alter (set_status completed) i (calls st)) ∨
       (∃ x, observe (callbacks c) (events st)
               (ToolCallUpdate (taskId c) i completed) = Some x ∧
             calls st' = alter (set_status failed) i
                           (alter (set_status completed) i (calls st)) ∧
             (events st' = events st ++
                [ToolCallUpdate (taskId c) i completed;
                 ToolCallUpdate (taskId c) i failed] ∨
              events st' = events st ++
                [ToolCallUpdate (taskId c) i completed;
                 ToolCallUpdate (taskId c) i failed;
                 ToolCallError (taskId c) i (tool tc) (args tc) (as_Error x)])))
  | Rejected err =>
      saved st' = saved st ∧
      calls st' = alter (set_status failed) i (calls st) ∧
      (events st' = events st ++ [ToolCallUpdate (taskId c) i failed] ∨
       events st' = events st ++
         [ToolCallUpdate (taskId c) i failed;
          ToolCallError (taskId c) i (tool tc) (args tc) (as_Error err)])
  end.
Proof.
  intros Htc H. unfold worker in H. rewrite Htc in H.
  change (Some tc ≫= ?f) with (f tc) in H. cbv beta in H.
  destruct o as [r|err].
  - unfold emit in H. cbv beta iota zeta in H.
    destruct (observe _ _ _) as [x|] eqn:Hobs.
    + injection H as H. apply catch_block_effect in H as (Hn & Hs & Hc & Hev & Hpc).
      revert Hn Hs Hc Hev Hobs. store_simpl. intros -> -> -> Hev Hobs.
      split_and!; try done. right. exists x. split_and!; try done.
      destruct Hev as [-> | ->]; rewrite <-app_assoc; [by left|by right].
    + injection H as <- <-. store_simpl. split_and!; eauto.
  - injection H as H. apply catch_block_effect in H as (Hn & Hs & Hc & Hev & Hpc).
    done.
Qed.

(** A worker resumed inside [invokeWithRetries] reports nothing. *)
Lemma invokeWithRetries_effect pc st st' pc' :
  invokeWithRetries c pc st = Some (st', pc') →
  nextIndex st' = nextIndex st ∧ saved st' = saved st ∧
  events st' = events st ∧ calls st' = calls st ∧
  ∃ i, holds pc = Some i ∧ holds pc' = Some i.
Proof.
  destruct pc as [|i a|i a|i o| |i e]; try done; simpl; intros H.
  - destruct (invoke _ _ _); [injection H as <- <-; by eauto 10|].
    destruct (_ || _); injection H as <- <-; by eauto 10.
  - destruct (_ <=? _)%nat; injection H as <- <-; by eauto 10.
Qed.
End Effects.

(** ** What the logs of a run hold *)

Section Logs.
Context (c : Ctx) (calls0 : list ToolCallStatus).

Lemma told_app s evs1 evs2 : told s (evs1 ++ evs2) = told s evs1 ++ told s evs2.
Proof. unfold told. by rewrite filter_app, fmap_app. Qed.

Lemma instanceof_as_Error x : instanceof_Error (as_Error x) = true.
Proof. by destruct x. Qed.

(** The entry of the list a worker reads is the one the task was given,
    up to its status. *)
Lemma lookup_key st n i tc :
  Globals c calls0 st n → calls st !! i = Some tc →
  ∃ tc0, calls0 !! i = Some tc0 ∧ tool tc0 = tool tc ∧ args tc0 = args tc.
Proof.
  intros HG Htc.
  assert ((key <$> calls st) !! i = Some (key tc)) as Hk
    by (by rewrite list_lookup_fmap, Htc).
  rewrite (g_keys _ _ _ _ HG), list_lookup_fmap in Hk.
  destruct (calls0 !! i) as [tc0|]; [|done]. injection Hk as Hk.
  exists tc0. unfold key in Hk. by simplify_eq.
Qed.

(** The [running] reports are made in the order of the list. *)
Lemma started_in_order sched p :
  PoolInv c calls0 p →
  told running (events (store p))
    = seq 0 (nextIndex (store p) `min` length (calls (store p))) →
  told running (events (store (exec c sched p)))
    = seq 0 (nextIndex (store (exec c sched p))
             `min` length (calls (store (exec c sched p)))).
Proof.
  apply (exec_ind c calls0
    (λ st _, told running (events st) = seq 0 (nextIndex st `min` length (calls st)))).
  intros st ws w pc st' pc' HI Hw HP Hm.
  destruct pc as [|i a|i a|i o| |i e]; try done.
  - injection Hm as Hm. apply loop_body_effect in Hm as (Hn & _ & Hm).
    destruct (calls st !! nextIndex st) as [tc|] eqn:Htc.
    + apply lookup_lt_Some in Htc.
      assert (told running (events st') = told running (events st) ++ [nextIndex st]
              ∧ length (calls st') = length (calls st)) as [-> ->].
      { destruct Hm as [(-> & -> & _)|(_ & -> & _ & [-> | ->])];
          rewrite told_app, ?length_alter; done. }
      rewrite HP, Hn.
      replace (nextIndex st `min` length (calls st)) with (nextIndex st) by lia.
      replace (S (nextIndex st) `min` length (calls st)) with (S (nextIndex st)) by lia.
      by rewrite seq_S.
    + apply lookup_ge_None in Htc. destruct Hm as (-> & -> & _). rewrite HP, Hn.
      f_equal. lia.
  - unfold worker in Hm.
    apply invokeWithRetries_effect in Hm as (-> & _ & -> & -> & _). done.
  - unfold worker in Hm.
    apply invokeWithRetries_effect in Hm as (-> & _ & -> & -> & _). done.
  - destruct (inv_worker _ _ _ _ HI _ _ Hw) as (_ & [_ Hc] & a & Hr & _).
    destruct Hr as ((tc & Htc & _) & _). rewrite <-Hc in Htc.
    apply (retries_effect c w i o tc) in Hm as (-> & _ & Hm); [|done].
    assert (told running (events st') = told running (events st)
            ∧ length (calls st') = length (calls st)) as [-> ->]; [|done].
    destruct o as [r|err].
    + destruct Hm as (_ & [(-> & ->)|(x & _ & -> & [-> | ->])]);
        rewrite told_app, ?length_alter, app_nil_r; done.
    + destruct Hm as (_ & -> & [-> | ->]);
        rewrite told_app, ?length_alter, app_nil_r; done.
Qed.

(** Every report is about a call of the list and carries the task's id;
    an error report carries the call's name and arguments and an [Error]
    whose origin is known. *)
Lemma events_ok sched p :
  PoolInv c calls0 p → Forall (event_ok c calls0) (events (store p)) →
  Forall (event_ok c calls0) (events (store (exec c sched p))).
Proof.
  apply (exec_ind c calls0 (λ st _, Forall (event_ok c calls0) (events st))).
  intros st ws w pc st' pc' HI Hw HP Hm.
  pose proof (inv_globals _ _ _ _ HI) as HG.
  destruct pc as [|i a|i a|i o| |i e]; try done.
  - injection Hm as Hm. apply loop_body_effect in Hm as (_ & _ & Hm).
    destruct (calls st !! nextIndex st) as [tc|] eqn:Htc.
    2:{ by destruct Hm as (-> & _). }
    destruct (lookup_key _ _ _ _ HG Htc) as (tc0 & Htc0 & Htool & Hargs).
    pose proof (lookup_lt_Some _ _ _ Htc0) as Hlt.
    assert (event_ok c calls0 (ToolCallUpdate (taskId c) (nextIndex st) running))
      as Hrun by done.
    assert (event_ok c calls0 (ToolCallUpdate (taskId c) (nextIndex st) failed))
      as Hfail by done.
    destruct Hm as [(-> & _)|(Hnone & _ & _ & [-> | ->])];
      apply Forall_app; (split; [done|]);
      repeat first [apply Forall_nil_2 | apply Forall_cons_2]; try done.
    split_and!; try done; [by exists tc0|].
    left. split; [|done]. exists tc0. split; [done|]. by rewrite Htool.
  - unfold worker in Hm.
    by apply invokeWithRetries_effect in Hm as (_ & _ & -> & _).
  - unfold worker in Hm.
    by apply invokeWithRetries_effect in Hm as (_ & _ & -> & _).
  - destruct (inv_worker _ _ _ _ HI _ _ Hw) as (_ & [_ Hc] & a & Hr & Hend).
    pose proof (proj1 Hr) as Hfound.
    destruct Hr as ((tc & Htc & _) & Ha & _).
    pose proof (lookup_lt_Some _ _ _ Htc) as Hlt. rewrite <-Hc in Htc.
    destruct Hend as [Hinv Hend].
    apply (retries_effect c w i o tc) in Hm as (_ & _ & Hm); [|done].
    rewrite Hc in Htc.
    assert (event_ok c calls0 (ToolCallUpdate (taskId c) i completed)) as Hcomp by done.
    assert (event_ok c calls0 (ToolCallUpdate (taskId c) i failed)) as Hfail by done.
    destruct o as [r|err].
    + destruct Hm as (_ & [(-> & _)|(x & Hobs & _ & [-> | ->])]);
        apply Forall_app; (split; [done|]);
        repeat first [apply Forall_nil_2 | apply Forall_cons_2]; try done.
      split_and!; try done; [apply instanceof_as_Error|by exists tc|].
      right. right. split; [done|]. by exists (events st), x.
    + destruct Hm as (_ & _ & [-> | ->]);
        apply Forall_app; (split; [done|]);
        repeat first [apply Forall_nil_2 | apply Forall_cons_2]; try done.
      split_and!; try done; [apply instanceof_as_Error|by exists tc|].
      right. left. split; [done|]. by exists a, err.
Qed.

(** The context store holds one entry per [completed] report, in the
    order of the reports. *)
Lemma elem_of_told s i evs : i ∈ told s evs ↔ KUpdate s ∈ trace_of i evs.
Proof.
  unfold told. rewrite list_elem_of_fmap, elem_of_trace_of. split.
  - intros (ev & -> & [Hk Hin]%list_elem_of_filter). eauto.
  - intros (ev & Hin & <- & Hk). exists ev. split; [done|].
    by apply list_elem_of_filter.
Qed.

Lemma saved_completed sched p :
  PoolInv c calls0 p →
  Forall2 (saved_for c calls0) (saved (store p)) (told completed (events (store p)))
  ∧ NoDup (told completed (events (store p))) →
  Forall2 (saved_for c calls0) (saved (store (exec c sched p)))
          (told completed (events (store (exec c sched p))))
  ∧ NoDup (told completed (events (store (exec c sched p)))).
Proof.
  apply (exec_ind c calls0
    (λ st _, Forall2 (saved_for c calls0) (saved st) (told completed (events st))
             ∧ NoDup (told completed (events st)))).
  intros st ws w pc st' pc' HI Hw [HP HND] Hm.
  destruct pc as [|i a|i a|i o| |i e]; try done.
  - injection Hm as Hm. apply loop_body_effect in Hm as (_ & -> & Hm).
    destruct (calls st !! nextIndex st) as [tc|] eqn:Htc.
    2:{ by destruct Hm as (-> & _). }
    destruct Hm as [(-> & _)|(_ & _ & _ & [-> | ->])];
      by rewrite told_app, app_nil_r.
  - unfold worker in Hm.
    by apply invokeWithRetries_effect in Hm as (_ & -> & -> & _).
  - unfold worker in Hm.
    by apply invokeWithRetries_effect in Hm as (_ & -> & -> & _).
  - destruct (inv_worker _ _ _ _ HI _ _ Hw) as (_ & [Htr Hc] & a & Hr & Hend).
    destruct Hr as ((tc & Htc & _) & Ha & _). rewrite <-Hc in Htc.
    destruct Hend as [Hinv _].
    apply (retries_effect c w i o tc) in Hm as (_ & _ & Hm); [|done].
    rewrite Hc in Htc.
    destruct o as [r|err].
    + destruct Hm as (-> & Hm).
      assert (told completed (events st') = told completed (events st) ++ [i]) as ->.
      { destruct Hm as [(-> & _)|(x & _ & _ & [-> | ->])]; by rewrite told_app. }
      split.
      * apply Forall2_app; [done|]. constructor; [|done]. by exists tc, a, r.
      * apply NoDup_app. split_and!; [done| |apply NoDup_singleton].
        intros j Hj Hj'%list_elem_of_singleton. subst j.
        apply elem_of_told in Hj. rewrite Htr in Hj.
        apply list_elem_of_singleton in Hj. done.
    + destruct Hm as (-> & _ & [-> | ->]); by rewrite told_app, app_nil_r.
Qed.

Lemma sequential_app (evs new : list Event) i :
  (∀ j k ej ek, j ≤ k → evs !! j = Some ej → evs !! k = Some ek →
                event_index ej ≤ event_index ek) →
  Forall (λ ev, event_index ev < S i) evs →
  Forall (λ ev, event_index ev = i) new →
  (∀ j k ej ek, j ≤ k → (evs ++ new) !! j = Some ej → (evs ++ new) !! k = Some ek →
                event_index ej ≤ event_index ek) ∧
  Forall (λ ev, event_index ev < S i) (evs ++ new).
Proof.
  intros Hsorted Hold Hnew. split.
  - intros j k ej ek Hjk Hj Hk.
    apply lookup_app_Some in Hj as [Hj|[Hlj Hj]];
      apply lookup_app_Some in Hk as [Hk|[Hlk Hk]].
    + by eapply Hsorted.
    + apply list_elem_of_lookup_2 in Hj, Hk.
      rewrite Forall_forall in Hold, Hnew.
      specialize (Hold _ Hj). specialize (Hnew _ Hk). lia.
    + apply lookup_lt_Some in Hk. lia.
    + apply list_elem_of_lookup_2 in Hj, Hk.
      rewrite Forall_forall in Hnew.
      rewrite (Hnew _ Hj), (Hnew _ Hk). done.
  - apply Forall_app. split; [done|].
    eapply Forall_impl; [exact Hnew|]. simpl. intros; lia.
Qed.

(** With one worker the calls are worked off one after the other. *)
Lemma one_worker_sequential sched p :
  PoolInv c calls0 p → sequential (store p) (workers p) →
  sequential (store (exec c sched p)) (workers (exec c sched p)).
Proof.
  apply (exec_ind c calls0 sequential).
  intros st ws w pc st' pc' HI Hw HP Hm Hlen.
  rewrite length_insert in Hlen.
  assert (w = 0) as -> by (apply lookup_lt_Some in Hw; lia).
  destruct (HP Hlen) as (Hsorted & Hbound & Hheld).
  assert (∀ i new, nextIndex st' = S i →
            (∀ j, holds pc' = Some j → j = i) →
            Forall (λ ev, event_index ev < S i) (events st) →
            events st' = events st ++ new →
            Forall (λ ev, event_index ev = i) new →
            (∀ j k ej ek, j ≤ k → events st' !! j = Some ej →
                          events st' !! k = Some ek →
                          event_index ej ≤ event_index ek) ∧
            Forall (λ ev, event_index ev < nextIndex st') (events st') ∧
            ∀ pc0 i0, <[0 := pc']> ws !! 0 = Some pc0 → holds pc0 = Some i0 →
                      nextIndex st' = S i0) as Hgoal.
  { intros i new Hn Hpc' Hb -> Hnew. rewrite Hn.
    destruct (sequential_app (events st) new i Hsorted Hb Hnew) as [Hs' Hb'].
    split_and!; try done.
    intros pc0 i0 Hpc0 Hh. rewrite list_lookup_insert_eq in Hpc0 by lia.
    injection Hpc0 as <-. by rewrite (Hpc' _ Hh). }
  destruct pc as [|i a|i a|i o| |i e]; try done.
  - injection Hm as Hm. apply loop_body_effect in Hm as (Hn & _ & Hm).
    assert (Forall (λ ev, event_index ev < S (nextIndex st)) (events st)) as Hb.
    { eapply Forall_impl; [exact Hbound|]. simpl. intros; lia. }
    destruct (calls st !! nextIndex st) as [tc|] eqn:Htc.
    + destruct Hm as [(Hev & _ & Hpc)|(_ & _ & Hpc & Hev)].
      * eapply (Hgoal _ _ Hn); [|done|exact Hev|by repeat first [apply Forall_nil_2 | apply Forall_cons_2]].
        intros j Hj. destruct Hpc as [[-> _]|[e ->]]; by simplify_eq/=.
      * destruct Hev as [Hev|Hev];
          (eapply (Hgoal _ _ Hn); [|done|exact Hev|by repeat first [apply Forall_nil_2 | apply Forall_cons_2]]);
          intros j Hj; destruct Hpc as [->|[e ->]]; by simplify_eq/=.
    + destruct Hm as (Hev & _ & ->).
      eapply (Hgoal _ [] Hn); [done|done|by rewrite app_nil_r|done].
  - unfold worker in Hm.
    apply invokeWithRetries_effect in Hm as (Hn & _ & Hev & _ & j & Hh & Hh').
    simpl in Hh. injection Hh as <-.
    pose proof (Hheld _ _ Hw eq_refl) as Hnext. rewrite <-Hn in Hnext.
    eapply (Hgoal _ [] Hnext); [|by rewrite <-Hnext, Hn|by rewrite app_nil_r|done].
    intros j Hj. congruence.
  - unfold worker in Hm.
    apply invokeWithRetries_effect in Hm as (Hn & _ & Hev & _ & j & Hh & Hh').
    simpl in Hh. injection Hh as <-.
    pose proof (Hheld _ _ Hw eq_refl) as Hnext. rewrite <-Hn in Hnext.
    eapply (Hgoal _ [] Hnext); [|by rewrite <-Hnext, Hn|by rewrite app_nil_r|done].
    intros j Hj. congruence.
  - destruct (inv_worker _ _ _ _ HI _ _ Hw) as (_ & [_ Hc] & a & Hr & _).
    destruct Hr as ((tc & Htc & _) & _). rewrite <-Hc in Htc.
    apply (retries_effect c 0 i o tc) in Hm as (Hn & Hpc & Hm); [|done].
    pose proof (Hheld _ _ Hw eq_refl) as Hnext. rewrite <-Hn in Hnext.
    assert (∀ j, holds pc' = Some j → j = i) as Hpc'.
    { intros j Hj. destruct Hpc as [->|[e ->]]; by simplify_eq/=. }
    assert (Forall (λ ev, event_index ev < S i) (events st)) as Hb
      by (by rewrite <-Hnext, Hn).
    destruct o as [r|err].
    + destruct Hm as (_ & [(Hev & _)|(x & _ & _ & [Hev|Hev])]);
        (eapply (Hgoal _ _ Hnext); [done|done|exact Hev|by repeat first [apply Forall_nil_2 | apply Forall_cons_2]]).
    + destruct Hm as (_ & _ & [Hev|Hev]);
        (eapply (Hgoal _ _ Hnext); [done|done|exact Hev|by repeat first [apply Forall_nil_2 | apply Forall_cons_2]]).
Qed.
End Logs.

(** ** Further properties of [executeTools] *)

Section Determined.
Context (c : Ctx) (calls0 : list ToolCallStatus).

(** The attempt the retry loop ends at is the one the answers of the
    capability single out. *)
Lemma retried_last_attempt st i a o :
  retried c calls0 st i a → ends_with c i a o →
  last_attempt (env c) i (maxAttempts - 1) 1 = a.
Proof.
  intros (_ & Ha & _ & Hprev) [Hinv Hend]. unfold maxAttempts in *. simpl.
  assert (a = 1 ∨ a = 2 ∨ a = 3) as [->|[->| ->]] by lia.
  - rewrite Hinv. destruct o as [r|err]; [done|].
    destruct Hend as [->|?]; [done|lia].
  - destruct (Hprev 1 ltac:(lia)) as (e1 & -> & ->).
    rewrite Hinv. destruct o as [r|err]; [done|].
    destruct Hend as [->|?]; [done|lia].
  - destruct (Hprev 1 ltac:(lia)) as (e1 & -> & ->).
    destruct (Hprev 2 ltac:(lia)) as (e2 & -> & ->). done.
Qed.

Lemma found_verdict st i a o tc :
  calls0 !! i = Some tc → retried c calls0 st i a → ends_with c i a o →
  verdict c i tc = match o with Fulfilled _ => completed | Rejected _ => failed end ∧
  is_Some (toolMap_get (this c) (tool tc)) ∧
  attempts_of i (invocations st) = seq 1 (last_attempt (env c) i (maxAttempts - 1) 1).
Proof.
  intros Htc Hr Hend. rewrite (retried_last_attempt _ _ _ _ Hr Hend).
  pose proof Hr as ((tc' & Htc' & [t Ht]) & _ & Hat & _).
  assert (tc' = tc) as -> by congruence.
  unfold verdict. rewrite Ht, (retried_last_attempt _ _ _ _ Hr Hend).
  destruct Hend as [-> _]. split_and!; [done|by eexists|done].
Qed.


Lemma turns_app s1 s2 p :
  turns c (s1 ++ s2) p = turns c s1 p + turns c s2 (exec c s1 p).
Proof.
  revert p. induction s1 as [|w s1 IH]; intros p; simpl; [done|].
  destruct (step c w p) as [p'|]; simpl; rewrite IH; done.
Qed.
End Determined.

Section Further.
Context (c : Ctx) (calls0 : list ToolCallStatus).

Lemma launch_run C sched :
  exec c sched (launch c calls0 C) = exec c (seq 0 C ++ sched) (fresh calls0 C).
Proof. unfold launch. by rewrite exec_app. Qed.

Lemma launch_started_in_order C sched :
  let st := store (exec c sched (launch c calls0 C)) in
  told running (events st) = seq 0 (nextIndex st `min` length calls0).
Proof.
  intros st. unfold st.
  rewrite <-(Globals_length c calls0 _ _
               (inv_globals _ _ _ _ (proj1 (launch_inv c calls0 C sched)))).
  rewrite launch_run. apply (started_in_order c calls0); [apply fresh_inv|done].
Qed.

Lemma launch_events_ok C sched :
  Forall (event_ok c calls0) (events (store (exec c sched (launch c calls0 C)))).
Proof.
  rewrite launch_run. apply (events_ok c calls0); [apply fresh_inv|done].
Qed.

Lemma launch_saved_completed C sched :
  let st := store (exec c sched (launch c calls0 C)) in
  Forall2 (saved_for c calls0) (saved st) (told completed (events st)) ∧
  NoDup (told completed (events st)).
Proof.
  intros st. unfold st. rewrite launch_run.
  apply (saved_completed c calls0); [apply fresh_inv|].
  split; [done|apply NoDup_nil_2].
Qed.

Lemma launch_sequential sched :
  let p := exec c sched (launch c calls0 1) in
  ∀ j k ej ek, j ≤ k → events (store p) !! j = Some ej →
               events (store p) !! k = Some ek →
               event_index ej ≤ event_index ek.
Proof.
  intros p. unfold p. rewrite launch_run.
  pose proof (one_worker_sequential c calls0 (seq 0 1 ++ sched) (fresh calls0 1)
                (fresh_inv c calls0 1)) as H.
  destruct H as (Hs & _).
  - intros _. split_and!; [by intros j k ej ek _ Hj|done|].
    intros pc i Hpc Hh. by simplify_eq/=.
  - rewrite <-launch_run, launch_workers_length. done.
  - done.
Qed.

(** Once [executeTools] has resolved with observers that return normally,
    every call has the status the answers of its capability determine. *)
Lemma resolved_verdict C sched b i tc :
  let p := exec c sched (launch c calls0 C) in
  quiet (callbacks c) → 1 ≤ C → outcome p = Settled (Fulfilled b) →
  calls0 !! i = Some tc →
  calls (store p) !! i = Some (set_status (verdict c i tc) tc) ∧
  attempts_of i (invocations (store p))
    = match toolMap_get (this c) (tool tc) with
      | Some _ => seq 1 (last_attempt (env c) i (maxAttempts - 1) 1)
      | None => []
      end ∧
  trace_of i (events (store p))
    = match verdict c i tc with
      | completed => [KUpdate running; KUpdate completed]
      | _ => [KUpdate running; KUpdate failed; KError]
      end.
Proof.
  intros p Hq HC Hb Htc.
  pose proof (launch_inv c calls0 C sched) as HP. fold p in HP.
  pose proof (launch_workers_length c calls0 C sched) as Hlen. fold p in Hlen.
  pose proof (lookup_lt_Some _ _ _ Htc) as Hi.
  pose proof (inv_globals _ _ _ _ (proj1 HP)) as HG.
  assert (∀ s, status_at (store p) i = Some s →
               calls (store p) !! i = Some (set_status s tc)) as Hset.
  { intros s (tc' & Htc' & Hs)%status_at_lookup. rewrite Htc'. f_equal.
    destruct (lookup_key c calls0 _ _ _ _ HG Htc') as (tc0 & Htc0 & Ht & Ha).
    assert (tc0 = tc) as -> by congruence.
    destruct tc, tc'. unfold set_status. simpl in *. f_equal; congruence. }
  destruct (resolved_call c calls0 p b i HP ltac:(lia) Hb Hi)
    as [(Ht & Hs & a & r & Hr & Hinv)
       |[(Ht & Hs & _ & [[Hm Hat]|(a & err & Hr & Hend)])
        |(_ & _ & _ & (seen & x & Hov) & _)]].
  - destruct (found_verdict c calls0 _ i a (Fulfilled r) tc Htc Hr) as (-> & [t ->] & ->);
      [by split|]. split_and!; [by apply Hset|done|done].
  - destruct Hm as (tc' & Htc' & Hnone).
    assert (tc' = tc) as -> by congruence.
    unfold verdict. rewrite Hnone. split_and!; [by apply Hset|done|done].
  - destruct (found_verdict c calls0 _ i a (Rejected err) tc Htc Hr Hend)
      as (-> & [t ->] & ->).
    split_and!; [by apply Hset|done|done].
  - by rewrite Hq in Hov.
Qed.
End Further.

(** ** Strings, the registry and the prompt *)

Open Scope string_scope.

Lemma append_cons (a : Ascii.ascii) (s t : string) :
  String a s ++ t = String a (s ++ t).
Proof. reflexivity. Qed.

Lemma append_assoc (s1 s2 s3 : string) : (s1 ++ s2) ++ s3 = s1 ++ (s2 ++ s3).
Proof.
  induction s1 as [|a s1 IH]; [done|]. rewrite !append_cons. by rewrite IH.
Qed.

Lemma prefix_refl_app (n s : string) : String.prefix n (n ++ s) = true.
Proof.
  induction n as [|a n IH]; [by destruct s|].
  rewrite append_cons. simpl. by destruct (Ascii.ascii_dec a a).
Qed.

Lemma prefix_app_l (n s1 s2 : string) :
  String.prefix n s1 = true → String.prefix n (s1 ++ s2) = true.
Proof.
  revert s1. induction n as [|a n IH]; intros s1 H.
  - by destruct (s1 ++ s2).
  - destruct s1 as [|b s1]; [done|]. rewrite append_cons. simpl in *.
    destruct (Ascii.ascii_dec a b); [by apply IH|done].
Qed.

Lemma includes_unfold (n : string) (a : Ascii.ascii) (s : string) :
  includes n (String a s) = String.prefix n (String a s) || includes n s.
Proof. reflexivity. Qed.

Lemma includes_here (n s : string) : includes n (n ++ s) = true.
Proof.
  destruct (n ++ s) eqn:E.
  - destruct n; [done|]. by rewrite append_cons in E.
  - rewrite includes_unfold, <-E, prefix_refl_app. done.
Qed.

Lemma includes_app_l (n s1 s2 : string) :
  includes n s1 = true → includes n (s1 ++ s2) = true.
Proof.
  induction s1 as [|a s1 IH]; intros H.
  - destruct n; [|done]. change ("" ++ s2) with s2. by destruct s2.
  - rewrite append_cons, includes_unfold. rewrite includes_unfold in H.
    apply orb_true_iff in H as [H|H].
    + apply (prefix_app_l _ _ s2) in H. rewrite append_cons in H. by rewrite H.
    + rewrite (IH H). apply orb_true_r.
Qed.

Lemma includes_app_r (n s1 s2 : string) :
  includes n s2 = true → includes n (s1 ++ s2) = true.
Proof.
  intros H. induction s1 as [|a s1 IH]; [done|].
  rewrite append_cons, includes_unfold, IH. apply orb_true_r.
Qed.

Lemma includes_mid (n s1 s2 : string) : includes n (s1 ++ n ++ s2) = true.
Proof. apply includes_app_r, includes_here. Qed.

Lemma includes_concat (n sep s : string) (l : list string) :
  s ∈ l → includes n s = true → includes n (String.concat sep l) = true.
Proof.
  intros Hin Hs. induction l as [|x l IH]; [by apply elem_of_nil in Hin|].
  apply elem_of_cons in Hin as [->|Hin].
  - destruct l as [|y l]; [done|].
    change (String.concat sep (x :: y :: l))
      with (x ++ sep ++ String.concat sep (y :: l)).
    by apply includes_app_l.
  - specialize (IH Hin). destruct l as [|y l]; [by apply elem_of_nil in Hin|].
    change (String.concat sep (x :: y :: l))
      with (x ++ sep ++ String.concat sep (y :: l)).
    by do 2 apply includes_app_r.
Qed.

Close Scope string_scope.

Lemma new_Map_snoc ts t : new_Map (ts ++ [t]) = <[name t := t]> (new_Map ts).
Proof. unfold new_Map. by rewrite foldl_app. Qed.

(** The registry maps a name to the last capability of that name. *)
Lemma new_Map_lookup ts n :
  new_Map ts !! n = last (filter (λ t, name t = n) ts).
Proof.
  induction ts as [|t ts IH] using rev_ind; [done|].
  rewrite new_Map_snoc, filter_app, filter_cons, filter_nil.
  destruct (decide (name t = n)) as [->|Hne].
  - by rewrite lookup_insert_eq, last_snoc.
  - by rewrite lookup_insert_ne, app_nil_r.
Qed.

(** ** Claims about the worker pool *)

Section Retries.
Context (c : Ctx) (calls0 : list ToolCallStatus).

Lemma found_not_missing i : found c calls0 i → missing c calls0 i → False.
Proof.
  intros (tc & Htc & [t Ht]) (tc' & Htc' & Hnone). congruence.
Qed.

Lemma throttled_rejected i a err :
  throttled c i a → invoke (env c) i a = Rejected err → isTooMany err = true.
Proof. intros (err' & He & Ht) H. congruence. Qed.

Lemma throttled_not_fulfilled i a r :
  throttled c i a → invoke (env c) i a = Fulfilled r → False.
Proof. intros (err' & He & Ht) H. congruence. Qed.

(** The attempt at which the retry loop of a call ends is determined by
    what the capability answers. *)
Lemma retried_three st i a o :
  retried c calls0 st i a → ends_with c i a o →
  throttled c i 1 → throttled c i 2 →
  a = 3 ∧ attempts_of i (invocations st) = [1; 2; 3].
Proof.
  intros (_ & Ha & Hat & _) [Hinv Hend] H1 H2. unfold maxAttempts in *.
  assert (a = 1 ∨ a = 2 ∨ a = 3) as Hcases by lia.
  destruct Hcases as [->|[->| ->]]; [| |by rewrite Hat].
  - destruct o as [r|err]; [by destruct (throttled_not_fulfilled _ _ _ H1 Hinv)|].
    pose proof (throttled_rejected _ _ _ H1 Hinv). destruct Hend; [congruence|lia].
  - destruct o as [r|err]; [by destruct (throttled_not_fulfilled _ _ _ H2 Hinv)|].
    pose proof (throttled_rejected _ _ _ H2 Hinv). destruct Hend; [congruence|lia].
Qed.

Lemma retried_one st i a err :
  retried c calls0 st i a →
  invoke (env c) i 1 = Rejected err → isTooMany err = false →
  a = 1 ∧ attempts_of i (invocations st) = [1].
Proof.
  intros (_ & Ha & Hat & Hprev) Hinv Hnt.
  destruct (decide (a = 1)) as [->|Hne]; [by rewrite Hat|].
  pose proof (throttled_rejected _ _ _ (Hprev 1 ltac:(lia)) Hinv). congruence.
Qed.
End Retries.

Ltac not_in_list :=
  let H := fresh in
  intros H; repeat (apply elem_of_cons in H as [H|H]; [done|]);
  by apply elem_of_nil in H.

(** C1, as the code has it: with observers that return normally, for a
    call list of size N and a pool of C >= 1 workers: the counter values
    are read one by one, no value twice, and the counter only increases; a
    worker has returned exactly if it has read a value beyond the list;
    every run can be continued until [executeTools] has settled; and once
    it has settled it has resolved, every index 0..N-1 was claimed by
    exactly one worker of the pool and went through the loop body exactly
    once, the capability of a registered call was invoked at the attempts
    1, 2, .. up to at most 3, each once, and a call whose capability is
    missing was never invoked. *)
Theorem executeTools_claims_each_index_once_with_quiet_observers
    (c : Ctx) (tcs : list ToolCallStatus) (C : nat) (sched : list nat) :
  quiet (callbacks c) → 1 ≤ C →
  let p := exec c sched (launch c tcs C) in
  (claims (store p)).*2 = seq 0 (nextIndex (store p)) ∧
  (∀ sched', nextIndex (store p) ≤ nextIndex (store (exec c sched' p))) ∧
  (∀ w, workers p !! w = Some Returned ↔
        ∃ i, length tcs ≤ i ∧ (w, i) ∈ claims (store p)) ∧
  NoDup (invocations (store p)) ∧
  (∃ sched', outcome (exec c sched' p) ≠ Pending) ∧
  (outcome p ≠ Pending →
     (∃ b, outcome p = Settled (Fulfilled b)) ∧
     length tcs ≤ nextIndex (store p) ∧
     ∀ i, i < length tcs →
       (∃ w, w < C ∧ (w, i) ∈ claims (store p) ∧
             ∀ w', (w', i) ∈ claims (store p) → w' = w) ∧
       (∃ rest, trace_of i (events (store p)) = KUpdate running :: rest ∧
                KUpdate running ∉ rest) ∧
       (found c tcs i →
        ∃ a, 1 ≤ a ≤ maxAttempts ∧
             attempts_of i (invocations (store p)) = seq 1 a) ∧
       (missing c tcs i → attempts_of i (invocations (store p)) = [])).
Proof.
  intros Hq HC p.
  pose proof (launch_inv c tcs C sched) as HP. fold p in HP.
  pose proof (launch_workers_length c tcs C sched) as Hlen. fold p in Hlen.
  pose proof (quiet_no_rejection c tcs p HP Hq) as Hrej.
  destruct HP as [HI Hrej'].
  pose proof (inv_globals _ _ _ _ HI) as HG.
  split_and!.
  - apply HG.
  - intros sched'. apply exec_grows.
  - intros w. split.
    + intros Hw. apply (inv_worker _ _ _ _ HI _ _ Hw).
    + intros (i & Hi & Hin). by eapply (inv_exit _ _ _ _ HI).
  - apply HG.
  - destruct (drain c tcs _ p (conj HI Hrej') (Nat.le_refl _)) as [sched' Hfin].
    exists sched'.
    pose proof (exec_inv c tcs sched' p (conj HI Hrej')) as HP'.
    pose proof (all_finished_outcome c tcs _ HP' Hfin) as Hout.
    rewrite (quiet_no_rejection c tcs _ HP' Hq) in Hout. by rewrite Hout.
  - intros Hset.
    assert (∃ b, outcome p = Settled (Fulfilled b)) as [b Hb].
    { unfold outcome in *. rewrite Hrej in *.
      destruct (forallb _ _); [by eexists|done]. }
    split; [by exists b|].
    pose proof (resolved _ _ Hb) as (_ & _ & Hall).
    destruct (lookup_lt_is_Some_2 (workers p) 0) as [pc0 Hw0]; [lia|].
    pose proof (Hall _ _ Hw0) as ->.
    pose proof (returned_past_end c tcs p 0 (conj HI Hrej') Hw0) as Hnext.
    split; [done|]. intros i Hi.
    assert (i ∈ (claims (store p)).*2) as Hin
      by (rewrite (g_claims _ _ _ _ HG); apply elem_of_seq; lia).
    apply list_elem_of_fmap in Hin as ([w i'] & Hi' & Hin); simpl in Hi'; subst i'.
    assert (∃ w, w < C ∧ (w, i) ∈ claims (store p) ∧
                 ∀ w', (w', i) ∈ claims (store p) → w' = w) as Hclaim.
    { exists w. split_and!;
        [rewrite <-Hlen; by eapply (g_claimants _ _ _ _ HG)|done|].
      intros w' Hw'. by eapply claims_unique. }
    assert (∀ k, trace_of i (events (store p)) = KUpdate running :: k →
                 KUpdate running ∉ k →
                 ∃ rest, trace_of i (events (store p)) = KUpdate running :: rest ∧
                         KUpdate running ∉ rest) as Hrun by eauto.
    assert (∀ a, retried c tcs (store p) i a →
              ∃ a, 1 ≤ a ≤ maxAttempts ∧
                   attempts_of i (invocations (store p)) = seq 1 a) as Hat.
    { intros a (_ & Ha & Hseq & _). by exists a. }
    destruct (resolved_call c tcs p b i (conj HI Hrej') ltac:(lia) Hb Hi)
      as [(Ht & _ & a & r & Hr & _)
         |[(Ht & _ & _ & [[Hm Hnone]|(a & err & Hr & _)])
          |(_ & _ & _ & (seen & x & Hov) & _)]].
    + split_and!; [done| |by eauto|].
      * apply (Hrun _ Ht). not_in_list.
      * intros Hm. destruct (found_not_missing c tcs i); [apply Hr|done].
    + split_and!; [done| | |done].
      * apply (Hrun _ Ht). not_in_list.
      * intros Hf. by destruct (found_not_missing c tcs i).
    + split_and!; [done| |by eauto|].
      * apply (Hrun _ Ht). not_in_list.
      * intros Hm. destruct (found_not_missing c tcs i); [apply Hr|done].
    + by rewrite Hq in Hov.
Qed.

(** C2, as the code has it: with observers that return normally,
    [executeTools] never rejects and every run can be continued until it
    has resolved; when it has resolved, with a pool of at least one
    worker, every call has the status the answers of its capability determine
    ([completed] if the capability is registered and the attempt that ends
    its retry loop succeeds, [failed] otherwise), the observers were told
    [running], [completed] of a call that succeeded and [running],
    [failed] and the error of a call that failed, and the value is [true]
    exactly if no call has status [failed], that is exactly if every call
    succeeded; it is [false] if some call failed. *)
Theorem executeTools_resolves_true_iff_every_call_succeeds
    (ex : ToolExecutor) (e : Env) (task : Task) (qid : string)
    (cbs : option ToolExecutorCallbacks) (sched : list nat)
    (tcs : list ToolCallStatus) :
  toolCalls task = Some tcs → quiet cbs →
  let c := {| this := ex; taskId := task_id task; queryId := qid;
              callbacks := cbs; env := e |} in
  let r := executeTools ex e task qid cbs sched in
  (∀ err, r.1 ≠ Settled (Rejected err)) ∧
  (∃ sched' b,
     (executeTools ex e task qid cbs (sched ++ sched')).1 = Settled (Fulfilled b)) ∧
  (maxConcurrentToolCalls ex ≠ Some NaN →
   ∀ b, r.1 = Settled (Fulfilled b) →
     (b = true ↔ ∀ tc, tc ∈ calls (store r.2) → status tc ≠ failed) ∧
     (b = true ↔ ∀ i tc, tcs !! i = Some tc → verdict c i tc = completed) ∧
     ((∃ i tc, tcs !! i = Some tc ∧ verdict c i tc = failed) → b = false) ∧
     (∀ i tc, tcs !! i = Some tc →
        status_at (store r.2) i = Some (verdict c i tc) ∧
        trace_of i (events (store r.2))
          = match verdict c i tc with
            | completed => [KUpdate running; KUpdate completed]
            | _ => [KUpdate running; KUpdate failed; KError]
            end)).
Proof.
  unfold executeTools. intros -> Hq. simpl.
  set (c := {| this := ex; taskId := task_id task; queryId := qid;
               callbacks := cbs; env := e |}).
  set (C := pool_size ex (length tcs)).
  pose proof (launch_inv c tcs C sched) as HP.
  pose proof (launch_workers_length c tcs C sched) as Hlen.
  split_and!.
  - intros err. unfold outcome.
    rewrite (quiet_no_rejection c tcs _ HP Hq). by destruct (forallb _ _).
  - destruct (drain c tcs _ _ HP (Nat.le_refl _)) as [sched' Hfin].
    exists sched'. rewrite exec_app.
    pose proof (exec_inv c tcs sched' _ HP) as HP'.
    pose proof (all_finished_outcome c tcs _ HP' Hfin) as Hout.
    rewrite (quiet_no_rejection c tcs _ HP' Hq) in Hout. eauto.
  - intros Hnan b Hb.
    pose proof (pool_size_pos ex (length tcs) Hnan) as HC. fold C in HC.
    pose proof (resolved_flag c tcs _ b HP ltac:(lia) Hb) as Hiff.
    assert (∀ i tc, tcs !! i = Some tc →
              status_at (store (exec c sched (launch c tcs C))) i
                = Some (verdict c i tc) ∧
              trace_of i (events (store (exec c sched (launch c tcs C))))
                = match verdict c i tc with
                  | completed => [KUpdate running; KUpdate completed]
                  | _ => [KUpdate running; KUpdate failed; KError]
                  end) as Hall.
    { intros i tc Htc.
      destruct (resolved_verdict c tcs C sched b i tc Hq HC Hb Htc) as (Hc & _ & Ht).
      split; [|done]. unfold status_at. by rewrite Hc. }
    assert (b = true ↔ ∀ i tc, tcs !! i = Some tc → verdict c i tc = completed)
      as Hiff'.
    { rewrite Hiff. split.
      - intros Hnf i tc Htc. destruct (Hall i tc Htc) as [Hs _].
        apply status_at_lookup in Hs as (tc' & Htc' & Hs).
        specialize (Hnf tc' (list_elem_of_lookup_2 _ _ _ Htc')).
        rewrite Hs in Hnf. unfold verdict in *.
        destruct (toolMap_get _ _); [|done]. by destruct (invoke _ _ _).
      - intros Hok tc' [i Hi]%list_elem_of_lookup.
        pose proof (Globals_length c tcs _ _ (inv_globals _ _ _ _ (proj1 HP))) as HN.
        destruct (lookup_lt_is_Some_2 tcs i) as [tc Htc].
        { rewrite <-HN. by eapply lookup_lt_Some. }
        destruct (Hall i tc Htc) as [Hs _]. unfold status_at in Hs.
        rewrite Hi in Hs. injection Hs as ->. by rewrite (Hok i tc Htc). }
    split_and!; [done|done| |done].
    intros (i & tc & Htc & Hv). destruct b; [|done].
    rewrite (proj1 Hiff' eq_refl i tc Htc) in Hv. done.
Qed.

(** C4: a task without a call list, or with an empty one, makes
    [executeTools] resolve [true]; no capability is invoked, nothing is
    written to the context store, no observer is called and no timer set,
    whatever the schedule. *)
Theorem executeTools_without_calls_resolves_true
    (ex : ToolExecutor) (e : Env) (task : Task) (qid : string)
    (cbs : option ToolExecutorCallbacks) (sched : list nat) :
  toolCalls task = None ∨ toolCalls task = Some [] →
  let r := executeTools ex e task qid cbs sched in
  r.1 = Settled (Fulfilled true) ∧
  invocations (store r.2) = [] ∧ saved (store r.2) = [] ∧
  events (store r.2) = [] ∧ timers (store r.2) = [].
Proof.
  unfold executeTools. intros [->| ->]; simpl; [done|].
  set (c := {| this := ex; taskId := task_id task; queryId := qid;
               callbacks := cbs; env := e |}).
  assert (pool_size ex 0 = 0 ∨ pool_size ex 0 = 1) as [-> | ->].
  { rewrite pool_size_cases.
    destruct (maxConcurrentToolCalls ex) as [[|[]|q]|]; simpl; lia. }
  { assert (∀ s, exec c s (launch c [] 0) = launch c [] 0) as ->; [|done].
    intros s. by apply exec_finished. }
  set (p := launch c [] 1).
  assert (∀ s, exec c s p = p) as ->.
  { induction s as [|w s IH]; [done|]. simpl.
    replace (step c w p) with (@None Pool); [done|].
    destruct w as [|w]; [done|]. by destruct w. }
  done.
Qed.

(** C9: [executeTools] leaves the list as long as it was and every entry
    with its tool name and its arguments, in the same order; only status
    fields change.  The flag, once cleared, is never set again. *)
Theorem executeTools_changes_only_status
    (ex : ToolExecutor) (e : Env) (task : Task) (qid : string)
    (cbs : option ToolExecutorCallbacks) (sched : list nat)
    (tcs : list ToolCallStatus) :
  toolCalls task = Some tcs →
  let p := (executeTools ex e task qid cbs sched).2 in
  length (calls (store p)) = length tcs ∧
  tool <$> calls (store p) = tool <$> tcs ∧
  args <$> calls (store p) = args <$> tcs ∧
  (∀ i tc, calls (store p) !! i = Some tc →
     ∃ tc0, tcs !! i = Some tc0 ∧ tc = set_status (status tc) tc0) ∧
  (∀ sched',
     allSucceeded (store p) = false →
     allSucceeded (store (executeTools ex e task qid cbs (sched ++ sched')).2) = false).
Proof.
  unfold executeTools. intros ->. simpl.
  set (c := {| this := ex; taskId := task_id task; queryId := qid;
               callbacks := cbs; env := e |}).
  set (C := pool_size ex (length tcs)).
  pose proof (launch_inv c tcs C sched) as [HI _].
  pose proof (g_keys _ _ _ _ (inv_globals _ _ _ _ HI)) as Hk.
  split_and!.
  - eapply Globals_length, HI.
  - change tool with (fst ∘ key). by rewrite !list_fmap_compose, Hk.
  - change args with (snd ∘ key). by rewrite !list_fmap_compose, Hk.
  - intros i tc Htc.
    assert (key <$> calls (store (exec c sched (launch c tcs C))) !! i = Some (key tc))
      as Hki by (by rewrite Htc).
    rewrite <-list_lookup_fmap, Hk, list_lookup_fmap in Hki.
    destruct (tcs !! i) as [tc0|]; [|done]. injection Hki as Hki.
    exists tc0. split; [done|]. destruct tc, tc0. unfold key in Hki. simpl in *.
    by simplify_eq.
  - intros sched'. rewrite exec_app. apply exec_grows.
Qed.

(** C5, at the input the code misses: [Math.max(1, ...)] is meant to
    keep the pool at one worker at least, but if [maxConcurrentToolCalls]
    is [NaN] so is the length it computes, and [Array.from] starts no
    worker at all: [executeTools] resolves [true] at once, no call is
    claimed, reported or invoked, and the list is left as it was. *)
Theorem executeTools_starts_no_worker_for_NaN
    (ex : ToolExecutor) (e : Env) (task : Task) (qid : string)
    (cbs : option ToolExecutorCallbacks) (sched : list nat)
    (tcs : list ToolCallStatus) :
  toolCalls task = Some tcs → maxConcurrentToolCalls ex = Some NaN →
  let r := executeTools ex e task qid cbs sched in
  pool_size ex (length tcs) = 0 ∧ workers r.2 = [] ∧
  r.1 = Settled (Fulfilled true) ∧
  calls (store r.2) = tcs ∧ nextIndex (store r.2) = 0 ∧
  events (store r.2) = [] ∧ invocations (store r.2) = [] ∧
  saved (store r.2) = [].
Proof.
  unfold executeTools. intros -> Hnan. simpl.
  rewrite (pool_size_NaN ex (length tcs) Hnan).
  set (c := {| this := ex; taskId := task_id task; queryId := qid;
               callbacks := cbs; env := e |}).
  assert (exec c sched (launch c tcs 0) = fresh tcs 0) as ->; [|done].
  by apply exec_finished.
Qed.

(** C8, as the code has it: observers are called from within the worker, so
    only observers that return normally leave the workers alone: then no
    worker is ever aborted and [executeTools] never rejects.  An exception
    of the observer told [running], told [failed] or told the error aborts
    the worker, and a worker that was aborted has made [executeTools]
    reject, with a value thrown by an observer. *)
Theorem executeTools_never_rejects_with_quiet_observers
    (c : Ctx) (tcs : list ToolCallStatus) (C : nat) (sched : list nat) :
  let p := exec c sched (launch c tcs C) in
  (quiet (callbacks c) → rejection p = None) ∧
  (quiet (callbacks c) → ∀ err, outcome p ≠ Settled (Rejected err)) ∧
  (quiet (callbacks c) → ∀ w i err, workers p !! w ≠ Some (Threw i err)) ∧
  (∀ w i err, workers p !! w = Some (Threw i err) →
     thrown_by_observer (callbacks c) err ∧
     ∃ err', outcome p = Settled (Rejected err') ∧
             thrown_by_observer (callbacks c) err') ∧
  (∀ w st tc err,
     calls st !! nextIndex st = Some tc →
     observe (callbacks c) (events st)
       (ToolCallUpdate (taskId c) (nextIndex st) running) = Some err →
     (loop_body c w st).2 = Threw (nextIndex st) err) ∧
  (∀ i tc error st err,
     observe (callbacks c) (events st) (ToolCallUpdate (taskId c) i failed) = Some err →
     (catch_block c i tc error st).2 = Threw i err) ∧
  (∀ i tc error st err,
     observe (callbacks c) (events st) (ToolCallUpdate (taskId c) i failed) = None →
     observe (callbacks c) (events st ++ [ToolCallUpdate (taskId c) i failed])
       (ToolCallError (taskId c) i (tool tc) (args tc)
          (if instanceof_Error error then error else JError "Error" (js_String error)))
     = Some err →
     (catch_block c i tc error st).2 = Threw i err).
Proof.
  intros p. pose proof (launch_inv c tcs C sched) as HP. fold p in HP.
  split_and!.
  5:{ intros w st tc err Htc Hobs. unfold loop_body, emit.
      change (calls (claim w (nextIndex st) st)) with (calls st). rewrite Htc.
      cbv beta iota zeta. change (events (claim w (nextIndex st) st)) with (events st).
      by rewrite Hobs. }
  5:{ intros i tc error st err Hobs. unfold catch_block, emit.
      change (events (write_status i failed (clear_flag st))) with (events st).
      by rewrite Hobs. }
  5:{ intros i tc error st err Hobs1 Hobs2. unfold catch_block, emit.
      change (events (write_status i failed (clear_flag st))) with (events st).
      rewrite Hobs1.
      change (events (add_event ?ev (write_status i failed (clear_flag st))))
        with (events st ++ [ev]).
      by rewrite Hobs2. }
  - intros Hq. pose proof (quiet_no_rejection c tcs p HP Hq) as Hrej.
    destruct HP as [HI Hno]. rewrite Hrej in Hno. done.
  - intros Hq err. pose proof (quiet_no_rejection c tcs p HP Hq) as Hrej.
    unfold outcome. rewrite Hrej. by destruct (forallb _ _).
  - intros Hq. pose proof (quiet_no_rejection c tcs p HP Hq) as Hrej.
    destruct HP as [HI Hno]. by rewrite Hrej in Hno.
  - intros w i err Hw. destruct HP as [HI Hrej].
    destruct (inv_worker _ _ _ _ HI _ _ Hw) as (_ & _ & Hthr). split; [done|].
    unfold outcome. destruct (rejection p) as [err'|]; [by eauto|].
    by apply Hrej in Hw.
Qed.

(** C7, as the code has it: with observers that return normally, each call
    is pending (not claimed, no event), then running (claimed, in the hands
    of exactly one worker, [running] told), then either completed after a
    successful invoke ([running], [completed] told) or failed because the
    capability is missing or the invoke failed for good ([running],
    [failed], then the error told); what was told about a call is never
    taken back, so a call that is completed or failed stays so. *)
Theorem call_lifecycle_with_quiet_observers
    (c : Ctx) (tcs : list ToolCallStatus) (C : nat) (sched : list nat) (i : nat) :
  quiet (callbacks c) → i < length tcs →
  let p := exec c sched (launch c tcs C) in
  lifecycle c tcs p i ∧
  ∀ sched',
    let p' := exec c sched' p in
    trace_of i (events (store p)) `prefix_of` trace_of i (events (store p')) ∧
    (reported i (events (store p)) = completed ∨
     reported i (events (store p)) = failed →
     trace_of i (events (store p')) = trace_of i (events (store p)) ∧
     status_at (store p') i = status_at (store p) i ∧
     status_at (store p) i = Some (reported i (events (store p)))).
Proof.
  intros Hq Hi p.
  assert (∀ s, lifecycle c tcs (exec c s (launch c tcs C)) i) as Hlife.
  { intros s. pose proof (launch_inv c tcs C s) as [HI Hrej].
    unfold lifecycle.
    destruct (inv_call _ _ _ _ HI i Hi)
      as [Hn Ht Hc|w pc Hw Hpc|a r Hn Ht Hs Hr Hinv|Hn Ht Hs Hfl Hcause
         |a r Hn Ht Hs Hfl Hov|w e Hw].
    - left. done.
    - right. left. pose proof (inv_worker _ _ _ _ HI _ _ Hw) as Hwi.
      assert (holds pc = Some i) as Hh by (by destruct pc; simplify_eq/=).
      assert (pristine tcs (store (exec c s (launch c tcs C))) i) as [Ht Hc]
        by (destruct pc; simplify_eq/=; tauto).
      split_and!; try done. exists w, pc. split_and!; try done.
      intros w' (pc' & Hw' & Hh').
      eapply claims_unique; [exact HI| |]; by eapply holds_claimed.
    - right. right. left. split_and!; try done. by exists a, r.
    - right. right. right. done.
    - destruct Hov as (seen & err & Hov). by rewrite Hq in Hov.
    - destruct (inv_worker _ _ _ _ HI _ _ Hw) as (_ & _ & seen & ev & He).
      by rewrite Hq in He. }
  split; [apply Hlife|]. intros sched' p'.
  pose proof (exec_grows c sched' p) as (_ & Hpre & _). fold p' in Hpre.
  apply (trace_of_prefix i) in Hpre. split; [done|].
  pose proof (Hlife sched) as Hp. fold p in Hp.
  pose proof (Hlife (sched ++ sched')) as Hp'. rewrite exec_app in Hp'.
  fold p p' in Hp'. unfold reported.
  destruct Hp as [(Ht & _)|[(Ht & _)|[(Ht & Hs & _)|(Ht & Hs & _)]]];
    rewrite Ht in *; simpl; intros [?|?]; try done;
    destruct Hp' as [(Ht' & _)|[(Ht' & _)|[(Ht' & Hs' & _)|(Ht' & Hs' & _)]]];
    rewrite Ht' in *;
    try (by apply prefix_nil_inv in Hpre);
    try (apply prefix_cons_inv_2 in Hpre; by apply prefix_nil_inv in Hpre);
    try (apply prefix_cons_inv_2 in Hpre; by apply prefix_cons_inv_1 in Hpre);
    by rewrite ?Hs, ?Hs'.
Qed.

(** ** Claims about the retry loop *)


(** C3, as the code has it: a call's capability is invoked at most 3 times;
    attempt [a+1] is made only after attempt [a < 3] failed with a
    throttle-signature error, and after a delay of [2^a] seconds plus at
    most 500 ms; any other error, and any error of attempt 3, ends the loop.
    Once [executeTools] has resolved, a registered call throttled at
    attempts 1 and 2 and successful at attempt 3 was invoked exactly 3 times
    and reported completed, and its status is [completed] unless the
    observer threw when told so, in which case it is [failed]; a call
    throttled 3 times was invoked
    exactly 3 times and has status [failed]; a call whose first attempt
    fails otherwise was invoked exactly once and has status [failed]. *)
Theorem invokeWithRetries_retries_only_throttled_attempts
    (ex : ToolExecutor) (e : Env) (task : Task) (qid : string)
    (cbs : option ToolExecutorCallbacks) (sched : list nat)
    (tcs : list ToolCallStatus) :
  toolCalls task = Some tcs →
  let c := {| this := ex; taskId := task_id task; queryId := qid;
              callbacks := cbs; env := e |} in
  let r := executeTools ex e task qid cbs sched in
  let st := store r.2 in
  (∀ i, length (attempts_of i (invocations st)) ≤ 3) ∧
  NoDup (invocations st) ∧
  (∀ i a, (i, a) ∈ invocations st → 1 ≤ a ≤ 3) ∧
  (∀ i a, (i, S a) ∈ invocations st → 1 ≤ a →
     a < 3 ∧ throttled c i a ∧ (i, a) ∈ invocations st ∧
     ∃ j, (0 ≤ j ≤ 500)%Z ∧
          (i, a, (2 ^ Z.of_nat a * 1000 + j)%Z) ∈ timers st) ∧
  (∀ i a d, (i, a, d) ∈ timers st →
     a < 3 ∧ throttled c i a ∧
     ∃ j, (0 ≤ j ≤ 500)%Z ∧ d = (2 ^ Z.of_nat a * 1000 + j)%Z) ∧
  (∀ i a err, 1 ≤ a → invoke e i a = Rejected err →
     isTooMany err = false ∨ a = 3 → (i, S a) ∉ invocations st) ∧
  (maxConcurrentToolCalls ex ≠ Some NaN →
   ∀ b, r.1 = Settled (Fulfilled b) →
     ∀ i, i < length tcs → found c tcs i →
       (∀ res, throttled c i 1 → throttled c i 2 → invoke e i 3 = Fulfilled res →
          attempts_of i (invocations st) = [1; 2; 3] ∧
          KUpdate completed ∈ trace_of i (events st) ∧
          (¬ overruled c i → status_at st i = Some completed) ∧
          (status_at st i ≠ Some completed →
           overruled c i ∧ status_at st i = Some failed)) ∧
       (throttled c i 1 → throttled c i 2 → throttled c i 3 →
          attempts_of i (invocations st) = [1; 2; 3] ∧
          status_at st i = Some failed) ∧
       (∀ err, invoke e i 1 = Rejected err → isTooMany err = false →
          attempts_of i (invocations st) = [1] ∧
          status_at st i = Some failed)).
Proof.
  unfold executeTools. intros ->. simpl.
  set (c := {| this := ex; taskId := task_id task; queryId := qid;
               callbacks := cbs; env := e |}).
  set (C := pool_size ex (length tcs)).
  set (p := exec c sched (launch c tcs C)).
  pose proof (launch_inv c tcs C sched) as HP. fold p in HP.
  pose proof (launch_workers_length c tcs C sched) as Hlen. fold p in Hlen.
  pose proof (inv_globals _ _ _ _ (proj1 HP)) as HG.
  split_and!.
  - intros i. eapply (attempts_at_most_three c tcs), HG.
  - apply HG.
  - intros i a Hin. by destruct (g_attempt _ _ _ _ HG _ _ Hin) as (_ & ? & _).
  - intros i a Hin Ha.
    destruct (g_attempt _ _ _ _ HG _ _ Hin) as (_ & Hr & Hprev).
    destruct Hprev as [Hthr Htm]; [lia|]. replace (S a - 1) with a in * by lia.
    destruct (g_timers _ _ _ _ HG _ _ _ Htm) as (_ & _ & _ & Hina).
    unfold maxAttempts in *. split_and!; [lia|done|done|].
    exists (jitter (entropy e i a)). split; [|done].
    pose proof (jitter_range (entropy e i a)). lia.
  - intros i a d Hin.
    destruct (g_timers _ _ _ _ HG _ _ _ Hin) as (-> & Hthr & Ha & _).
    unfold maxAttempts in *. split_and!; [lia|done|].
    exists (jitter (entropy e i a)). split; [|done].
    pose proof (jitter_range (entropy e i a)). lia.
  - intros i a err Ha Hinv Hend Hin.
    destruct (g_attempt _ _ _ _ HG _ _ Hin) as (_ & Hr & Hprev).
    destruct Hprev as [Hthr _]; [lia|]. replace (S a - 1) with a in * by lia.
    pose proof (throttled_rejected c _ _ _ Hthr Hinv).
    unfold maxAttempts in *. destruct Hend; [congruence|lia].
  - intros Hnan b Hb i Hi Hfound.
    pose proof (pool_size_pos ex (length tcs) Hnan) as HC. fold C in HC.
    pose proof (resolved_call c tcs p b i HP ltac:(lia) Hb Hi) as Hcall.
    split_and!.
    + intros res H1 H2 H3.
      destruct Hcall as [(Ht & Hs & a & r & Hr & Hinv)
                        |[(Ht & Hs & Hfl & [[Hm _]|(a & err & Hr & Hend)])
                         |(Ht & Hs & Hfl & Hov & a & r & Hr & Hinv)]].
      * destruct (retried_three c tcs _ i a (Fulfilled r) Hr) as [-> Hat]; try done.
        split_and!; [done| |done|done]. rewrite Ht. set_unfold. tauto.
      * by destruct (found_not_missing c tcs i).
      * destruct (retried_three c tcs _ i a (Rejected err) Hr) as [-> Hat]; try done.
        destruct Hend as [Hinv _]. simpl in Hinv. congruence.
      * destruct (retried_three c tcs _ i a (Fulfilled r) Hr) as [-> Hat]; try done.
        split_and!; [done| |done|done]. rewrite Ht. set_unfold. tauto.
    + intros H1 H2 H3.
      destruct Hcall as [(Ht & Hs & a & r & Hr & Hinv)
                        |[(Ht & Hs & Hfl & [[Hm _]|(a & err & Hr & Hend)])
                         |(Ht & Hs & Hfl & Hov & a & r & Hr & Hinv)]].
      * destruct (retried_three c tcs _ i a (Fulfilled r) Hr) as [-> Hat]; try done.
        by destruct (throttled_not_fulfilled c _ _ _ H3 Hinv).
      * by destruct (found_not_missing c tcs i).
      * by destruct (retried_three c tcs _ i a (Rejected err) Hr) as [-> Hat].
      * by destruct (retried_three c tcs _ i a (Fulfilled r) Hr) as [-> Hat].
    + intros err Hinv1 Hnt.
      destruct Hcall as [(Ht & Hs & a & r & Hr & Hinv)
                        |[(Ht & Hs & Hfl & [[Hm _]|(a & err' & Hr & Hend)])
                         |(Ht & Hs & Hfl & Hov & a & r & Hr & Hinv)]].
      * destruct (retried_one c tcs _ i a err Hr) as [-> Hat]; try done.
        simpl in *. congruence.
      * by destruct (found_not_missing c tcs i).
      * by destruct (retried_one c tcs _ i a err Hr) as [-> Hat].
      * by destruct (retried_one c tcs _ i a err Hr) as [-> Hat].
Qed.

(** ** Claims about tool selection *)

Lemma selectTools_unfold llm ex task u :
  selectTools llm ex task u =
  bind (backend_response llm ex task u) (λ response,
    bind (extractToolCalls response) (λ toolCalls,
      Fulfilled (map (λ tc, {| tool := tc.1; args := tc.2; status := pending |})
                     toolCalls))).
Proof. reflexivity. Qed.

Lemma mapM_Fulfilled {A B} (f : A → Outcome B) (l : list A) (l' : list B) :
  mapM f l = Fulfilled l' →
  length l' = length l ∧
  ∀ i y, l' !! i = Some y → ∃ x, l !! i = Some x ∧ f x = Fulfilled y.
Proof.
  revert l'. induction l as [|x l IH]; intros l' H; simpl in H.
  - injection H as <-. split; [done|]. intros i y Hi. done.
  - destruct (f x) as [y0|] eqn:Hfx; [|done]. simpl in H.
    destruct (mapM f l) as [ys|]; [|done]. simpl in H. injection H as <-.
    destruct (IH ys eq_refl) as [Hlen Hall]. split; [simpl; lia|].
    intros [|i] y Hi; simpl in Hi.
    + injection Hi as <-. by exists x.
    + by apply Hall.
Qed.

(** What [extractToolCalls] returns, read off the proposed calls. *)
Lemma extractToolCalls_proposed response l :
  extractToolCalls response = Fulfilled l →
  length l = length (proposed_calls response) ∧
  ∀ i tc, l !! i = Some tc →
    ∃ item, proposed_calls response !! i = Some item ∧
            get item "name" = Fulfilled tc.1 ∧ get item "args" = Fulfilled tc.2.
Proof.
  unfold extractToolCalls, proposed_calls.
  destruct (negb (truthy response) || negb (String.eqb (typeof response) "object"))
    eqn:Hguard.
  { intros [= <-]. split.
    - destruct response; try done; simpl in *; by repeat case_match.
    - intros i tc Hi. done. }
  destruct (get response "tool_calls") as [tool_calls|]; simpl; [|done].
  destruct (Array_isArray tool_calls) eqn:Harr.
  2:{ rewrite orb_true_r. intros [= <-]. split; [|by intros i tc Hi].
      by destruct tool_calls. }
  destruct tool_calls as [| | | | |items| |]; try done.
  change (negb (truthy (JArr items)) || negb true) with false. cbv iota.
  intros H. apply mapM_Fulfilled in H as [Hlen Hall]. split; [done|].
  intros i tc Hi. destruct (Hall i tc Hi) as (item & Hitem & Hf).
  exists item. split; [done|].
  destruct (get item "name") as [n|]; simpl in Hf; [|done].
  destruct (get item "args") as [a|]; simpl in Hf; [|done].
  by injection Hf as <-.
Qed.

(** C6, as the code has it: a sequence returned by [selectTools] has one
    entry per call the backend proposed, in the backend's order, each with
    status [pending] and with the name and the arguments of the proposed
    call; a response that proposes no call yields the empty sequence.  The
    names are not checked against the capability set: every entry names a
    registered capability exactly when every proposed call does. *)
Theorem selectTools_returns_the_proposed_calls_pending
    (llm : Backend) (ex : ToolExecutor) (task : Task) (u : Understanding)
    (l : list ToolCallStatus) :
  selectTools llm ex task u = Fulfilled l →
  ∃ response,
    backend_response llm ex task u = Fulfilled response ∧
    Forall (λ tc, status tc = pending) l ∧
    length l = length (proposed_calls response) ∧
    (∀ i tc, l !! i = Some tc →
       ∃ item, proposed_calls response !! i = Some item ∧
               get item "name" = Fulfilled (tool tc) ∧
               get item "args" = Fulfilled (args tc)) ∧
    (proposed_calls response = [] → l = []) ∧
    (Forall (capability ex ∘ tool) l ↔
     Forall (λ item, ∃ n, get item "name" = Fulfilled n ∧ capability ex n)
            (proposed_calls response)).
Proof.
  rewrite selectTools_unfold. intros H.
  destruct (backend_response llm ex task u) as [response|]; [|done]. simpl in H.
  destruct (extractToolCalls response) as [raw|] eqn:Hraw; [|done]. simpl in H.
  injection H as <-. apply extractToolCalls_proposed in Hraw as [Hlen Hall].
  exists response. split_and!; try done.
  - apply Forall_fmap, Forall_true. done.
  - by rewrite length_map.
  - intros i tc Hi. change map with (@fmap list _) in Hi.
    apply list_lookup_fmap_Some in Hi as (pr & -> & Hpr).
    by apply Hall.
  - intros Hnil. rewrite Hnil in Hlen. by destruct raw.
  - rewrite !Forall_lookup. split.
    + intros Hcap i item Hitem.
      destruct (lookup_lt_is_Some_2 raw i) as [pr Hpr].
      { rewrite Hlen. by eapply lookup_lt_Some. }
      destruct (Hall i pr Hpr) as (item' & Hitem' & Hn & _). simplify_eq.
      exists pr.1. split; [done|].
      apply (Hcap i {| tool := pr.1; args := pr.2; status := pending |}).
      change map with (@fmap list _). by rewrite list_lookup_fmap, Hpr.
    + intros Hprop i tc Hi. change map with (@fmap list _) in Hi.
      apply list_lookup_fmap_Some in Hi as (pr & -> & Hpr).
      destruct (Hall i pr Hpr) as (item & Hitem & Hn & _).
      destruct (Hprop i item Hitem) as (n & Hn' & Hcap). simpl. congruence.
Qed.

(** C10: a response that is not an object, or whose [tool_calls] is absent
    or not an array, makes [selectTools] return the empty sequence, as a
    response proposing no call does; it raises no error. *)
Theorem selectTools_treats_malformed_response_as_no_calls
    (llm : Backend) (ex : ToolExecutor) (task : Task) (u : Understanding)
    (response : JsValue) :
  backend_response llm ex task u = Fulfilled response →
  is_object response = false ∨
  (∃ v, get response "tool_calls" = Fulfilled v ∧ Array_isArray v = false) →
  selectTools llm ex task u = Fulfilled [] ∧
  extractToolCalls response
    = extractToolCalls (JObj [("tool_calls"%string, JArr [])]).
Proof.
  intros Hresp Hbad. rewrite selectTools_unfold, Hresp. simpl.
  assert (extractToolCalls response = Fulfilled []) as ->; [|done].
  unfold extractToolCalls. destruct Hbad as [Hobj|(v & Hv & Harr)].
  - destruct response as [| |[]|n|s| | |]; try done; simpl.
    + by destruct n.
    + by destruct s.
  - rewrite Hv. simpl.
    destruct (negb (truthy response) || negb (String.eqb (typeof response) "object"));
      [done|].
    rewrite Harr. by rewrite orb_true_r.
Qed.

(** ** Further properties of the executor *)


Lemma filter_none {A} (P : A → Prop) `{∀ x, Decision (P x)} (l : list A) :
  (∀ x, x ∈ l → ¬ P x) → filter P l = [].
Proof.
  induction l as [|x l IH]; intros Hl; [done|].
  rewrite filter_cons, decide_False by (apply Hl; left).
  apply IH. intros y Hy. apply Hl. by right.
Qed.

Lemma filter_name_NoDup (ts : list Tool) t :
  NoDup (name <$> ts) → t ∈ ts → filter (λ t', name t' = name t) ts = [t].
Proof.
  induction ts as [|x ts IH]; intros Hnd Hin; [by apply elem_of_nil in Hin|].
  rewrite fmap_cons in Hnd. apply NoDup_cons in Hnd as [Hx Hnd].
  rewrite filter_cons. apply elem_of_cons in Hin as [->|Hin].
  - rewrite decide_True by done. f_equal.
    apply filter_none. intros y Hy Heq. apply Hx.
    rewrite <-Heq. apply list_elem_of_fmap. by exists y.
  - rewrite decide_False; [by apply IH|].
    intros Heq. apply Hx. rewrite Heq. apply list_elem_of_fmap. by exists t.
Qed.

Lemma mapM_all {A B} (f : A → Outcome B) (l : list A) :
  Forall (λ x, ∃ y, f x = Fulfilled y) l → ∃ l', mapM f l = Fulfilled l'.
Proof.
  induction 1 as [|x l [y Hy] _ [l' IH]]; simpl; [by eexists|].
  rewrite Hy, IH. simpl. by eexists.
Qed.

Lemma mapM_first {A B} (f : A → Outcome B) (l : list A) :
  Exists (λ x, ∃ e, f x = Rejected e) l →
  ∃ x e, x ∈ l ∧ f x = Rejected e ∧ mapM f l = Rejected e.
Proof.
  induction l as [|x l IH]; intros Hex; [by apply Exists_nil in Hex|].
  simpl. destruct (f x) as [y|e] eqn:Hfx.
  - apply Exists_cons in Hex as [[e He]|Hex]; [congruence|].
    destruct (IH Hex) as (x' & e & Hin & Hfx' & ->).
    exists x', e. split_and!; [by right|done|done].
  - exists x, e. split_and!; [by left|done|done].
Qed.

(** X1: the observers are told [running] for the indices 0, 1, 2, ... in
    this order, without a gap and without a repeat, up to the counter (or
    the end of the list), whatever the pool size and the schedule. *)
Theorem executeTools_reports_running_in_list_order
    (ex : ToolExecutor) (e : Env) (task : Task) (qid : string)
    (cbs : option ToolExecutorCallbacks) (sched : list nat)
    (tcs : list ToolCallStatus) :
  toolCalls task = Some tcs →
  let st := store (executeTools ex e task qid cbs sched).2 in
  told running (events st) = seq 0 (nextIndex st `min` length tcs).
Proof.
  unfold executeTools. intros ->. simpl. apply launch_started_in_order.
Qed.

(** X2: every call of an observer carries the id of the task and an index
    inside the list, and never the status [pending]; [completed] is only
    told of a call whose capability is registered; [onToolCallError] is
    given the name and the arguments of the call at that index and always
    an [Error]: the "Tool not found" error, the error of the attempt that
    ended the retry loop, or what the observer threw when told [completed],
    each wrapped in an [Error] if it is none. *)
Theorem executeTools_reports_only_its_calls
    (ex : ToolExecutor) (e : Env) (task : Task) (qid : string)
    (cbs : option ToolExecutorCallbacks) (sched : list nat)
    (tcs : list ToolCallStatus) :
  toolCalls task = Some tcs →
  let c := {| this := ex; taskId := task_id task; queryId := qid;
              callbacks := cbs; env := e |} in
  Forall (event_ok c tcs) (events (store (executeTools ex e task qid cbs sched).2)).
Proof.
  unfold executeTools. intros ->. simpl. apply launch_events_ok.
Qed.

(** X3: a call whose name is not a key of the registry is never invoked
    and never waited for, no result is saved for it and it is never told
    [completed]; the error told for it is [Error("Tool not found: " + name)];
    once [executeTools] has resolved, with a pool of at least one worker,
    it has resolved [false], the call is [failed] and the observers were
    told [running], [failed] and the error. *)
Theorem executeTools_never_invokes_a_missing_tool
    (ex : ToolExecutor) (e : Env) (task : Task) (qid : string)
    (cbs : option ToolExecutorCallbacks) (sched : list nat)
    (tcs : list ToolCallStatus) (i : nat) (tc : ToolCallStatus) :
  toolCalls task = Some tcs → tcs !! i = Some tc →
  toolMap_get ex (tool tc) = None →
  let r := executeTools ex e task qid cbs sched in
  let st := store r.2 in
  attempts_of i (invocations st) = [] ∧
  (∀ a d, (i, a, d) ∉ timers st) ∧
  (i ∉ told completed (events st)) ∧
  (∀ tid n a err, ToolCallError tid i n a err ∈ events st →
     n = tool tc ∧ a = args tc ∧
     err = JError "Error" ("Tool not found: " ++ js_String (tool tc))%string) ∧
  (maxConcurrentToolCalls ex ≠ Some NaN →
   ∀ b, r.1 = Settled (Fulfilled b) →
     b = false ∧ status_at st i = Some failed ∧
     trace_of i (events st) = [KUpdate running; KUpdate failed; KError]).
Proof.
  unfold executeTools. intros -> Htc Hnone. simpl.
  set (c := {| this := ex; taskId := task_id task; queryId := qid;
               callbacks := cbs; env := e |}).
  set (C := pool_size ex (length tcs)).
  set (p := exec c sched (launch c tcs C)).
  pose proof (launch_inv c tcs C sched) as HP. fold p in HP.
  pose proof (launch_workers_length c tcs C sched) as Hlen. fold p in Hlen.
  pose proof (inv_globals _ _ _ _ (proj1 HP)) as HG.
  pose proof (launch_events_ok c tcs C sched) as Hev. fold p in Hev.
  assert (found c tcs i → False) as Hnf.
  { intros (tc' & Htc' & [t Ht]). simplify_eq. simpl in *. congruence. }
  assert (∀ a, (i, a) ∉ invocations (store p)) as Hinv.
  { intros a Hin. by destruct (g_attempt _ _ _ _ HG _ _ Hin) as (? & _). }
  split_and!.
  - destruct (attempts_of i (invocations (store p))) as [|a l] eqn:Hat; [done|].
    destruct (Hinv a). apply elem_of_attempts_of. rewrite Hat. left.
  - intros a d Hin. destruct (g_timers _ _ _ _ HG _ _ _ Hin) as (_ & _ & _ & Hin').
    by apply Hinv in Hin'.
  - intros Hin. apply elem_of_told, elem_of_trace_of in Hin as (ev & Hin & Hi & Hk).
    rewrite Forall_forall in Hev. destruct (Hev _ Hin) as (_ & _ & Hok).
    destruct ev as [tid j s|]; simplify_eq/=. destruct Hok as [_ Hf]. by apply Hnf, Hf.
  - intros tid n a err Hin. rewrite Forall_forall in Hev.
    destruct (Hev _ Hin) as (_ & _ & _ & (tc' & Htc' & -> & ->) & Hcause).
    assert (tc' = tc) as -> by congruence. split_and!; try done.
    destruct Hcause as [[_ ->]|[[Hf _]|[Hf _]]]; [done|by destruct Hnf..].
  - intros Hnan b Hb. pose proof (lookup_lt_Some _ _ _ Htc) as Hi.
    pose proof (pool_size_pos ex (length tcs) Hnan) as HC. fold C in HC.
    pose proof (resolved _ _ Hb) as (_ & -> & _).
    destruct (resolved_call c tcs p _ i HP ltac:(lia) Hb Hi)
      as [(_ & _ & a & r & (Hf & _) & _)
         |[(Ht & Hs & Hfl & _)|(_ & _ & _ & _ & a & r & (Hf & _) & _)]];
      [by destruct Hnf|done|by destruct Hnf].
Qed.

(** X4: [saveContext] is called exactly once for every call told
    [completed], in the order of these reports, and for no other call; it
    is given the name and the arguments of the call, the result of one of
    the (at most 3) attempts of that call, [undefined] for the error, and
    the query id. *)
Theorem executeTools_saves_each_completed_result_once
    (ex : ToolExecutor) (e : Env) (task : Task) (qid : string)
    (cbs : option ToolExecutorCallbacks) (sched : list nat)
    (tcs : list ToolCallStatus) :
  toolCalls task = Some tcs →
  let c := {| this := ex; taskId := task_id task; queryId := qid;
              callbacks := cbs; env := e |} in
  let st := store (executeTools ex e task qid cbs sched).2 in
  Forall2 (saved_for c tcs) (saved st) (told completed (events st)) ∧
  NoDup (told completed (events st)) ∧
  length (saved st) = length (told completed (events st)) ∧
  length (saved st) ≤ length tcs.
Proof.
  unfold executeTools. intros ->. simpl.
  set (c := {| this := ex; taskId := task_id task; queryId := qid;
               callbacks := cbs; env := e |}).
  set (C := pool_size ex (length tcs)).
  destruct (launch_saved_completed c tcs C sched) as [Hall Hnd].
  pose proof (launch_events_ok c tcs C sched) as Hev.
  split_and!; try done.
  - by eapply Forall2_length.
  - rewrite (Forall2_length _ _ _ Hall).
    transitivity (length (seq 0 (length tcs))); [|by rewrite length_seq].
    apply submseteq_length, NoDup_submseteq; [done|].
    intros i (ev & Hin & Hi & _)%elem_of_told%elem_of_trace_of.
    rewrite Forall_forall in Hev. destruct (Hev _ Hin) as (_ & Hlt & _).
    apply elem_of_seq. lia.
Qed.

(** X5: if the list has at most one call, or [maxConcurrentToolCalls] is
    a number below 2, the pool has at most one worker and the calls are
    worked off one after the other in list order: no report about a call
    follows a report about a later call. *)
Theorem executeTools_with_one_worker_runs_calls_in_order
    (ex : ToolExecutor) (e : Env) (task : Task) (qid : string)
    (cbs : option ToolExecutorCallbacks) (sched : list nat)
    (tcs : list ToolCallStatus) :
  toolCalls task = Some tcs →
  length tcs ≤ 1 ∨ (∃ q, maxConcurrentToolCalls ex = Some (Finite q) ∧ (q < 2)%Q) →
  let st := store (executeTools ex e task qid cbs sched).2 in
  pool_size ex (length tcs) ≤ 1 ∧
  ∀ j k ej ek, j ≤ k → events st !! j = Some ej → events st !! k = Some ek →
               event_index ej ≤ event_index ek.
Proof.
  unfold executeTools. intros -> Hone. simpl.
  assert (pool_size ex (length tcs) = 0 ∨ pool_size ex (length tcs) = 1)
    as [-> | ->].
  { rewrite pool_size_cases. destruct Hone as [Hn|(q & -> & Hq)]; simpl.
    - destruct (maxConcurrentToolCalls ex) as [[|[]|q]|]; simpl; lia.
    - pose proof (Qfloor_le q) as Hfl.
      assert (inject_Z (Qfloor q) < inject_Z 2)%Q as Hz by (by eapply Qle_lt_trans).
      rewrite <-Zlt_Qlt in Hz. lia. }
  - split; [lia|]. intros j k ej ek _ Hj.
    rewrite exec_finished in Hj; [done|]. by constructor.
  - split; [done|]. apply launch_sequential.
Qed.

(** X6: with observers that return normally, what [executeTools] has done
    once it has resolved does not depend on the schedule: two runs of the
    same task resolve to the same value, leave the same list, and have
    invoked the capability of every call at the same attempts, namely at
    the attempts 1 .. up to the first that is not a throttle failure (or
    the third) if the capability is registered and the pool has a worker,
    and at none otherwise. *)
Theorem executeTools_result_does_not_depend_on_the_schedule
    (ex : ToolExecutor) (e : Env) (task : Task) (qid : string)
    (cbs : option ToolExecutorCallbacks) (sched sched' : list nat)
    (tcs : list ToolCallStatus) (b b' : bool) :
  toolCalls task = Some tcs → quiet cbs →
  (executeTools ex e task qid cbs sched).1 = Settled (Fulfilled b) →
  (executeTools ex e task qid cbs sched').1 = Settled (Fulfilled b') →
  let st := store (executeTools ex e task qid cbs sched).2 in
  let st' := store (executeTools ex e task qid cbs sched').2 in
  b' = b ∧ calls st' = calls st ∧
  ∀ i tc, tcs !! i = Some tc →
    attempts_of i (invocations st') = attempts_of i (invocations st) ∧
    (maxConcurrentToolCalls ex ≠ Some NaN →
     attempts_of i (invocations st)
       = match toolMap_get ex (tool tc) with
         | Some _ => seq 1 (last_attempt e i (maxAttempts - 1) 1)
         | None => []
         end).
Proof.
  unfold executeTools. intros -> Hq. simpl.
  set (c := {| this := ex; taskId := task_id task; queryId := qid;
               callbacks := cbs; env := e |}).
  set (C := pool_size ex (length tcs)).
  destruct (Nat.eq_dec C 0) as [HC|HC].
  { rewrite HC. rewrite !(exec_finished c _ (launch c tcs 0)) by (by constructor).
    intros Hb Hb'. split_and!; [congruence|done|].
    intros i tc Htc. split; [done|]. intros Hnan.
    pose proof (pool_size_pos ex (length tcs) Hnan) as Hpos. fold C in Hpos. lia. }
  assert (1 ≤ C) as HC1 by lia.
  intros Hb Hb'.
  assert (∀ s b0, outcome (exec c s (launch c tcs C)) = Settled (Fulfilled b0) →
            calls (store (exec c s (launch c tcs C)))
              = imap (λ i tc, set_status (verdict c i tc) tc) tcs ∧
            (b0 = true ↔ ∀ i tc, tcs !! i = Some tc → verdict c i tc = completed))
    as Hdet.
  { intros s b0 Hb0.
    pose proof (launch_inv c tcs C s) as HP.
    pose proof (launch_workers_length c tcs C s) as Hlen.
    pose proof (Globals_length c tcs _ _ (inv_globals _ _ _ _ (proj1 HP))) as HN.
    assert (calls (store (exec c s (launch c tcs C)))
              = imap (λ i tc, set_status (verdict c i tc) tc) tcs) as Hcalls.
    { apply list_eq. intros i. rewrite list_lookup_imap.
      destruct (tcs !! i) as [tc|] eqn:Htc; simpl.
      - by apply (resolved_verdict c tcs C s b0 i tc Hq HC1 Hb0 Htc).
      - apply lookup_ge_None. apply lookup_ge_None in Htc. lia. }
    split; [done|].
    rewrite (resolved_flag c tcs _ b0 HP ltac:(lia) Hb0), Hcalls. split.
    - intros Hnf i tc Htc.
      specialize (Hnf (set_status (verdict c i tc) tc)).
      assert (set_status (verdict c i tc) tc
                ∈ imap (λ i tc, set_status (verdict c i tc) tc) tcs) as Hin.
      { apply list_elem_of_lookup. exists i. by rewrite list_lookup_imap, Htc. }
      specialize (Hnf Hin). simpl in Hnf. unfold verdict in *.
      destruct (toolMap_get _ _); [|done]. by destruct (invoke _ _ _).
    - intros Hall tc' [i Hi]%list_elem_of_lookup.
      rewrite list_lookup_imap in Hi.
      destruct (tcs !! i) as [tc|] eqn:Htc; [|done]. simpl in Hi.
      injection Hi as <-. simpl. by rewrite (Hall i tc Htc). }
  destruct (Hdet sched b Hb) as [Hcalls Hiff].
  destruct (Hdet sched' b' Hb') as [Hcalls' Hiff'].
  split_and!.
  - destruct b, b'; try done.
    + by apply Hiff', Hiff.
    + symmetry. by apply Hiff, Hiff'.
  - by rewrite Hcalls, Hcalls'.
  - intros i tc Htc.
    destruct (resolved_verdict c tcs C sched b i tc Hq HC1 Hb Htc) as (_ & Hat & _).
    destruct (resolved_verdict c tcs C sched' b' i tc Hq HC1 Hb' Htc) as (_ & Hat' & _).
    split; [by rewrite Hat, Hat'|]. intros _. exact Hat.
Qed.

(** X12: the pool has as many workers as [maxConcurrentToolCalls] (3 if
    it is absent), truncated, and the list allow, and one at least, unless
    the option is [NaN]; it never has more workers than calls (or one);
    at no point of a run are more calls running, as the observers see it,
    than the pool has workers, and the status field of a list of pending
    calls is never [running] at all; with the option absent and 5 calls,
    at most 3 calls are running. *)
Theorem executeTools_runs_at_most_pool_size_calls
    (ex : ToolExecutor) (e : Env) (task : Task) (qid : string)
    (cbs : option ToolExecutorCallbacks) (sched : list nat)
    (tcs : list ToolCallStatus) :
  toolCalls task = Some tcs →
  let p := (executeTools ex e task qid cbs sched).2 in
  pool_size ex (length tcs)
    = match default (Finite 3%Q) (maxConcurrentToolCalls ex) with
      | NaN => 0
      | Infinity true => 1
      | Infinity false =>
          Z.to_nat (Z.min (Z.max 1 (Z.of_nat (length tcs))) (2 ^ 53 - 1))
      | Finite q =>
          Z.to_nat (Z.min (Z.max 1 (Z.min (Qfloor q) (Z.of_nat (length tcs))))
                          (2 ^ 53 - 1))
      end ∧
  (maxConcurrentToolCalls ex ≠ Some NaN → 1 ≤ pool_size ex (length tcs)) ∧
  pool_size ex (length tcs) ≤ 1 `max` length tcs ∧
  length (workers p) = pool_size ex (length tcs) ∧
  length (running_now p) ≤ pool_size ex (length tcs) ∧
  (Forall (λ tc, status tc = pending) tcs → marked_running p = []) ∧
  (maxConcurrentToolCalls ex = None → length tcs = 5 → length (running_now p) ≤ 3).
Proof.
  unfold executeTools. intros ->. simpl.
  set (c := {| this := ex; taskId := task_id task; queryId := qid;
               callbacks := cbs; env := e |}).
  set (C := pool_size ex (length tcs)).
  pose proof (launch_inv c tcs C sched) as HP.
  pose proof (launch_workers_length c tcs C sched) as Hlen.
  pose proof (running_now_bounded c tcs _ HP) as Hrun. rewrite Hlen in Hrun.
  split_and!; try done.
  - apply pool_size_cases.
  - apply pool_size_pos.
  - unfold C. rewrite pool_size_cases.
    destruct (default _ _) as [|[]|q]; lia.
  - intros Hall. unfold marked_running.
    destruct (filter _ _) as [|tc l] eqn:Hf; [done|]. exfalso.
    assert (tc ∈ filter (λ tc, status tc = running)
                   (calls (store (exec c sched (launch c tcs C))))) as Hin
      by (rewrite Hf; left).
    apply list_elem_of_filter in Hin as [Hst [i Hi]%list_elem_of_lookup].
    destruct (status_written c tcs _ _ i tc (proj1 HP) Hi) as [H0|[?|?]];
      try congruence.
    apply list_elem_of_lookup_2 in H0.
    rewrite Forall_forall in Hall. specialize (Hall _ H0). congruence.
  - intros Hnone H5. etrans; [exact Hrun|]. unfold C.
    rewrite pool_size_cases, Hnone, H5. vm_compute. lia.
Qed.


(** X8: the registry the constructor builds maps a name to the last
    capability of the list with that name: a name is found exactly if some
    capability has it, what is found has the name asked for and is in the
    list, a key that is not a string is never found, and if the names are
    distinct every capability is found under its name. *)
Theorem toolMap_get_finds_the_last_tool_of_a_name
    (ts : list Tool) (maxConcurrent : option JsNumber) :
  let ex := new_ToolExecutor ts maxConcurrent in
  (∀ n, toolMap_get ex (JStr n) = last (filter (λ t, name t = n) ts)) ∧
  (∀ n, is_Some (toolMap_get ex (JStr n)) ↔ n ∈ name <$> ts) ∧
  (∀ n t, toolMap_get ex (JStr n) = Some t → name t = n ∧ t ∈ ts) ∧
  (∀ v, (∀ n, v ≠ JStr n) → toolMap_get ex v = None) ∧
  (NoDup (name <$> ts) → ∀ t, t ∈ ts → toolMap_get ex (JStr (name t)) = Some t).
Proof.
  intros ex.
  assert (∀ n t, last (filter (λ t, name t = n) ts) = Some t → name t = n ∧ t ∈ ts)
    as Hlast.
  { intros n t Hl. apply last_Some in Hl as [l' Hl].
    assert (t ∈ filter (λ t, name t = n) ts) as Hin
      by (rewrite Hl; apply elem_of_app; right; left).
    by apply list_elem_of_filter in Hin. }
  split_and!.
  - intros n. apply new_Map_lookup.
  - intros n. simpl. rewrite new_Map_lookup. split.
    + intros [t Ht]. apply Hlast in Ht as [<- Hin].
      apply list_elem_of_fmap. by exists t.
    + intros (t & -> & Hin)%list_elem_of_fmap.
      destruct (filter (λ t', name t' = name t) ts) as [|x l] eqn:Hf.
      * assert (t ∈ filter (λ t', name t' = name t) ts) as Hin'
          by (by apply list_elem_of_filter).
        rewrite Hf in Hin'. by apply elem_of_nil in Hin'.
      * rewrite last_cons. by destruct (last l); eexists.
  - intros n t. simpl. rewrite new_Map_lookup. apply Hlast.
  - intros v Hv. destruct v; try done. by destruct (Hv s).
  - intros Hnd t Hin. simpl. rewrite new_Map_lookup.
    by rewrite (filter_name_NoDup ts t Hnd Hin).
Qed.

(** ** Further properties of tool selection *)

Open Scope string_scope.

Lemma includes_empty (n : string) : includes n "" = true → n = "".
Proof. by destruct n. Qed.

Lemma append_nil_r (s : string) : s ++ "" = s.
Proof. induction s as [|a s IH]; [done|]. by rewrite append_cons, IH. Qed.

(** X9: the text [formatToolDescriptions] builds has a line
    ["- name: description"] for every capability and, for a capability whose
    schema has a shape, a line ["  - key: description"] for every entry of
    the shape, with ["No description"] for an entry that has none or an
    empty one; it is empty if there is no capability, and a capability
    without a shape, or with an empty one, gets its first line only. *)
Theorem formatToolDescriptions_lists_every_tool (ex : ToolExecutor) :
  (tools ex = [] → formatToolDescriptions ex = "") ∧
  (∀ t, t ∈ tools ex →
     includes ("- " ++ name t ++ ": " ++ description t) (formatToolDescriptions ex)
     = true) ∧
  (∀ t shape k d, t ∈ tools ex → schema t = Some shape → (k, d) ∈ shape →
     includes ("  - " ++ k ++ ": " ++
               match d with Some "" | None => "No description" | Some s => s end)
              (formatToolDescriptions ex) = true) ∧
  (∀ t, tools ex = [t] → schema t = None ∨ schema t = Some [] →
     formatToolDescriptions ex = "- " ++ name t ++ ": " ++ description t).
Proof.
  unfold formatToolDescriptions.
  match goal with |- context [map ?g (tools ex)] => set (block := g) end.
  assert (∀ t args,
            "- " ++ name t ++ ": " ++ description t ++ args
            = ("- " ++ name t ++ ": " ++ description t) ++ args) as Hhead
    by (intros; by rewrite !append_assoc).
  assert (∀ t, t ∈ tools ex → block t ∈ map block (tools ex)) as Hblock.
  { intros t Hin. by apply list_elem_of_In, in_map, list_elem_of_In. }
  split_and!.
  - by intros ->.
  - intros t Hin. eapply includes_concat; [by apply Hblock|].
    unfold block. rewrite Hhead. apply includes_here.
  - intros t shape k d Hin Hshape Hkd.
    eapply includes_concat; [by apply Hblock|].
    unfold block. rewrite Hshape.
    match goal with |- context [String.concat newline (map ?g shape)] =>
      set (line := g) end.
    assert (includes (line (k, d)) (String.concat newline (map line shape)) = true)
      as Hargs.
    { eapply includes_concat.
      - apply list_elem_of_In, in_map, list_elem_of_In, Hkd.
      - rewrite <-(append_nil_r (line (k, d))) at 2. apply includes_here. }
    change ("  - " ++ k ++ ": " ++
            match d with Some "" | None => "No description" | Some s => s end)
      with (line (k, d)).
    destruct (String.eqb_spec (String.concat newline (map line shape)) "") as [He|_].
    { rewrite He in Hargs. by apply includes_empty in Hargs. }
    by do 4 apply includes_app_r.
  - intros t -> Hschema. simpl. unfold block.
    destruct Hschema as [-> | ->]; simpl; by rewrite append_nil_r.
Qed.

(** X10: [selectTools] rejects with what the backend rejects with; if the
    backend answers with an object whose [tool_calls] is an array, it
    returns a list when no element of the array is [null] or [undefined],
    and rejects with the [TypeError] of reading [name] of such an element
    otherwise: no list is returned for the other elements. *)
Theorem selectTools_rejects_on_a_null_proposal
    (llm : Backend) (ex : ToolExecutor) (task : Task) (u : Understanding) :
  (∀ err, backend_response llm ex task u = Rejected err →
          selectTools llm ex task u = Rejected err) ∧
  (∀ response items,
     backend_response llm ex task u = Fulfilled response →
     is_object response = true →
     get response "tool_calls" = Fulfilled (JArr items) →
     (Forall (λ v, v ≠ JNull ∧ v ≠ JUndefined) items →
      ∃ l, selectTools llm ex task u = Fulfilled l ∧ length l = length items) ∧
     (Exists (λ v, v = JNull ∨ v = JUndefined) items →
      ∃ v, v ∈ items ∧ (v = JNull ∨ v = JUndefined) ∧
           selectTools llm ex task u
           = Rejected (JError "TypeError"
               ("Cannot read properties of " ++ js_String v ++ " (reading 'name')")))).
Proof.
  rewrite selectTools_unfold. split.
  - by intros err ->.
  - intros response items -> Hobj Hget. simpl.
    assert (extractToolCalls response
            = mapM (λ tc, bind (get tc "name") (λ n,
                          bind (get tc "args") (λ a, Fulfilled (n, a)))) items)
      as ->.
    { unfold extractToolCalls. rewrite Hget.
      by destruct response. }
    split.
    + intros Hall.
      destruct (mapM_all (λ tc, bind (get tc "name") (λ n,
                            bind (get tc "args") (λ a, Fulfilled (n, a)))) items)
        as [l Hl].
      { eapply Forall_impl; [exact Hall|]. simpl. intros v [Hn Hu].
        destruct v; try done; simpl; by eexists. }
      rewrite Hl. simpl. eexists. split; [done|].
      rewrite length_map. by apply mapM_Fulfilled in Hl as [-> _].
    + intros Hex.
      destruct (mapM_first (λ tc, bind (get tc "name") (λ n,
                               bind (get tc "args") (λ a, Fulfilled (n, a)))) items)
        as (v & e & Hin & Hfv & ->).
      { eapply Exists_impl; [exact Hex|]. simpl. intros v [-> | ->]; by eexists. }
      exists v. split; [done|]. simpl.
      destruct v; try (simpl in Hfv; discriminate Hfv);
        (split; [by auto|]); simpl in Hfv; injection Hfv as <-; reflexivity.
Qed.

(** X11: whether an error is retried is read off its text alone: a value
    that is falsy ([undefined], [null], [false], 0, the empty string) and a
    plain object are never taken for a throttle failure, whatever they
    hold; an [Error] is taken for one as soon as its message, or its name,
    contains one of the three signatures. *)
Theorem isTooMany_reads_the_text_of_the_error :
  (∀ v, truthy v = false → isTooMany v = false) ∧
  (∀ fields, isTooMany (JObj fields) = false) ∧
  (∀ n m sig,
     sig ∈ ["429"; "Too Many Requests"; "Failed to get crumb"] →
     includes sig m = true ∨ includes sig n = true →
     isTooMany (JError n m) = true).
Proof.
  split_and!.
  - intros v Hv. unfold isTooMany. by rewrite Hv.
  - done.
  - intros n m sig Hsig Hin.
    assert (includes sig (js_String (JError n m)) = true) as Hmsg.
    { assert (sig ≠ "") as Hne.
      { intros ->. repeat (apply elem_of_cons in Hsig as [?|Hsig]; [done|]).
        by apply elem_of_nil in Hsig. }
      simpl. destruct (String.eqb_spec n "") as [->|Hn].
      { destruct Hin as [?|Hin]; [done|]. by apply includes_empty in Hin. }
      destruct (String.eqb_spec m "") as [->|Hm].
      { destruct Hin as [Hin|?]; [|done]. by apply includes_empty in Hin. }
      destruct Hin as [Hin|Hin].
      - by do 2 apply includes_app_r.
      - by apply includes_app_l. }
    unfold isTooMany. change (truthy (JError n m)) with true. cbv iota.
    repeat (apply elem_of_cons in Hsig as [->|Hsig]);
      [| |by rewrite Hmsg, !orb_true_r|by apply elem_of_nil in Hsig];
      rewrite Hmsg; by rewrite ?orb_true_r.
Qed.

Close Scope string_scope.

(** ** The claims on sample runs *)

Open Scope string_scope.

(** Two workers on the three sample calls, run until [executeTools] has
    resolved: the counter has passed the end of the list. *)
Lemma executeTools_claims_each_index_once_with_quiet_observers_witness :
  quiet (callbacks (demo_ctx demo_env (Some demo_callbacks))) ∧
  (1 ≤ 2)%nat ∧
  outcome (exec (demo_ctx demo_env (Some demo_callbacks)) [0; 1; 0; 1]
             (launch (demo_ctx demo_env (Some demo_callbacks)) demo_calls 2))
  ≠ Pending ∧
  (length demo_calls
   ≤ nextIndex (store (exec (demo_ctx demo_env (Some demo_callbacks)) [0; 1; 0; 1]
                         (launch (demo_ctx demo_env (Some demo_callbacks))
                                 demo_calls 2))))%nat.
Proof.
  assert (quiet (callbacks (demo_ctx demo_env (Some demo_callbacks)))) as Hq.
  { intros seen ev. by destruct ev. }
  assert (outcome (exec (demo_ctx demo_env (Some demo_callbacks)) [0; 1; 0; 1]
                     (launch (demo_ctx demo_env (Some demo_callbacks)) demo_calls 2))
          ≠ Pending) as Hset.
  { vm_compute. discriminate. }
  split; [exact Hq|]. split; [lia|]. split; [exact Hset|].
  pose proof (executeTools_claims_each_index_once_with_quiet_observers
                (demo_ctx demo_env (Some demo_callbacks)) demo_calls 2 [0; 1; 0; 1]
                Hq ltac:(lia)) as (_ & _ & _ & _ & _ & H).
  destruct (H Hset) as (_ & Hn & _). exact Hn.
Defined.

(** C1 as stated fails on this run: one worker, two calls of a registered
    capability, an observer that throws when told that a call is running.
    The worker is gone after it has claimed index 0: whatever the
    schedule, index 1 is never claimed, nothing is invoked and
    [executeTools] rejects. *)
Lemma throwing_observer_leaves_an_index_unclaimed :
  pool_size demo_executor_one (length demo_two) = 1 ∧
  ∀ sched,
    (∀ w, (w, 1) ∉ claims (store (executeTools demo_executor_one demo_env
                                    demo_task_two "query-1"
                                    (Some demo_callbacks_running_throws) sched).2)) ∧
    nextIndex (store (executeTools demo_executor_one demo_env demo_task_two "query-1"
                        (Some demo_callbacks_running_throws) sched).2) = 1 ∧
    invocations (store (executeTools demo_executor_one demo_env demo_task_two
                          "query-1" (Some demo_callbacks_running_throws) sched).2)
    = [] ∧
    (executeTools demo_executor_one demo_env demo_task_two "query-1"
       (Some demo_callbacks_running_throws) sched).1
    = Settled (Rejected (JError "Error" "render failed")).
Proof.
  split; [vm_compute; reflexivity|]. intros sched.
  rewrite (executeTools_finished demo_executor_one demo_env demo_task_two "query-1"
             (Some demo_callbacks_running_throws) demo_two sched eq_refl)
    by (vm_compute; repeat constructor).
  split_and!; try (vm_compute; reflexivity).
  intros w Hin. vm_compute in Hin.
  apply list_elem_of_singleton in Hin. discriminate.
Qed.

(** The sample task run to its end under observers that return normally:
    two calls succeed, the unregistered one fails, and [executeTools]
    resolves to [false]. *)
Lemma executeTools_resolves_true_iff_every_call_succeeds_witness :
  toolCalls demo_task = Some demo_calls ∧
  quiet (Some demo_callbacks) ∧
  maxConcurrentToolCalls demo_executor ≠ Some NaN ∧
  (executeTools demo_executor demo_env demo_task "query-1"
     (Some demo_callbacks) [0; 1; 0; 1]).1 = Settled (Fulfilled false) ∧
  (false = true ↔
   ∀ i tc, demo_calls !! i = Some tc →
     verdict {| this := demo_executor; taskId := task_id demo_task;
                queryId := "query-1"; callbacks := Some demo_callbacks;
                env := demo_env |} i tc = completed).
Proof.
  assert (quiet (Some demo_callbacks)) as Hq.
  { intros seen ev. by destruct ev. }
  assert (maxConcurrentToolCalls demo_executor ≠ Some NaN) as Hnan by discriminate.
  assert ((executeTools demo_executor demo_env demo_task "query-1"
             (Some demo_callbacks) [0; 1; 0; 1]).1 = Settled (Fulfilled false)) as Hb.
  { vm_compute. reflexivity. }
  split; [reflexivity|]. split; [exact Hq|]. split; [exact Hnan|].
  split; [exact Hb|].
  pose proof (executeTools_resolves_true_iff_every_call_succeeds
                demo_executor demo_env demo_task "query-1" (Some demo_callbacks)
                [0; 1; 0; 1] demo_calls eq_refl Hq) as (_ & _ & H).
  destruct (H Hnan false Hb) as (_ & Hiff & _). exact Hiff.
Defined.

(** C2 as stated fails on these runs.  A call of a capability nobody
    registered fails for good, but the observer throws when told so, and
    [executeTools] rejects, whatever the schedule, instead of resolving
    [false].  A call whose only attempt succeeds is [failed] in the end,
    and [executeTools] resolves [false], because the observer threw when
    told that it has completed.  And the error of a capability leaves
    [executeTools] as an exception when [onToolCallError] throws what it is
    given. *)
Lemma executeTools_outcome_depends_on_the_observers :
  (toolMap_get demo_executor (tool (demo_call "get_news")) = None ∧
   ∀ sched,
     (executeTools demo_executor demo_env demo_task_missing "query-1"
        (Some demo_callbacks_failed_throws) sched).1
     = Settled (Rejected (JError "Error" "render failed"))) ∧
  (invoke demo_env 0 1 = Fulfilled (JStr "ok") ∧
   (executeTools demo_executor demo_env demo_task_single "query-1"
      (Some demo_callbacks_completed_throws) [0; 0]).1 = Settled (Fulfilled false) ∧
   status_at (store (executeTools demo_executor demo_env demo_task_single "query-1"
                       (Some demo_callbacks_completed_throws) [0; 0]).2) 0
   = Some failed) ∧
  (invoke demo_env_boom 0 1 = Rejected (JError "Error" "boom") ∧
   (executeTools demo_executor demo_env_boom demo_task_single "query-1"
      (Some demo_callbacks_rethrow) [0; 0]).1
   = Settled (Rejected (JError "Error" "boom"))).
Proof.
  split_and!; try (vm_compute; reflexivity).
  intros sched.
  rewrite (executeTools_finished demo_executor demo_env demo_task_missing "query-1"
             (Some demo_callbacks_failed_throws) [demo_call "get_news"] sched eq_refl)
    by (vm_compute; repeat constructor).
  vm_compute. reflexivity.
Qed.

(** The retry loop on the throttled sample: call 0 is throttled twice,
    succeeds at its third attempt and, the observers returning normally,
    ends completed after exactly three invocations. *)
Lemma invokeWithRetries_retries_only_throttled_attempts_witness :
  toolCalls demo_task_single = Some demo_single ∧
  (executeTools demo_executor demo_env_throttled demo_task_single "query-1"
     (Some demo_callbacks) [0; 0; 0; 0; 0; 0]).1 = Settled (Fulfilled true) ∧
  attempts_of 0
    (invocations
       (store (executeTools demo_executor demo_env_throttled demo_task_single
                 "query-1" (Some demo_callbacks) [0; 0; 0; 0; 0; 0]).2))
  = [1; 2; 3] ∧
  status_at
    (store (executeTools demo_executor demo_env_throttled demo_task_single
              "query-1" (Some demo_callbacks) [0; 0; 0; 0; 0; 0]).2) 0
  = Some completed.
Proof.
  split; [reflexivity|]. split; [vm_compute; reflexivity|].
  pose proof (invokeWithRetries_retries_only_throttled_attempts
                demo_executor demo_env_throttled demo_task_single "query-1"
                (Some demo_callbacks) [0; 0; 0; 0; 0; 0] demo_single eq_refl)
    as (_ & _ & _ & _ & _ & _ & H).
  destruct (H ltac:(discriminate) true ltac:(vm_compute; reflexivity) 0)
    as (Hok & _ & _).
  - simpl; lia.
  - eexists. split; [reflexivity|]. vm_compute. by eexists.
  - destruct (Hok (JStr "ok")) as (Hatt & _ & Hst & _).
    + eexists. split; vm_compute; reflexivity.
    + eexists. split; vm_compute; reflexivity.
    + reflexivity.
    + split; [exact Hatt|]. apply Hst.
      intros (seen & err & Hobs). simpl in Hobs. discriminate.
Defined.

(** C3 as stated fails on this run: the capability is throttled twice and
    succeeds at the third attempt, after exactly 3 invocations, but the
    observer throws when told [completed], and the call ends [failed]. *)
Lemma invokeWithRetries_success_can_end_failed :
  (∃ err, invoke demo_env_throttled 0 1 = Rejected err ∧ isTooMany err = true) ∧
  (∃ err, invoke demo_env_throttled 0 2 = Rejected err ∧ isTooMany err = true) ∧
  invoke demo_env_throttled 0 3 = Fulfilled (JStr "ok") ∧
  demo_run_overruled.1 = Settled (Fulfilled false) ∧
  attempts_of 0 (invocations (store demo_run_overruled.2)) = [1; 2; 3] ∧
  status_at (store demo_run_overruled.2) 0 = Some failed ∧
  status_at (store demo_run_overruled.2) 0 ≠ Some completed.
Proof.
  split_and!; try (vm_compute; reflexivity); try (eexists; split; vm_compute; reflexivity).
  vm_compute. discriminate.
Qed.

(** A task with an empty call list. *)
Lemma executeTools_without_calls_resolves_true_witness :
  (toolCalls {| task_id := "task-0"; task_description := "say hello";
                toolCalls := Some [] |} = None ∨
   toolCalls {| task_id := "task-0"; task_description := "say hello";
                toolCalls := Some [] |} = Some []) ∧
  (executeTools demo_executor demo_env
     {| task_id := "task-0"; task_description := "say hello"; toolCalls := Some [] |}
     "query-1" (Some demo_callbacks) [0; 1; 0]).1 = Settled (Fulfilled true).
Proof.
  split; [right; reflexivity|].
  apply (executeTools_without_calls_resolves_true demo_executor demo_env
           {| task_id := "task-0"; task_description := "say hello";
              toolCalls := Some [] |} "query-1" (Some demo_callbacks) [0; 1; 0]).
  right; reflexivity.
Defined.

(** Five calls and a maximum of [NaN]: no worker, no call run, [true]. *)
Lemma executeTools_starts_no_worker_for_NaN_witness :
  toolCalls demo_task_five = Some demo_five ∧
  maxConcurrentToolCalls demo_executor_NaN = Some NaN ∧
  pool_size demo_executor_NaN (length demo_five) = 0%nat ∧
  (executeTools demo_executor_NaN demo_env demo_task_five "query-1"
     (Some demo_callbacks) [0; 1; 2]).1 = Settled (Fulfilled true) ∧
  calls (store (executeTools demo_executor_NaN demo_env demo_task_five "query-1"
                  (Some demo_callbacks) [0; 1; 2]).2) = demo_five.
Proof.
  split; [reflexivity|]. split; [reflexivity|].
  pose proof (executeTools_starts_no_worker_for_NaN demo_executor_NaN demo_env
                demo_task_five "query-1" (Some demo_callbacks) [0; 1; 2] demo_five
                eq_refl eq_refl) as (H1 & _ & H3 & H4 & _).
  split; [exact H1|]. split; [exact H3|exact H4].
Defined.

(** One proposed call becomes one pending entry. *)
Lemma selectTools_returns_the_proposed_calls_pending_witness :
  selectTools (demo_backend demo_response_ghost) demo_executor demo_task
    demo_understanding
  = Fulfilled [{| tool := JStr "get_weather";
                  args := JObj [("city", JStr "Paris")]; status := pending |}] ∧
  ∃ response,
    backend_response (demo_backend demo_response_ghost) demo_executor demo_task
      demo_understanding = Fulfilled response ∧
    Forall (λ tc, status tc = pending)
      [{| tool := JStr "get_weather";
          args := JObj [("city", JStr "Paris")]; status := pending |}].
Proof.
  split; [reflexivity|].
  destruct (selectTools_returns_the_proposed_calls_pending
              (demo_backend demo_response_ghost) demo_executor demo_task
              demo_understanding _ eq_refl) as (response & Hr & Hp & _).
  exists response. split; [exact Hr|exact Hp].
Defined.

(** C6 as stated fails on this response: the backend proposes a call of
    [get_weather], which is not in the capability set, and [selectTools]
    returns it. *)
Lemma selectTools_returns_unregistered_name :
  selectTools (demo_backend demo_response_ghost) demo_executor demo_task
    demo_understanding
  = Fulfilled [{| tool := JStr "get_weather";
                  args := JObj [("city", JStr "Paris")]; status := pending |}] ∧
  name <$> tools demo_executor = ["get_income_statements"] ∧
  ¬ capability demo_executor (JStr "get_weather").
Proof.
  split_and!; [reflexivity|reflexivity|].
  intros (n & [= <-] & Hin). simpl in Hin.
  apply list_elem_of_singleton in Hin. discriminate.
Qed.

(** Call 0 of the sample, watched by observers that return normally, after
    its worker took two turns. *)
Lemma call_lifecycle_with_quiet_observers_witness :
  quiet (callbacks (demo_ctx demo_env (Some demo_callbacks))) ∧
  (0 < length demo_calls)%nat ∧
  lifecycle (demo_ctx demo_env (Some demo_callbacks)) demo_calls
    (exec (demo_ctx demo_env (Some demo_callbacks)) [0; 0]
       (launch (demo_ctx demo_env (Some demo_callbacks)) demo_calls 2)) 0.
Proof.
  assert (quiet (callbacks (demo_ctx demo_env (Some demo_callbacks)))) as Hq.
  { intros seen ev. by destruct ev. }
  split; [exact Hq|]. split; [simpl; lia|].
  apply (call_lifecycle_with_quiet_observers
           (demo_ctx demo_env (Some demo_callbacks)) demo_calls 2 [0; 0] 0 Hq).
  simpl; lia.
Defined.

(** C7 as stated fails on this run: while the call is running its status
    field is still [pending]; then the call completes, the observer throws
    when told so, and the call leaves [completed] for [failed]. *)
Lemma completed_call_can_become_failed :
  reported 0 (events (store (launch
                (demo_ctx demo_env (Some demo_callbacks_completed_throws))
                demo_single 1))) = running ∧
  status_at (store (launch
                (demo_ctx demo_env (Some demo_callbacks_completed_throws))
                demo_single 1)) 0 = Some pending ∧
  trace_of 0 (events (store demo_pool_overruled))
    = [KUpdate running; KUpdate completed; KUpdate failed; KError] ∧
  status_at (store demo_pool_overruled) 0 = Some failed ∧
  outcome demo_pool_overruled = Settled (Fulfilled false) ∧
  ¬ lifecycle (demo_ctx demo_env (Some demo_callbacks_completed_throws))
      demo_single demo_pool_overruled 0.
Proof.
  split_and!; try (vm_compute; reflexivity).
  unfold lifecycle.
  intros [(Ht & _)|[(Ht & _)|[(Ht & _)|(Ht & _)]]]; vm_compute in Ht; discriminate.
Qed.

(** The sample task run to its end under observers that return normally. *)
Lemma executeTools_never_rejects_with_quiet_observers_witness :
  quiet (callbacks (demo_ctx demo_env (Some demo_callbacks))) ∧
  rejection (exec (demo_ctx demo_env (Some demo_callbacks)) [0; 1; 0; 1]
               (launch (demo_ctx demo_env (Some demo_callbacks)) demo_calls 2))
  = None.
Proof.
  assert (quiet (callbacks (demo_ctx demo_env (Some demo_callbacks)))) as Hq.
  { intros seen ev. by destruct ev. }
  split; [exact Hq|].
  pose proof (executeTools_never_rejects_with_quiet_observers
                (demo_ctx demo_env (Some demo_callbacks)) demo_calls 2 [0; 1; 0; 1])
    as (H & _).
  exact (H Hq).
Defined.

(** C8 as stated fails on this run: the observer throws when told that call
    0 is running; the only worker is aborted before it invokes anything and
    [executeTools] rejects with the observer's exception. *)
Lemma throwing_observer_rejects_executeTools :
  demo_run_rejected.1 = Settled (Rejected (JError "Error" "render failed")) ∧
  workers demo_run_rejected.2 = [Threw 0 (JError "Error" "render failed")] ∧
  invocations (store demo_run_rejected.2) = [] ∧
  status_at (store demo_run_rejected.2) 0 = Some pending.
Proof. split_and!; vm_compute; reflexivity. Qed.

(** The tool names of the sample task after its run. *)
Lemma executeTools_changes_only_status_witness :
  toolCalls demo_task = Some demo_calls ∧
  tool <$> calls (store (executeTools demo_executor demo_env demo_task "query-1"
                           (Some demo_callbacks) [0; 1; 0; 1]).2)
  = tool <$> demo_calls.
Proof.
  split; [reflexivity|].
  apply (executeTools_changes_only_status demo_executor demo_env demo_task "query-1"
           (Some demo_callbacks) [0; 1; 0; 1] demo_calls).
  reflexivity.
Defined.

(** A backend that answers with plain text. *)
Lemma selectTools_treats_malformed_response_as_no_calls_witness :
  backend_response (demo_backend (JStr "I can answer directly.")) demo_executor
    demo_task demo_understanding = Fulfilled (JStr "I can answer directly.") ∧
  selectTools (demo_backend (JStr "I can answer directly.")) demo_executor
    demo_task demo_understanding = Fulfilled [].
Proof.
  split; [reflexivity|].
  apply (selectTools_treats_malformed_response_as_no_calls
           (demo_backend (JStr "I can answer directly.")) demo_executor
           demo_task demo_understanding (JStr "I can answer directly.")).
  - reflexivity.
  - left. reflexivity.
Defined.

Close Scope string_scope.

(** ** The further properties on sample runs *)

Open Scope string_scope.

(** The three sample calls with the default pool, every worker started and
    resumed once. *)
Lemma executeTools_reports_running_in_list_order_witness :
  toolCalls demo_task = Some demo_calls ∧
  told running
    (events (store (executeTools demo_executor demo_env demo_task "query-1"
                      (Some demo_callbacks) [2; 0; 1]).2))
  = seq 0 (nextIndex (store (executeTools demo_executor demo_env demo_task
                               "query-1" (Some demo_callbacks) [2; 0; 1]).2)
           `min` length demo_calls).
Proof.
  split; [reflexivity|].
  apply (executeTools_reports_running_in_list_order
           demo_executor demo_env demo_task "query-1" (Some demo_callbacks)
           [2; 0; 1] demo_calls eq_refl).
Defined.

Lemma executeTools_reports_only_its_calls_witness :
  toolCalls demo_task = Some demo_calls ∧
  Forall (event_ok {| this := demo_executor; taskId := task_id demo_task;
                      queryId := "query-1"; callbacks := Some demo_callbacks;
                      env := demo_env |} demo_calls)
    (events (store (executeTools demo_executor demo_env demo_task "query-1"
                      (Some demo_callbacks) [2; 0; 1]).2)).
Proof.
  split; [reflexivity|].
  apply (executeTools_reports_only_its_calls
           demo_executor demo_env demo_task "query-1" (Some demo_callbacks)
           [2; 0; 1] demo_calls eq_refl).
Defined.

(** The third sample call names a capability nobody registered. *)
Lemma executeTools_never_invokes_a_missing_tool_witness :
  toolCalls demo_task = Some demo_calls ∧
  demo_calls !! 2%nat = Some (demo_call "get_news") ∧
  toolMap_get demo_executor (tool (demo_call "get_news")) = None ∧
  attempts_of 2
    (invocations (store (executeTools demo_executor demo_env demo_task "query-1"
                           (Some demo_callbacks) [0; 1; 0; 1]).2)) = [].
Proof.
  split; [reflexivity|]. split; [reflexivity|]. split; [reflexivity|].
  pose proof (executeTools_never_invokes_a_missing_tool
                demo_executor demo_env demo_task "query-1" (Some demo_callbacks)
                [0; 1; 0; 1] demo_calls 2 (demo_call "get_news")
                eq_refl eq_refl eq_refl) as (H & _).
  exact H.
Defined.

Lemma executeTools_saves_each_completed_result_once_witness :
  toolCalls demo_task = Some demo_calls ∧
  length (saved (store (executeTools demo_executor demo_env demo_task "query-1"
                          (Some demo_callbacks) [0; 1; 0; 1]).2))
  = length (told completed
              (events (store (executeTools demo_executor demo_env demo_task
                                "query-1" (Some demo_callbacks) [0; 1; 0; 1]).2))).
Proof.
  split; [reflexivity|].
  pose proof (executeTools_saves_each_completed_result_once
                demo_executor demo_env demo_task "query-1" (Some demo_callbacks)
                [0; 1; 0; 1] demo_calls eq_refl) as (_ & _ & H & _).
  exact H.
Defined.

(** The sample calls with [maxConcurrentToolCalls] set to 1. *)
Lemma executeTools_with_one_worker_runs_calls_in_order_witness :
  toolCalls demo_task = Some demo_calls ∧
  ((length demo_calls ≤ 1)%nat ∨
   ∃ q, maxConcurrentToolCalls demo_executor_one = Some (Finite q) ∧ (q < 2)%Q) ∧
  (pool_size demo_executor_one (length demo_calls) ≤ 1)%nat.
Proof.
  assert ((length demo_calls ≤ 1)%nat ∨
          ∃ q, maxConcurrentToolCalls demo_executor_one = Some (Finite q) ∧
               (q < 2)%Q) as H.
  { right. exists 1%Q. split; reflexivity. }
  split; [reflexivity|]. split; [exact H|].
  pose proof (executeTools_with_one_worker_runs_calls_in_order
                demo_executor_one demo_env demo_task "query-1"
                (Some demo_callbacks) [0; 0; 0] demo_calls eq_refl H) as (Hp & _).
  exact Hp.
Defined.

(** The sample task run to its end, as two schedules have it. *)
Lemma executeTools_result_does_not_depend_on_the_schedule_witness :
  toolCalls demo_task = Some demo_calls ∧
  quiet (Some demo_callbacks) ∧
  (executeTools demo_executor demo_env demo_task "query-1"
     (Some demo_callbacks) [0; 1; 0; 1]).1 = Settled (Fulfilled false) ∧
  (executeTools demo_executor demo_env demo_task "query-1"
     (Some demo_callbacks) [1; 1; 2; 0; 0]).1 = Settled (Fulfilled false) ∧
  calls (store (executeTools demo_executor demo_env demo_task "query-1"
                  (Some demo_callbacks) [1; 1; 2; 0; 0]).2)
  = calls (store (executeTools demo_executor demo_env demo_task "query-1"
                    (Some demo_callbacks) [0; 1; 0; 1]).2).
Proof.
  assert (quiet (Some demo_callbacks)) as Hq.
  { intros seen ev. by destruct ev. }
  assert ((executeTools demo_executor demo_env demo_task "query-1"
             (Some demo_callbacks) [0; 1; 0; 1]).1 = Settled (Fulfilled false)) as Hb.
  { vm_compute. reflexivity. }
  assert ((executeTools demo_executor demo_env demo_task "query-1"
             (Some demo_callbacks) [1; 1; 2; 0; 0]).1 = Settled (Fulfilled false))
    as Hb'.
  { vm_compute. reflexivity. }
  split; [reflexivity|]. split; [exact Hq|]. split; [exact Hb|]. split; [exact Hb'|].
  pose proof (executeTools_result_does_not_depend_on_the_schedule
                demo_executor demo_env demo_task "query-1" (Some demo_callbacks)
                [0; 1; 0; 1] [1; 1; 2; 0; 0] demo_calls false false
                eq_refl Hq Hb Hb') as (_ & H & _).
  exact H.
Defined.

(** Three calls with the option unset: a pool of three workers. *)
Lemma executeTools_runs_at_most_pool_size_calls_witness :
  toolCalls demo_task = Some demo_calls ∧
  (length (running_now (executeTools demo_executor demo_env demo_task "query-1"
                          None [0]).2) ≤ pool_size demo_executor (length demo_calls))%nat.
Proof.
  split; [reflexivity|].
  pose proof (executeTools_runs_at_most_pool_size_calls demo_executor demo_env
                demo_task "query-1" None [0] demo_calls eq_refl)
    as (_ & _ & _ & _ & H & _).
  exact H.
Defined.

Close Scope string_scope.
